(** * uday.sh terminal shell: tokenizer, path resolver, fuzzy ranking, session

    A shallow embedding of [src/lib/parser.ts] and of the command
    interpretation core of [src/components/Terminal/Shell.tsx].

    Conventions of the embedding.
    - A JavaScript string is a sequence of code units.  It is embedded as a
      Rocq [string]; one [ascii] stands for one code unit in the range
      0..255, and the character classes ([isSpace], [toLowerCase]) are the
      ECMAScript ones restricted to that range.
    - Objects used as dictionaries ([children], [ALIASES]) are embedded as
      the association list of their own properties, in the order in which
      [Object.entries] and [for ... in] enumerate them. A lookup [obj[k]]
      that finds no own property goes on to [Object.prototype], as in the
      host: see [JS.objectPrototypeKeys].
    - [null] and [undefined] results are [None].
    - React nodes stored in the display log are embedded as values of
      [Content]; the timestamp-derived [id] of a log entry is not modelled. *)

From Stdlib Require Import String Ascii List Bool Arith ZArith Lia.
From Stdlib Require Import Sorting.Sorted Sorting.Permutation DecimalString.
From Stdlib Require Import Structures.OrdersEx Classes.RelationClasses.
Import ListNotations.

Local Open Scope string_scope.
Local Open Scope list_scope.
Local Open Scope nat_scope.

Local Set Warnings "-register-all".

(* ===================================================================== *)
(** ** String primitives of the host language *)
(* ===================================================================== *)

Module JS.

(** [/\s/] and the set stripped by [String.prototype.trim], on code units
    0..255: TAB, LF, VT, FF, CR, SPACE and NO-BREAK SPACE. *)
Definition isSpace (c : ascii) : bool :=
  let n := nat_of_ascii c in
  (((9 <=? n) && (n <=? 13)) || (n =? 32) || (n =? 160))%nat.

(** [String.prototype.toLowerCase] on one code unit of the range 0..255. *)
Definition toLowerChar (c : ascii) : ascii :=
  let n := nat_of_ascii c in
  if (((65 <=? n) && (n <=? 90))
      || ((192 <=? n) && (n <=? 222) && negb (n =? 215)))%nat
  then ascii_of_nat (n + 32) else c.

Fixpoint toLowerCase (s : string) : string :=
  match s with
  | EmptyString => EmptyString
  | String c r => String (toLowerChar c) (toLowerCase r)
  end.

Fixpoint trimStart (s : string) : string :=
  match s with
  | EmptyString => EmptyString
  | String c r => if isSpace c then trimStart r else s
  end.

Fixpoint trimEnd (s : string) : string :=
  match s with
  | EmptyString => EmptyString
  | String c r =>
      match trimEnd r with
      | EmptyString => if isSpace c then EmptyString else String c EmptyString
      | r' => String c r'
      end
  end.

Definition trim (s : string) : string := trimEnd (trimStart s).

(** Truthiness of a string value: the empty string is falsy. *)
Definition truthy (s : string) : bool :=
  match s with EmptyString => false | _ => true end.

(** [s.startsWith(p)] *)
Definition startsWith (s p : string) : bool := String.prefix p s.

(** [s.includes(p)] *)
Fixpoint includes (s p : string) : bool :=
  String.prefix p s ||
  match s with
  | EmptyString => false
  | String _ r => includes r p
  end.

(** [s.split(sep)] for a one-character separator. *)
Fixpoint split (sep : ascii) (s : string) : list string :=
  match s with
  | EmptyString => [EmptyString]
  | String c r =>
      if Ascii.eqb c sep then EmptyString :: split sep r
      else match split sep r with
           | h :: t => String c h :: t
           | [] => [String c EmptyString]
           end
  end.

(** [xs.filter(Boolean)] on an array of strings. *)
Definition filterBoolean (xs : list string) : list string := filter truthy xs.

(** [xs.join(sep)] *)
Fixpoint join (sep : string) (xs : list string) : string :=
  match xs with
  | [] => EmptyString
  | [x] => x
  | x :: r => x ++ sep ++ join sep r
  end.

(** [s.indexOf(c)] for a one-character needle; [None] stands for -1. *)
Fixpoint indexOf (c : ascii) (s : string) : option nat :=
  match s with
  | EmptyString => None
  | String d r =>
      if Ascii.eqb d c then Some 0
      else option_map S (indexOf c r)
  end.

(** [s.lastIndexOf(c)] for a one-character needle; [None] stands for -1. *)
Fixpoint lastIndexOf (c : ascii) (s : string) : option nat :=
  match s with
  | EmptyString => None
  | String d r =>
      match lastIndexOf c r with
      | Some i => Some (S i)
      | None => if Ascii.eqb d c then Some 0 else None
      end
  end.

(** [s.slice(start)] and [s.slice(0, stop)] with non-negative bounds. *)
Fixpoint sliceFrom (start : nat) (s : string) : string :=
  match start, s with
  | 0, _ => s
  | S n, String _ r => sliceFrom n r
  | S _, EmptyString => EmptyString
  end.

Fixpoint sliceTo (stop : nat) (s : string) : string :=
  match stop, s with
  | S n, String c r => String c (sliceTo n r)
  | _, _ => EmptyString
  end.

(** The property names of [Object.prototype] (ECMAScript 2015 and later,
    Annex B included).  Every object literal inherits them: for such a name
    [k] that is not an own property of [obj], [obj[k]] is the member of
    [Object.prototype], a function or, for "__proto__", [Object.prototype]
    itself.  All these members are truthy, and none of them has a property
    [type], [children], [meta], [content] or [slug], nor a method [trim]. *)
Definition objectPrototypeKeys : list string :=
  [ "constructor"; "__defineGetter__"; "__defineSetter__";
    "hasOwnProperty"; "__lookupGetter__"; "__lookupSetter__";
    "isPrototypeOf"; "propertyIsEnumerable"; "toString"; "valueOf";
    "__proto__"; "toLocaleString" ].

(** [k] names a member of [Object.prototype]. *)
Definition inherited (k : string) : bool :=
  existsb (String.eqb k) objectPrototypeKeys.

End JS.

(* ===================================================================== *)
(** ** Tokenizer ([src/lib/parser.ts]) *)
(* ===================================================================== *)

Module Parser.

(** The value of [ALIASES[rawCmd] || rawCmd]: a string, or the member of
    [Object.prototype] that the lookup finds when [rawCmd] is one of its
    property names and no alias. *)
Inductive CommandName : Type :=
| Name (s : string)
| InheritedMember (key : string).

(** [commandName] is typed [string] in the source; the value stored is
    whatever the alias lookup yields. *)
Record ParsedCommand : Type := mkParsed {
  raw : string;
  commandName : CommandName;
  args : list string;
  error : option string
}.

Definition ALIASES : list (string * string) :=
  [ ("?", "help"); ("dir", "ls"); ("goto", "cd");
    ("read", "cat"); ("tldr", "summary") ].

(** The own property [k] of the table. *)
Fixpoint lookupAlias (table : list (string * string)) (k : string)
  : option string :=
  match table with
  | [] => None
  | (k', v) :: r => if String.eqb k' k then Some v else lookupAlias r k
  end.

(** [table[rawCmd] || rawCmd] on a table of strings: the own value when it
    is not the empty string; a member of [Object.prototype], which is
    truthy, when [rawCmd] is no own key but names one; else [rawCmd]. *)
Definition resolveAlias (table : list (string * string)) (rawCmd : string)
  : CommandName :=
  match lookupAlias table rawCmd with
  | Some a => if JS.truthy a then Name a else Name rawCmd
  | None =>
      if JS.inherited rawCmd then InheritedMember rawCmd else Name rawCmd
  end.

(** The four loop variables of [parseCommand]. *)
Record Scan : Type := mkScan {
  tokens : list string;
  currentToken : string;
  insideQuote : option ascii;
  escaping : bool
}.

Definition scan0 : Scan := mkScan [] "" None false.

Definition pushChar (tok : string) (c : ascii) : string :=
  tok ++ String c EmptyString.

(** The double quote, code unit 34. *)
Definition doubleQuote : ascii := ascii_of_nat 34.

Definition isQuoteChar (c : ascii) : bool :=
  Ascii.eqb c doubleQuote || Ascii.eqb c "'".

(** One iteration of the [for] loop. *)
Definition scanStep (st : Scan) (c : ascii) : Scan :=
  if escaping st then
    mkScan (tokens st) (pushChar (currentToken st) c) (insideQuote st) false
  else if Ascii.eqb c "\" then
    mkScan (tokens st) (currentToken st) (insideQuote st) true
  else
    match insideQuote st with
    | Some q =>
        if Ascii.eqb c q
        then mkScan (tokens st) (currentToken st) None false
        else mkScan (tokens st) (pushChar (currentToken st) c) (Some q) false
    | None =>
        if isQuoteChar c then
          mkScan (tokens st) (currentToken st) (Some c) false
        else if JS.isSpace c then
          if JS.truthy (currentToken st)
          then mkScan (tokens st ++ [currentToken st]) "" None false
          else st
        else
          mkScan (tokens st) (pushChar (currentToken st) c) None false
    end.

Definition scanAll (st : Scan) (input : string) : Scan :=
  fold_left scanStep (list_ascii_of_string input) st.

Definition unclosedQuoteMessage : string := "Unclosed quote found.".

Definition parseCommand (input : string) : option ParsedCommand :=
  if negb (JS.truthy input) || negb (JS.truthy (JS.trim input)) then None
  else
    let st := scanAll scan0 input in
    match insideQuote st with
    | Some _ => Some (mkParsed input (Name "") [] (Some unclosedQuoteMessage))
    | None =>
        let toks :=
          if JS.truthy (currentToken st)
          then tokens st ++ [currentToken st] else tokens st in
        match toks with
        | [] => None
        | t0 :: rest =>
            Some (mkParsed input (resolveAlias ALIASES (JS.toLowerCase t0))
                           rest None)
        end
    end.

(** The quoting discipline on its own, as a two-mode scanner that keeps no
    tokens: outside any quote, or within a quote opened by [q]; a backslash
    protects the next character in both modes. *)
Inductive QuoteMode : Type :=
| Outside
| Within (q : ascii).

Fixpoint quoteScan (mode : QuoteMode) (esc : bool) (cs : list ascii)
  : QuoteMode :=
  match cs with
  | [] => mode
  | c :: r =>
      if esc then quoteScan mode false r
      else if Ascii.eqb c "\" then quoteScan mode true r
      else match mode with
           | Within q =>
               if Ascii.eqb c q then quoteScan Outside false r
               else quoteScan mode false r
           | Outside =>
               if isQuoteChar c then quoteScan (Within c) false r
               else quoteScan Outside false r
           end
  end.

(** The loop variable [insideQuote] read as a mode of that scanner. *)
Definition modeOf (q : option ascii) : QuoteMode :=
  match q with Some c => Within c | None => Outside end.

(** A quote remains open at the end of the input. *)
Definition quoteOpenAtEnd (input : string) : Prop :=
  exists q, quoteScan Outside false (list_ascii_of_string input) = Within q.

(** The input is empty or consists of whitespace only. *)
Definition blank (input : string) : Prop :=
  Forall (fun c => JS.isSpace c = true) (list_ascii_of_string input).

End Parser.

Coercion Parser.Name : string >-> Parser.CommandName.

(* ===================================================================== *)
(** ** Fuzzy ranking engine ([Shell.tsx], lines 46-123) *)
(* ===================================================================== *)

Module Fuzzy.

Definition AUTOCOMPLETE_COMMANDS : list string :=
  [ "help"; "cd"; "ls"; "open"; "cat"; "search";
    "tree"; "home"; "back"; "clear"; "summary"; "pwd" ].

Definition getMaxEditDistance (queryLength : nat) : nat :=
  if queryLength <=? 4 then 2
  else if queryLength <=? 8 then 3
  else 4.

(** [Math.min] of the three candidates for [nextRow[j]]. *)
Definition min3 (x y z : nat) : nat := Nat.min (Nat.min x y) z.

(** The inner [for j] loop: [diag] is [prevRow[j-1]], [above] holds
    [prevRow[j..]], [left] is [nextRow[j-1]]; the result is [nextRow[j..]]. *)
Fixpoint fillRow (aChar : ascii) (b : list ascii)
         (diag : nat) (above : list nat) (left : nat) : list nat :=
  match b, above with
  | bj :: b', up :: above' =>
      let cost := if Ascii.eqb aChar bj then 0 else 1 in
      let v := min3 (up + 1) (left + 1) (diag + cost) in
      v :: fillRow aChar b' up above' v
  | _, _ => []
  end.

(** One iteration of the outer [for i] loop: the new [prevRow]. *)
Definition nextRow (i : nat) (aChar : ascii) (b : list ascii)
           (prevRow : list nat) : list nat :=
  match prevRow with
  | [] => [i]
  | p0 :: above => i :: fillRow aChar b p0 above i
  end.

Fixpoint levRows (i : nat) (a b : list ascii) (prevRow : list nat)
  : list nat :=
  match a with
  | [] => prevRow
  | aChar :: a' => levRows (S i) a' b (nextRow i aChar b prevRow)
  end.

Definition levenshteinDistance (a b : string) : nat :=
  if String.eqb a b then 0
  else if String.length a =? 0 then String.length b
  else if String.length b =? 0 then String.length a
  else
    let bLen := String.length b in
    let prevRow := seq 0 (bLen + 1) in
    nth bLen
        (levRows 1 (list_ascii_of_string a) (list_ascii_of_string b) prevRow)
        0.

(** The object built for each candidate. *)
Record Row : Type := mkRow {
  candidate : string;
  rStartsWith : bool;
  rIncludes : bool;
  distance : nat;
  score : nat
}.

Definition groupOf (startsWith includes : bool) : nat :=
  if startsWith then 0 else if includes then 1 else 2.

Definition mkRowFor (normalizedQuery candidate : string) : Row :=
  let normalizedCandidate := JS.toLowerCase candidate in
  let startsWith := JS.startsWith normalizedCandidate normalizedQuery in
  let includes := JS.includes normalizedCandidate normalizedQuery in
  let distance := levenshteinDistance normalizedQuery normalizedCandidate in
  let group := groupOf startsWith includes in
  mkRow candidate startsWith includes distance (group * 100 + distance).

Definition eligible (maxDistance : nat) (row : Row) : bool :=
  rStartsWith row || rIncludes row || (distance row <=? maxDistance).

(** [xs.sort(cmp)]: the sort is stable, and a negative or zero result of
    [cmp a b] keeps [a] in front of [b]. *)
Section Sort.
Context {A : Type} (cmp : A -> A -> Z).

Fixpoint insertSorted (x : A) (l : list A) : list A :=
  match l with
  | [] => [x]
  | y :: r => if (cmp x y <=? 0)%Z then x :: l else y :: insertSorted x r
  end.

Definition sortBy (l : list A) : list A := fold_right insertSorted [] l.
End Sort.

Section Ranking.
(** [String.prototype.localeCompare], supplied by the host. *)
Variable localeCompare : string -> string -> Z.

(** [a.score - b.score || a.candidate.localeCompare(b.candidate)] *)
Definition compareRows (a b : Row) : Z :=
  let d := (Z.of_nat (score a) - Z.of_nat (score b))%Z in
  if (d =? 0)%Z then localeCompare (candidate a) (candidate b) else d.

Definition rankRows (normalizedQuery : string) (candidates : list string)
  : list Row :=
  let maxDistance := getMaxEditDistance (String.length normalizedQuery) in
  sortBy compareRows
    (filter (eligible maxDistance)
            (map (mkRowFor normalizedQuery) candidates)).

Definition rankCandidates (query : string) (candidates : list string)
           (limit : nat) : list string :=
  let normalizedQuery := JS.toLowerCase (JS.trim query) in
  if String.length normalizedQuery =? 0 then firstn limit candidates
  else map candidate (firstn limit (rankRows normalizedQuery candidates)).
End Ranking.

(** The ranking key of the specification: the pair (group, distance),
    compared lexicographically. *)
Definition keyOf (normalizedQuery candidate : string) : nat * nat :=
  let r := mkRowFor normalizedQuery candidate in
  (groupOf (rStartsWith r) (rIncludes r), distance r).

Definition keyLt (k1 k2 : nat * nat) : Prop :=
  fst k1 < fst k2 \/ (fst k1 = fst k2 /\ snd k1 < snd k2).

Definition byScore (a b : Row) : Prop := score a <= score b.

(** A name of 103 characters that starts with "a": "a" followed by 102
    times "b". *)
Definition longName : string :=
  String "a" (string_of_list_ascii (repeat "b"%char 102)).

(** Code-unit order, which is what [localeCompare] yields on names made of
    lower-case ASCII letters; used to run the ranking on concrete inputs. *)
Definition codeUnitCompare (a b : string) : Z :=
  match String.compare a b with
  | Lt => (-1)%Z
  | Eq => 0%Z
  | Gt => 1%Z
  end.

End Fuzzy.

(* ===================================================================== *)
(** ** Content tree, path resolver and node lookup
       ([src/lib/fs_types.ts]; [Shell.tsx], lines 394-524) *)
(* ===================================================================== *)

Module Fs.

Record MetaInfo : Type := mkMeta {
  title : string;
  tags : option (list string)
}.

(** [FSNode = DirectoryNode | FileNode]; [children] lists the own
    properties in enumeration order. *)
Inductive FSNode : Type :=
| Dir (name : string) (children : list (string * FSNode))
      (meta : option MetaInfo)
| File (name : string) (slug : string) (meta : MetaInfo)
       (content : option string).

Definition isDir (n : FSNode) : bool :=
  match n with Dir _ _ _ => true | File _ _ _ _ => false end.

Definition metaTitle (n : FSNode) : option string :=
  match n with
  | Dir _ _ m => option_map title m
  | File _ _ m _ => Some (title m)
  end.

(** The own property [p] of [children]. *)
Fixpoint lookupChild (children : list (string * FSNode)) (p : string)
  : option FSNode :=
  match children with
  | [] => None
  | (k, v) :: r => if String.eqb k p then Some v else lookupChild r p
  end.

(** What a lookup in [children] can find: a node of the tree, or the member
    of [Object.prototype] of that name, which is truthy and whose [type] is
    [undefined]. *)
Inductive Found : Type :=
| Node (n : FSNode)
| Inherited (key : string).

(** [children[p]]; [None] is [undefined]. *)
Definition childAt (children : list (string * FSNode)) (p : string)
  : option Found :=
  match lookupChild children p with
  | Some v => Some (Node v)
  | None => if JS.inherited p then Some (Inherited p) else None
  end.

(** [v.type === 'dir'] *)
Definition typeIsDir (v : Found) : bool :=
  match v with Node n => isDir n | Inherited _ => false end.

(** [v.meta?.title] *)
Definition titleOf (v : Found) : option string :=
  match v with Node n => metaTitle n | Inherited _ => None end.

Definition segments (path : string) : list string :=
  JS.filterBoolean (JS.split "/" path).

(** [stack.pop()]: removes the last element, does nothing on []. *)
Definition pop (stack : list string) : list string := removelast stack.

(** The first loop of [resolvePath]: one segment applied to the stack. *)
Definition foldSegment (stack : list string) (p : string) : list string :=
  if String.eqb p "." then stack
  else if String.eqb p ".." then pop stack
  else stack ++ [p].

Definition foldSegments (parts : list string) : list string :=
  fold_left foldSegment parts [].

(** The second loop of [resolvePath]: [false] is the early [return null]. *)
Fixpoint checkWalk (cursor : Found) (stack : list string) : bool :=
  match stack with
  | [] => true
  | p :: rest =>
      match cursor with
      | Node (Dir _ children _) =>
          match childAt children p with
          | Some next => checkWalk next rest
          | None => false
          end
      | _ => false
      end
  end.

Definition resolveParts (current target : string) : list string :=
  if JS.startsWith target "/" then segments target
  else segments current ++ segments target.

(** [target === '/' || target === '~'] *)
Definition specialTarget (target : string) : bool :=
  String.eqb target "/" || String.eqb target "~".

(** [root] is typed [DirectoryNode] in the source; the second loop tests
    [cursor.type] on it like on every other node. *)
Definition resolvePath (root : FSNode) (current target : string)
  : option string :=
  if specialTarget target then Some "/"
  else
    let stack := foldSegments (resolveParts current target) in
    if checkWalk (Node root) stack
    then Some ("/" ++ JS.join "/" stack)%string
    else None.

(** The loop of [getNodeAtPath]. *)
Fixpoint lookupWalk (cursor : Found) (parts : list string)
  : option Found :=
  match parts with
  | [] => Some cursor
  | part :: rest =>
      match cursor with
      | Node (Dir _ children _) =>
          match childAt children part with
          | Some nextNode => lookupWalk nextNode rest
          | None => None
          end
      | _ => None
      end
  end.

(** The result is typed [FSNode | null] in the source; what is returned is
    whatever the last lookup found. *)
Definition getNodeAtPath (root : FSNode) (path : string) : option Found :=
  if String.eqb path "/" || String.eqb path "" then Some (Node root)
  else lookupWalk (Node root) (segments path).

(** The tree relation the resolver and the lookup are measured against:
    [PathTo n segs m] when following [segs] from [n], each step entering a
    child of a Directory (an own property of its [children]), ends at
    [m]. *)
Inductive PathTo : FSNode -> list string -> FSNode -> Prop :=
| PathHere : forall n, PathTo n [] n
| PathStep : forall name children meta p rest child m,
    lookupChild children p = Some child ->
    PathTo child rest m ->
    PathTo (Dir name children meta) (p :: rest) m.

(** Every segment but the last names a Directory child. *)
Definition intermediatesExist (root : FSNode) (stack : list string) : Prop :=
  exists m, PathTo root (removelast stack) m /\ isDir m = true.

(** The last segment [k] of [stack] is found on [Object.prototype]: the
    segments before it lead to a Directory that has no child [k], and [k]
    names a member of [Object.prototype]. *)
Definition endsInherited (root : FSNode) (stack : list string) (k : string)
  : Prop :=
  exists pre name children meta,
    stack = pre ++ [k] /\
    PathTo root pre (Dir name children meta) /\
    lookupChild children k = None /\
    JS.inherited k = true.

(** What the segments of [stack] lead to, by lookups in [children]. *)
Definition leadsTo (root : FSNode) (stack : list string) (v : Found) : Prop :=
  match v with
  | Node m => PathTo root stack m
  | Inherited k => endsInherited root stack k
  end.

(** A segment as [split] yields it, free of the separator; and a segment
    that also survives [filter(Boolean)]. *)
Definition atom (s : string) : Prop := JS.split "/" s = [s].

Definition goodSegment (s : string) : Prop := atom s /\ JS.truthy s = true.

(** A segment of a canonical path: non-empty, free of "/", and neither "."
    nor "..". *)
Definition canonicalSegment (s : string) : Prop :=
  goodSegment s /\ s <> "." /\ s <> "..".

(** The target made of [n] segments "..": "..", "../..", "../../..", ... *)
Definition dotDots (n : nat) : string := JS.join "/" (repeat ".." n).

Inductive PathCompletionMode : Type := ModeDir | ModeFile | ModeBoth.

Inductive SuggestionKind : Type := KindCommand | KindDir | KindFile.

(** [AutocompleteSuggestion]; the display [label] is not modelled. *)
Record AutocompleteSuggestion : Type := mkSuggestion {
  kind : SuggestionKind;
  insertText : string
}.

Section Listing.
Variable localeCompare : string -> string -> Z.

Definition compareEntries (a b : string * FSNode) : Z :=
  if negb (Bool.eqb (isDir (snd a)) (isDir (snd b)))
  then (if isDir (snd a) then (-1)%Z else 1%Z)
  else localeCompare (fst a) (fst b).

Definition getSortedChildren (dir : FSNode) : list (string * FSNode) :=
  match dir with
  | Dir _ children _ => Fuzzy.sortBy compareEntries children
  | File _ _ _ _ => []
  end.

Definition modeAccepts (mode : PathCompletionMode) (n : FSNode) : bool :=
  match mode with
  | ModeDir => isDir n
  | ModeFile => negb (isDir n)
  | ModeBoth => true
  end.

Definition suggestionFor (prefixForRebuild : string)
           (children : list (string * FSNode)) (name : string)
  : list AutocompleteSuggestion :=
  match childAt children name with
  | None => []
  | Some childNode =>
      let suffix := if typeIsDir childNode then "/" else "" in
      [ mkSuggestion (if typeIsDir childNode then KindDir else KindFile)
                     (prefixForRebuild ++ name ++ suffix)%string ]
  end.

Definition buildPathFuzzySuggestions (root : FSNode) (cwd token : string)
           (mode : PathCompletionMode) : list AutocompleteSuggestion :=
  let lastSlashIndex := JS.lastIndexOf "/" token in
  let prefixForRebuild :=
    match lastSlashIndex with
    | None => "" | Some i => JS.sliceTo (i + 1) token end in
  let dirToken :=
    match lastSlashIndex with
    | None => "" | Some i => JS.sliceTo i token end in
  let baseQuery :=
    match lastSlashIndex with
    | None => token | Some i => JS.sliceFrom (i + 1) token end in
  let dirArg :=
    if String.eqb dirToken ""
    then (if JS.startsWith token "/" then "/" else ".")
    else dirToken in
  match resolvePath root cwd dirArg with
  | None => []
  | Some resolvedDirPath =>
      match getNodeAtPath root resolvedDirPath with
      | Some (Node (Dir dname children dmeta)) =>
          let dirNode := Dir dname children dmeta in
          let candidates :=
            map fst (filter (fun e => modeAccepts mode (snd e))
                            (getSortedChildren dirNode)) in
          let rankedNames :=
            if String.length (JS.trim baseQuery) =? 0
            then firstn 6 candidates
            else Fuzzy.rankCandidates localeCompare baseQuery candidates 6 in
          flat_map (suggestionFor prefixForRebuild children) rankedNames
      | _ => []
      end
  end.
End Listing.

(** The tree built by [fs_builder.ts] before any book is added. *)
Definition sampleRoot : FSNode :=
  Dir "" [ ("books", Dir "books" [] (Some (mkMeta "Book Collection" None)));
           ("about", File "about" "about" (mkMeta "About Me" None)
                          (Some "I am Uday.")) ]
      None.

(** A tree with one directory [a] under the root, holding a file. *)
Definition treeA : FSNode :=
  Dir "" [ ("a", Dir "a" [ ("note", File "note" "a/note"
                                         (mkMeta "Note" None) None) ]
                     None) ]
      None.

End Fs.

Coercion Fs.Node : Fs.FSNode >-> Fs.Found.


(* ===================================================================== *)
(** ** Session state machine ([Shell.tsx], lines 13-26 and 360-392) *)
(* ===================================================================== *)

Module Session.
Import Fs.

Inductive ItemType : Type := TCommand | TOutput | TError | TBanner.

Definition isBanner (t : ItemType) : bool :=
  match t with TBanner => true | _ => false end.

(** The texts of the onboarding detour. *)
Inductive WizardMessage : Type :=
| AskStart | PleaseAnswer | TakeYourTime
| AskExperience | Splendid | StartSimple.

(** What a log entry shows.  [CError] is [buildErrorContent]: a message and
    the commands of at most four fixes. *)
Inductive Content : Type :=
| CText (text : string)
| CBanner
| CError (message : string) (fixes : list string)
| CWizard (m : WizardMessage)
| CHelp
| CSummary
| CListing (entries : list (string * bool))
| CTree (node : Found) (displayName : string) (maxDepth : Z)
| CSearch (term : string) (results : list (string * FSNode)).

Record HistoryItem : Type := mkItem {
  itemType : ItemType;
  content : Content;
  path : option string
}.

Definition defaultBanner : HistoryItem := mkItem TBanner CBanner None.

Record ShellState : Type := mkState {
  history : list HistoryItem;
  commandHistory : list string;
  cwds : list string;
  currentCwd : string
}.

Inductive Action : Type :=
| ADD_HISTORY (item : HistoryItem)
| CLEAR_HISTORY
| ADD_COMMAND (cmd : string)
| SET_CWD (path : string)
| GO_BACK
| REPLACE_STATE (newState : ShellState).

Record ShellProps : Type := mkProps {
  fs : option FSNode;
  initialCwd : option string;
  initialHistory : option (list HistoryItem)
}.

(** [value || '/'] for an optional string. *)
Definition orRoot (value : option string) : string :=
  match value with
  | Some v => if JS.truthy v then v else "/"
  | None => "/"
  end.

Definition getInitialState (props : ShellProps) : ShellState :=
  mkState
    (match initialHistory props with Some h => h | None => [defaultBanner] end)
    []
    [orRoot (initialCwd props)]
    (orRoot (initialCwd props)).

(** [CLEAR_HISTORY]'s new log. *)
Definition clearedHistory (h : list HistoryItem) : list HistoryItem :=
  let banners := filter (fun item => isBanner (itemType item)) h in
  if 0 <? length banners then banners else [defaultBanner].

Definition shellReducer (state : ShellState) (action : Action) : ShellState :=
  match action with
  | ADD_HISTORY item =>
      mkState (history state ++ [item]) (commandHistory state)
              (cwds state) (currentCwd state)
  | CLEAR_HISTORY =>
      mkState (clearedHistory (history state)) (commandHistory state)
              (cwds state) (currentCwd state)
  | ADD_COMMAND cmd =>
      mkState (history state) (commandHistory state ++ [cmd])
              (cwds state) (currentCwd state)
  | SET_CWD path =>
      mkState (history state) (commandHistory state)
              (cwds state ++ [path]) path
  | GO_BACK =>
      if length (cwds state) <=? 1 then state
      else
        let newCwds := removelast (cwds state) in
        (* [newCwds] has at least one element here, so the default of
           [last] is never returned *)
        mkState (history state) (commandHistory state)
                newCwds (last newCwds "")
  | REPLACE_STATE newState => newState
  end.

(** The invariant of the working-directory stack. *)
Definition stackInvariant (s : ShellState) : Prop :=
  cwds s <> [] /\ last (cwds s) "" = currentCwd s.

(** The transitions other than the wholesale [REPLACE_STATE]. *)
Definition isTransition (a : Action) : Prop :=
  match a with REPLACE_STATE _ => False | _ => True end.

Inductive Reachable : ShellState -> Prop :=
| ReachInit : forall props, Reachable (getInitialState props)
| ReachStep : forall s a,
    Reachable s -> isTransition a -> Reachable (shellReducer s a).

End Session.

(* ===================================================================== *)
(** ** Command dispatcher ([Shell.tsx], [execute], lines 771-1353) *)
(* ===================================================================== *)

Module Shell.
Import Fs Session.

Inductive WizardStep : Type := StepNone | StepStart | StepExperience.

Definition isStepNone (w : WizardStep) : bool :=
  match w with StepNone => true | _ => false end.

(** The component: the reducer state, the [useState] cells and the refs
    that [execute] reads or writes. *)
Record Component : Type := mkComponent {
  state : ShellState;
  historyPointer : option nat;
  hasUsedOpen : bool;
  helpWizardStep : WizardStep;
  helpWizardSeen : bool;
  lastOpenedFilePath : option string
}.

(** The imperative operations [execute] performs, in program order.
    [PushUrl] and [Highlight] are the notifications sent to the address
    bar and to the sidebar. *)
Inductive Op : Type :=
| Dispatch (a : Action)
| SetHistoryPointer (p : option nat)
| SetHasUsedOpen (b : bool)
| SetHelpWizardStep (w : WizardStep)
| MarkHelpWizardSeen
| SetLastOpened (p : string)
| PushUrl (url : string)
| Highlight (directoryPath : string) (filePath : option string).

Definition applyOp (c : Component) (op : Op) : Component :=
  match op with
  | Dispatch a =>
      mkComponent (shellReducer (state c) a) (historyPointer c)
                  (hasUsedOpen c) (helpWizardStep c) (helpWizardSeen c)
                  (lastOpenedFilePath c)
  | SetHistoryPointer p =>
      mkComponent (state c) p (hasUsedOpen c) (helpWizardStep c)
                  (helpWizardSeen c) (lastOpenedFilePath c)
  | SetHasUsedOpen b =>
      mkComponent (state c) (historyPointer c) b (helpWizardStep c)
                  (helpWizardSeen c) (lastOpenedFilePath c)
  | SetHelpWizardStep w =>
      mkComponent (state c) (historyPointer c) (hasUsedOpen c) w
                  (helpWizardSeen c) (lastOpenedFilePath c)
  | MarkHelpWizardSeen =>
      mkComponent (state c) (historyPointer c) (hasUsedOpen c)
                  (helpWizardStep c) true (lastOpenedFilePath c)
  | SetLastOpened p =>
      mkComponent (state c) (historyPointer c) (hasUsedOpen c)
                  (helpWizardStep c) (helpWizardSeen c) (Some p)
  | PushUrl _ => c
  | Highlight _ _ => c
  end.

Definition addError (message : string) (fixes : list string) : Op :=
  Dispatch (ADD_HISTORY (mkItem TError (CError message (firstn 4 fixes)) None)).

Definition addOutput (c : Content) : Op :=
  Dispatch (ADD_HISTORY (mkItem TOutput c None)).

(** [path.replace(/\/+$/, '')] *)
Fixpoint stripTrailingSlashes (s : string) : string :=
  match s with
  | EmptyString => EmptyString
  | String c r =>
      match stripTrailingSlashes r with
      | EmptyString => if Ascii.eqb c "/" then EmptyString
                       else String c EmptyString
      | r' => String c r'
      end
  end.

Definition pushUrl (path : string) : Op :=
  PushUrl (if String.eqb path "/" then "/" else stripTrailingSlashes path).

Definition getParentDirPath (absolutePath : string) : string :=
  if String.eqb absolutePath "/" then "/"
  else
    match removelast (segments absolutePath) with
    | [] => "/"
    | parts => ("/" ++ JS.join "/" parts)%string
    end.

(** [s || fallback] for an optional string. *)
Definition orElse (value : option string) (fallback : string) : string :=
  match value with
  | Some v => if JS.truthy v then v else fallback
  | None => fallback
  end.

(** An optional string that is present and non-empty. *)
Definition present (value : option string) : option string :=
  match value with
  | Some v => if JS.truthy v then Some v else None
  | None => None
  end.

(** The [walk] of the [search] command. *)
Fixpoint searchWalk (term : string) (node : FSNode) (path : string)
  : list (string * FSNode) :=
  match node with
  | File name _ meta _ =>
      if JS.includes (JS.toLowerCase name) term
         || JS.includes (JS.toLowerCase (title meta)) term
         || match tags meta with
            | Some ts => existsb (fun t => JS.includes t term) ts
            | None => false
            end
      then [(path, node)] else []
  | Dir name children _ =>
      (if JS.includes (JS.toLowerCase name) term then [(path, node)] else [])
      ++ (fix walkChildren (cs : list (string * FSNode)) :=
            match cs with
            | [] => []
            | (childName, child) :: r =>
                searchWalk term child
                  (if String.eqb path "/" then ("/" ++ childName)%string
                   else (path ++ "/" ++ childName)%string)
                ++ walkChildren r
            end) children
  end.

Definition yesAnswer (answer : string) : bool :=
  String.eqb answer "y" || String.eqb answer "yes".

Definition noAnswer (answer : string) : bool :=
  String.eqb answer "n" || String.eqb answer "no".

(** The onboarding detour: the branch taken when [helpWizardStep] is not
    ['none']. *)
Definition wizardOps (step : WizardStep) (raw : string) : list Op :=
  let answer := JS.toLowerCase (JS.trim raw) in
  let isYes := yesAnswer answer in
  let isNo := noAnswer answer in
  if negb isYes && negb isNo then [addOutput (CWizard PleaseAnswer)]
  else
    match step with
    | StepStart =>
        if isNo
        then [addOutput (CWizard TakeYourTime); SetHelpWizardStep StepNone]
        else [MarkHelpWizardSeen; addOutput (CWizard AskExperience);
              SetHelpWizardStep StepExperience]
    | StepExperience =>
        if isYes
        then [addOutput (CWizard Splendid); SetHelpWizardStep StepNone]
        else [addOutput (CWizard StartSimple); SetHelpWizardStep StepNone]
    | StepNone => []
    end.

Section Execute.
(** Supplied by the host: [String.prototype.localeCompare];
    [Math.floor(Number(v))] when [Number(v)] is finite; and the decimal
    rendering of a number in a template string. *)
Variable localeCompare : string -> string -> Z.
Variable finiteFloor : string -> option Z.
Variable numberToString : Z -> string.

Definition parseDepthArg (value : option string) : option Z :=
  match present value with
  | None => None
  | Some v => option_map (Z.max 0) (finiteFloor v)
  end.

(** The three results of the argument analysis of [runTree]. *)
Record TreeArgs : Type := mkTreeArgs {
  depthWasExplicit : bool;
  maxDepth : Z;
  targetPathArg : option string
}.

(** [None] is the usage error of the [-L] branch. *)
Definition parseTreeArgs (args : list string) : option TreeArgs :=
  match args with
  | [] => Some (mkTreeArgs false 4 None)
  | a0 :: rest =>
      if String.eqb a0 "-L" || String.eqb a0 "--depth" then
        match parseDepthArg (nth_error args 1) with
        | None => None
        | Some d => Some (mkTreeArgs true d (nth_error args 2))
        end
      else
        match rest with
        | [] =>
            match parseDepthArg (Some a0) with
            | Some d => Some (mkTreeArgs true d None)
            | None => Some (mkTreeArgs false 4 (Some a0))
            end
        | a1 :: _ =>
            match parseDepthArg (Some a0) with
            | Some d => Some (mkTreeArgs true d (Some a1))
            | None =>
                match parseDepthArg (Some a1) with
                | Some d => Some (mkTreeArgs true d (Some a0))
                | None => Some (mkTreeArgs false 4 (Some a0))
                end
            end
        end
  end.

(** [fixes.length > 0 ? fixes : fallback] over the fuzzy path fixes. *)
Definition pathFixes (root : FSNode) (cwd target : string)
           (mode : PathCompletionMode) (commandPrefix : string)
           (fallback : list string) : list string :=
  let fixes :=
    map (fun s => (commandPrefix ++ insertText s)%string)
        (buildPathFuzzySuggestions localeCompare root cwd target mode) in
  if 0 <? length fixes then fixes else fallback.

Definition runTree (root : FSNode) (st : ShellState) (args : list string)
  : list Op :=
  match parseTreeArgs args with
  | None => [addError "Usage: tree [-L depth] [path]" ["tree"; "tree -L 4"]]
  | Some ta =>
      let target := present (targetPathArg ta) in
      let resolvedPath :=
        match target with
        | Some t => resolvePath root (currentCwd st) t
        | None => Some (currentCwd st)
        end in
      let basePrefix :=
        if depthWasExplicit ta
        then ("tree -L " ++ numberToString (maxDepth ta) ++ " ")%string
        else "tree " in
      let fixes :=
        match target with
        | Some t => pathFixes root (currentCwd st) t ModeBoth basePrefix
                              ["tree"; "ls"]
        | None => ["tree"; "ls"]
        end in
      let shown (fallback : string) :=
        match targetPathArg ta with Some t => t | None => fallback end in
      match present resolvedPath with
      | None =>
          [addError ("tree: no such file or directory: "
                     ++ shown "undefined")%string fixes]
      | Some resolved =>
          match getNodeAtPath root resolved with
          | None =>
              [addError ("tree: no such file or directory: "
                         ++ shown resolved)%string fixes]
          | Some node =>
              let displayName :=
                if String.eqb resolved "/" then "/"
                else last (segments resolved) resolved in
              [addOutput (CTree node displayName (maxDepth ta))]
          end
      end
  end.

Definition runOpen (root : FSNode) (c : Component) (args : list string)
  : list Op :=
  let st := state c in
  match present (nth_error args 0) with
  | None => [addError "Usage: open <path>" ["open "; "ls"; "tree"]]
  | Some target =>
      let notFound :=
        [addError ("open: " ++ target ++ ": No such file or directory")%string
                  (pathFixes root (currentCwd st) target ModeBoth "open "
                             ["ls"; "tree"])] in
      match resolvePath root (currentCwd st) target with
      | None => notFound
      | Some path =>
          match getNodeAtPath root path with
          | None => notFound
          | Some (Node (Dir _ _ _)) =>
              [Dispatch (SET_CWD path); pushUrl path;
               Highlight path (lastOpenedFilePath c)]
          | Some (Node (File _ slug _ content)) =>
              [addOutput (CText (orElse content "(Empty file)"));
               pushUrl ("/" ++ slug)%string;
               SetLastOpened path;
               Highlight (getParentDirPath path) (Some path)]
          | Some (Inherited _) =>
              (* [file.content] and [file.slug] are [undefined] *)
              [addOutput (CText "(Empty file)");
               pushUrl "/undefined";
               SetLastOpened path;
               Highlight (getParentDirPath path) (Some path)]
          end
      end
  end.

Definition runCd (root : FSNode) (st : ShellState) (args : list string)
  : list Op :=
  let target := orElse (nth_error args 0) "/" in
  let notFound :=
    [addError ("cd: no such file or directory: " ++ target)%string
              (pathFixes root (currentCwd st) target ModeDir "cd "
                         ["ls"; "pwd"])] in
  match resolvePath root (currentCwd st) target with
  | None => notFound
  | Some newPath =>
      match getNodeAtPath root newPath with
      | None => notFound
      | Some (Node (Dir _ _ _)) =>
          [Dispatch (SET_CWD newPath); pushUrl newPath]
      | Some _ =>
          [addError ("cd: not a directory: " ++ target)%string
                    [("open " ++ target)%string; ("cat " ++ target)%string]]
      end
  end.

Definition runLs (root : FSNode) (st : ShellState) : list Op :=
  match getNodeAtPath root (currentCwd st) with
  | Some (Node (Dir n ch m)) =>
      [addOutput (CListing (map (fun e => (fst e, isDir (snd e)))
                                (getSortedChildren localeCompare
                                                   (Dir n ch m))))]
  | _ => [addError ("ls: not a directory: " ++ currentCwd st)%string []]
  end.

Definition runBack (st : ShellState) : list Op :=
  if length (cwds st) <=? 1
  then [addError "Already at root of session." []]
  else
    let nextPath := orElse (nth_error (cwds st) (length (cwds st) - 2)) "/" in
    [Dispatch GO_BACK; pushUrl nextPath].

Definition runCat (root : FSNode) (st : ShellState) (args : list string)
  : list Op :=
  match present (nth_error args 0) with
  | None => [addError "Usage: cat <filename>" ["cat "; "ls"; "open "]]
  | Some target =>
      let notFound :=
        [addError ("cat: " ++ target ++ ": No such file")%string
                  (pathFixes root (currentCwd st) target ModeFile "cat "
                             ["ls"; "open "])] in
      match resolvePath root (currentCwd st) target with
      | None => notFound
      | Some path =>
          match getNodeAtPath root path with
          | None => notFound
          | Some (Node (Dir _ _ _)) =>
              [addError ("cat: " ++ target ++ ": Is a directory")%string
                        [("ls " ++ target)%string;
                         ("open " ++ target)%string]]
          | Some (Node (File _ _ _ content)) =>
              [addOutput (CText (orElse content "(Empty file)"))]
          | Some (Inherited _) =>
              (* [file.content] is [undefined] *)
              [addOutput (CText "(Empty file)")]
          end
      end
  end.

Definition runSearch (root : FSNode) (args : list string) : list Op :=
  let term := JS.toLowerCase (JS.join " " args) in
  if negb (JS.truthy term)
  then [addError "Usage: search <term>" ["search "; "summary"; "help"]]
  else [addOutput (CSearch term (searchWalk term root "/"))].

Definition runHelp (c : Component) : list Op :=
  if negb (helpWizardSeen c) && isStepNone (helpWizardStep c)
  then [SetHelpWizardStep StepStart; addOutput (CWizard AskStart)]
  else [addOutput CHelp].

Definition runUnknown (raw commandName : string) : list Op :=
  let rawTrimStart := JS.trimStart raw in
  let rest :=
    match JS.indexOf " " rawTrimStart with
    | None => ""
    | Some firstSpace => JS.sliceFrom firstSpace rawTrimStart
    end in
  let candidates :=
    Fuzzy.rankCandidates localeCompare commandName
                         Fuzzy.AUTOCOMPLETE_COMMANDS 4 in
  let fixes :=
    if 0 <? length candidates
    then map (fun candidate => (candidate ++ rest)%string) candidates
    else ["help"] in
  [addError ("Command '" ++ commandName ++ "' not found.")%string fixes].

(** The [switch (commandName)] on a command name that is a string. *)
Definition dispatchNamed (root : FSNode) (c : Component)
           (raw commandName : string) (args : list string) : list Op :=
  let st := state c in
  if String.eqb commandName "help" then runHelp c
  else if String.eqb commandName "clear" then [Dispatch CLEAR_HISTORY]
  else if String.eqb commandName "home"
       then [Dispatch (SET_CWD "/"); pushUrl "/"]
  else if String.eqb commandName "cd" then runCd root st args
  else if String.eqb commandName "ls" then runLs root st
  else if String.eqb commandName "pwd"
       then [addOutput (CText (currentCwd st))]
  else if String.eqb commandName "back" then runBack st
  else if String.eqb commandName "tree" then runTree root st args
  else if String.eqb commandName "open"
       then SetHasUsedOpen true :: runOpen root c args
  else if String.eqb commandName "cat" then runCat root st args
  else if String.eqb commandName "search" then runSearch root args
  else if String.eqb commandName "summary" then [addOutput CSummary]
  else runUnknown raw commandName.

(** The default case starts with [rankCandidates(commandName, ...)], whose
    first statement is [query.trim()]: a command name that is not a string
    has no [trim], so the call raises a TypeError. *)
Definition unknownRaises (commandName : Parser.CommandName) : bool :=
  match commandName with
  | Parser.Name _ => false
  | Parser.InheritedMember _ => true
  end.

(** The [switch (commandName)]: the operations performed until it is left
    or until the default case raises.  A command name that is not a string
    equals none of the [case] labels and reaches the default case, which
    raises before it appends anything. *)
Definition dispatchCommand (root : FSNode) (c : Component) (raw : string)
           (commandName : Parser.CommandName) (args : list string)
  : list Op :=
  match commandName with
  | Parser.Name name => dispatchNamed root c raw name args
  | Parser.InheritedMember _ => []
  end.

(** What follows the command echo in [execute]. *)
Definition bodyOps (props : ShellProps) (c : Component) (raw : string)
  : list Op :=
  match Parser.parseCommand raw with
  | None => []
  | Some parsed =>
      match Parser.error parsed with
      | Some message =>
          [Dispatch (ADD_HISTORY (mkItem TError (CText message) None))]
      | None =>
          if negb (isStepNone (helpWizardStep c))
          then wizardOps (helpWizardStep c) raw
          else
            match fs props with
            | None => [addError "FileSystem not loaded." []]
            | Some root =>
                dispatchCommand root c raw (Parser.commandName parsed)
                                (Parser.args parsed)
            end
      end
  end.

(** [execute(raw)] ends by raising a TypeError instead of returning: only
    the default case of the [switch] can do so. *)
Definition executeRaises (props : ShellProps) (c : Component) (raw : string)
  : bool :=
  if negb (JS.truthy (JS.trim raw)) then false
  else
    match Parser.parseCommand raw with
    | None => false
    | Some parsed =>
        match Parser.error parsed with
        | Some _ => false
        | None =>
            if negb (isStepNone (helpWizardStep c)) then false
            else
              match fs props with
              | None => false
              | Some _ => unknownRaises (Parser.commandName parsed)
              end
        end
    end.

Definition commandEcho (c : Component) (raw : string) : HistoryItem :=
  mkItem TCommand (CText raw) (Some (currentCwd (state c))).

(** The operations of [execute(raw)], read off the component as it was
    rendered, up to its return or to the TypeError of [executeRaises]. *)
Definition executeOps (props : ShellProps) (c : Component) (raw : string)
  : list Op :=
  if negb (JS.truthy (JS.trim raw)) then []
  else
    Dispatch (ADD_HISTORY (commandEcho c raw))
    :: Dispatch (ADD_COMMAND raw)
    :: SetHistoryPointer None
    :: bodyOps props c raw.

(** The component after [execute(raw)] and the re-render.  The updates
    queued before a TypeError are applied like those of a call that
    returns. *)
Definition execute (props : ShellProps) (c : Component) (raw : string)
  : Component :=
  fold_left applyOp (executeOps props c raw) c.

Definition executeAll (props : ShellProps) (c : Component)
           (lines : list string) : Component :=
  fold_left (execute props) lines c.
End Execute.

(** The component as first rendered. *)
Definition initialComponent (props : ShellProps) : Component :=
  mkComponent (getInitialState props) None false StepNone false None.

(** The entries an operation list appends to the display log. *)
Definition appendedItems (ops : list Op) : list HistoryItem :=
  flat_map (fun op => match op with
                      | Dispatch (ADD_HISTORY item) => [item]
                      | _ => []
                      end) ops.





(** Operation lists that move the detour, if at all, only back to idle. *)
Definition onlyToIdle (ops : list Op) : bool :=
  forallb (fun op => match op with
                     | SetHelpWizardStep StepNone => true
                     | SetHelpWizardStep _ => false
                     | _ => true
                     end) ops.

(** What [back] reports at the floor of the stack. *)
Definition atFloorMessage : Content := CError "Already at root of session." [].

(** The banner-tagged entries of a log, in order. *)
Definition bannersOf (h : list HistoryItem) : list HistoryItem :=
  filter (fun item => isBanner (itemType item)) h.

(** A host restricted to decimal integer literals, to run [execute] on
    concrete inputs: [Number] reads an optionally signed digit string, and
    a number is rendered in decimal. *)
Definition decimalFloor (v : string) : option Z :=
  option_map Z.of_int (NilZero.int_of_string v).

Definition decimalToString (z : Z) : string :=
  NilZero.string_of_int (Z.to_int z).

Definition run (props : ShellProps) (c : Component) (lines : list string)
  : Component :=
  executeAll Fuzzy.codeUnitCompare decimalFloor decimalToString
             props c lines.

Definition sampleProps : ShellProps := mkProps (Some sampleRoot) None None.

End Shell.

(* ===================================================================== *)
(** ** The edit distance as a recurrence *)
(* ===================================================================== *)

Module Recurrence.

(** [a[i] === b[j]] as a substitution cost. *)
Definition substCost (x y : ascii) : nat := if Ascii.eqb x y then 0 else 1.

(** The textbook recurrence of the edit distance between the prefix of
    length [i] of [a] and the prefix of length [j] of [b]:
    [lev(0, j) = j], [lev(i, 0) = i], and otherwise the least of a deletion,
    an insertion and a substitution. *)
Fixpoint levAt (a b : list ascii) (i : nat) : nat -> nat :=
  match i with
  | 0 => fun j => j
  | S i' =>
      fix inner (j : nat) : nat :=
        match j with
        | 0 => S i'
        | S j' =>
            Fuzzy.min3 (levAt a b i' (S j') + 1)
                       (inner j' + 1)
                       (levAt a b i' j'
                        + substCost (nth i' a zero) (nth j' b zero))
        end
  end.

Definition editDistance (a b : string) : nat :=
  levAt (list_ascii_of_string a) (list_ascii_of_string b)
        (String.length a) (String.length b).

(** Row [i] of the dynamic-programming table. *)
Definition tableRow (a b : list ascii) (i : nat) : list nat :=
  map (levAt a b i) (seq 0 (length b + 1)).

End Recurrence.

(* ===================================================================== *)
(** ** Order and eligibility of the ranking *)
(* ===================================================================== *)

Module RankingSpec.
Import Fuzzy.

(** The eligibility filter of [rankCandidates], as a test on a name. *)
Definition eligibleName (normalizedQuery candidate : string) : bool :=
  eligible (getMaxEditDistance (String.length normalizedQuery))
           (mkRowFor normalizedQuery candidate).

(** A comparison that is total and transitive, as [localeCompare] is for a
    fixed locale. *)
Definition consistent (cmp : string -> string -> Z) : Prop :=
  (forall a b, (cmp a b <= 0)%Z \/ (cmp b a <= 0)%Z) /\
  (forall a b c, (cmp a b <= 0)%Z -> (cmp b c <= 0)%Z -> (cmp a c <= 0)%Z).

(** [a] may stand before [b]: smaller score, or equal score and names in
    order. *)
Definition inOrder (cmp : string -> string -> Z) (a b : Row) : Prop :=
  score a < score b \/
  (score a = score b /\ (cmp (candidate a) (candidate b) <= 0)%Z).

End RankingSpec.

(* ===================================================================== *)
(** ** Words and quoted text for the tokenizer *)
(* ===================================================================== *)

Module ParserSpec.
Import Parser.

(** [ALIASES[rawCmd] || rawCmd] *)
Definition canonicalName (rawCmd : string) : CommandName :=
  resolveAlias ALIASES rawCmd.

(** A character with no special role for the tokenizer: neither
    whitespace, nor a quote, nor the backslash. *)
Definition plainChar (c : ascii) : bool :=
  negb (JS.isSpace c) && negb (isQuoteChar c) && negb (Ascii.eqb c "\").

(** A non-empty word of plain characters. *)
Definition plainWord (w : string) : bool :=
  JS.truthy w && forallb plainChar (list_ascii_of_string w).

(** The text between two quotes [q]: it may hold anything but [q] itself
    and the backslash. *)
Definition quotable (q : ascii) (s : string) : bool :=
  forallb (fun c => negb (Ascii.eqb c q) && negb (Ascii.eqb c "\"))
          (list_ascii_of_string s).

(** [q + s + q] *)
Definition quoted (q : ascii) (s : string) : string :=
  String q (s ++ String q EmptyString).

End ParserSpec.

(* ===================================================================== *)
(** ** Path completion ([Shell.tsx], lines 441-478) *)
(* ===================================================================== *)

Module PathCompletion.
Import Fs.

(** The three parts of a path token, as [buildPathFuzzySuggestions] and
    [buildPathAutocompleteSuggestions] compute them from the last "/". *)
Definition tokenPrefix (token : string) : string :=
  match JS.lastIndexOf "/" token with
  | None => "" | Some i => JS.sliceTo (i + 1) token end.

Definition tokenBase (token : string) : string :=
  match JS.lastIndexOf "/" token with
  | None => token | Some i => JS.sliceFrom (i + 1) token end.

Definition tokenDir (token : string) : string :=
  let dirToken :=
    match JS.lastIndexOf "/" token with
    | None => "" | Some i => JS.sliceTo i token end in
  if String.eqb dirToken ""
  then (if JS.startsWith token "/" then "/" else ".")
  else dirToken.

(** The suggestion built for a child. *)
Definition suggestionOf (prefixForRebuild name : string) (child : FSNode)
  : AutocompleteSuggestion :=
  mkSuggestion (if isDir child then KindDir else KindFile)
               (prefixForRebuild ++ name
                ++ (if isDir child then "/" else ""))%string.

(** In a list of entries, no file stands before a directory. *)
Definition dirsFirst (a b : string * FSNode) : Prop :=
  isDir (snd b) = true -> isDir (snd a) = true.

Section Autocomplete.
Variable localeCompare : string -> string -> Z.

(** The loop body of [buildPathAutocompleteSuggestions]. *)
Definition completionFor (prefixForRebuild basePrefixLower : string)
           (mode : PathCompletionMode) (entry : string * FSNode)
  : list AutocompleteSuggestion :=
  let (childName, childNode) := entry in
  if JS.truthy basePrefixLower
     && negb (JS.startsWith (JS.toLowerCase childName) basePrefixLower)
  then []
  else
    match mode, isDir childNode with
    | ModeDir, false => []
    | ModeFile, true => []
    | _, _ => [suggestionOf prefixForRebuild childName childNode]
    end.

Definition buildPathAutocompleteSuggestions (root : FSNode)
           (cwd token : string) (mode : PathCompletionMode)
  : list AutocompleteSuggestion :=
  let lastSlashIndex := JS.lastIndexOf "/" token in
  let prefixForRebuild :=
    match lastSlashIndex with
    | None => "" | Some i => JS.sliceTo (i + 1) token end in
  let dirToken :=
    match lastSlashIndex with
    | None => "" | Some i => JS.sliceTo i token end in
  let basePrefix :=
    match lastSlashIndex with
    | None => token | Some i => JS.sliceFrom (i + 1) token end in
  let basePrefixLower := JS.toLowerCase basePrefix in
  let dirArg :=
    if String.eqb dirToken ""
    then (if JS.startsWith token "/" then "/" else ".")
    else dirToken in
  match resolvePath root cwd dirArg with
  | None => []
  | Some resolvedDirPath =>
      match getNodeAtPath root resolvedDirPath with
      | Some (Node (Dir dname children dmeta)) =>
          flat_map (completionFor prefixForRebuild basePrefixLower mode)
                   (getSortedChildren localeCompare
                                      (Dir dname children dmeta))
      | _ => []
      end
  end.
End Autocomplete.

End PathCompletion.

(* ===================================================================== *)
(** ** Order of suggestions *)
(* ===================================================================== *)

Module CompletionOrder.
Import Fs.

(** In a list of suggestions, no file stands before a directory. *)
Definition kindOrder (a b : AutocompleteSuggestion) : Prop :=
  kind b = KindDir -> kind a = KindDir.

End CompletionOrder.

(* ===================================================================== *)
(** ** What a command may do *)
(* ===================================================================== *)

Module Effects.
Import Fs Session Shell.

(** [path] leads to a directory of the tree. *)
Definition dirAt (root : FSNode) (path : string) : Prop :=
  exists name children meta,
    getNodeAtPath root path = Some (Node (Dir name children meta)).

(** The operations that a command may perform after its echo. *)
Inductive Allowed (root : FSNode) : Op -> Prop :=
| AllowLog : forall item,
    itemType item = TOutput \/ itemType item = TError ->
    Allowed root (Dispatch (ADD_HISTORY item))
| AllowClear : Allowed root (Dispatch CLEAR_HISTORY)
| AllowCd : forall p,
    p = "/" \/ dirAt root p -> Allowed root (Dispatch (SET_CWD p))
| AllowBack : Allowed root (Dispatch GO_BACK)
| AllowUsedOpen : forall b, Allowed root (SetHasUsedOpen b)
| AllowStep : forall w, Allowed root (SetHelpWizardStep w)
| AllowSeen : Allowed root MarkHelpWizardSeen
| AllowLast : forall p, Allowed root (SetLastOpened p)
| AllowUrl : forall u, Allowed root (PushUrl u)
| AllowHighlight : forall d f, Allowed root (Highlight d f).

(** The line is not blank: [raw.trim()] is not empty. *)
Definition submitted (raw : string) : bool := JS.truthy (JS.trim raw).

(** Every working directory on the stack is the root path or leads to a
    directory, and the stack invariant holds. *)
Definition validStack (root : FSNode) (s : ShellState) : Prop :=
  stackInvariant s /\
  Forall (fun p => p = "/" \/ dirAt root p) (cwds s).

End Effects.

(* ===================================================================== *)
(** ** Tree renderer ([Shell.tsx], lines 637-660) *)
(* ===================================================================== *)

Module Tree.
Import Fs.

Section Renderer.
(** Supplied by the host: [localeCompare]. The box-drawing pieces of the
    source lie outside the code units 0..255 of the embedding and are
    taken as they are: the connector of a last child ([elbow]), of any
    other child ([tee]), the continuation under a child that is not the
    last ([pipe]), and the dash that introduces a title ([dash]). *)
Variable localeCompare : string -> string -> Z.
Variables elbow tee pipe dash : string.

(** The line of one node; [current] is what [getNodeAtPath] returned, or a
    child of a directory. *)
Definition lineOf (current : Found) (name prefix : string)
           (isLast : bool) (depth : nat) : string :=
  let connector :=
    if depth =? 0 then "" else if isLast then elbow else tee in
  let label :=
    if typeIsDir current
    then (if String.eqb name "/" then "/" else (name ++ "/")%string)
    else name in
  let title :=
    match titleOf current with
    | Some metaTitle =>
        if JS.truthy metaTitle && negb (String.eqb metaTitle name)
        then (dash ++ metaTitle)%string else ""
    | None => ""
    end in
  (prefix ++ connector ++ label ++ title)%string.

(** The [for] loop over the sorted entries, [walkChild] being the
    recursive call; [total] is [entries.length] and [i] the index of the
    first entry of [rest]. *)
Fixpoint walkEntries
         (walkChild : FSNode -> string -> bool -> list string)
         (total i : nat) (rest : list (string * FSNode)) : list string :=
  match rest with
  | [] => []
  | (childName, childNode) :: rest' =>
      walkChild childNode childName (i =? total - 1)
      ++ walkEntries walkChild total (S i) rest'
  end.

(** [walk] of [buildTreeText]; the lines it pushes, in order. The
    recursion follows [remaining], the number of levels left below
    [depth]: [depth + remaining = maxDepth] while [depth < maxDepth]. *)
Fixpoint walk (maxDepth remaining : nat) (current : Found)
         (name prefix : string) (isLast : bool) (depth : nat)
  : list string :=
  lineOf current name prefix isLast depth
  :: (if negb (typeIsDir current) then []
      else if maxDepth <=? depth then []
      else
        match remaining with
        | 0 => []
        | S remaining' =>
            let childPrefix :=
              if depth =? 0 then ""
              else (prefix ++ (if isLast then "    " else pipe))%string in
            let entries :=
              match current with
              | Node dir => getSortedChildren localeCompare dir
              | Inherited _ => []
              end in
            walkEntries
              (fun childNode childName last =>
                 walk maxDepth remaining' (Node childNode) childName
                      childPrefix last (depth + 1))
              (length entries) 0 entries
        end).

Definition buildTreeLines (node : Found) (displayName : string)
           (maxDepth : nat) : list string :=
  walk maxDepth maxDepth node displayName "" true 0.

(** [lines.join('\n')] *)
Definition buildTreeText (node : Found) (displayName : string)
           (maxDepth : nat) : string :=
  JS.join (String (ascii_of_nat 10) EmptyString)
          (buildTreeLines node displayName maxDepth).
End Renderer.

(** The number of nodes of a subtree that lie at most [levels] levels
    below its root. *)
Fixpoint nodesWithin (levels : nat) (n : FSNode) : nat :=
  match n with
  | File _ _ _ _ => 1
  | Dir _ children _ =>
      match levels with
      | 0 => 1
      | S levels' =>
          S ((fix sum (cs : list (string * FSNode)) : nat :=
                match cs with
                | [] => 0
                | (_, child) :: r => nodesWithin levels' child + sum r
                end) children)
      end
  end.

Definition sumWithin (levels : nat) (cs : list (string * FSNode)) : nat :=
  list_sum (map (fun e => nodesWithin levels (snd e)) cs).

End Tree.

(* ===================================================================== *)
(** ** Prompt: completion and history keys ([Shell.tsx], lines 61-67,
       724-769 and 1362-1388) *)
(* ===================================================================== *)

Module Prompt.
Import Fs Session Shell PathCompletion.

(** [/\s/.test(s)] *)
Definition hasSpace (s : string) : bool :=
  existsb JS.isSpace (list_ascii_of_string s).

(** The capture of the trailing-token pattern of [autocomplete]: the
    longest suffix free of whitespace. *)
Fixpoint lastToken (input : string) : string :=
  match input with
  | EmptyString => EmptyString
  | String c r => if JS.isSpace c || hasSpace r then lastToken r else input
  end.

(** [s.split(/\s+/)[0]] for a string that does not start with whitespace:
    its longest prefix free of whitespace. *)
Fixpoint firstWord (s : string) : string :=
  match s with
  | EmptyString => EmptyString
  | String c r => if JS.isSpace c then EmptyString else String c (firstWord r)
  end.

(** [s.endsWith('/')] *)
Fixpoint endsWithSlash (s : string) : bool :=
  match s with
  | EmptyString => false
  | String c EmptyString => Ascii.eqb c "/"
  | String _ r => endsWithSlash r
  end.

Inductive CompletionMode : Type := NoCompletion | CommandMode | PathMode.

(** The value of the [autocomplete] memo. *)
Record Completion : Type := mkCompletion {
  suggestions : list AutocompleteSuggestion;
  ghostSuffix : string;
  beforeToken : string;
  quoteChar : option ascii;
  tokenPrefix : string;
  mode : CompletionMode
}.

Definition noCompletion : Completion :=
  mkCompletion [] "" "" None "" NoCompletion.

(** [suggestions[0] ? suggestions[0].insertText.slice(n) : ''] *)
Definition ghostOf (suggestions : list AutocompleteSuggestion) (n : nat)
  : string :=
  match suggestions with
  | top :: _ => JS.sliceFrom n (insertText top)
  | [] => ""
  end.

(** The completion mode that a command declares for its argument; a
    command name that is not a string equals none of the four names. *)
Definition pathModeOf (commandName : Parser.CommandName)
  : option PathCompletionMode :=
  match commandName with
  | Parser.Name name =>
      if String.eqb name "cd" then Some ModeDir
      else if String.eqb name "cat" then Some ModeFile
      else if String.eqb name "open" then Some ModeBoth
      else if String.eqb name "tree" then Some ModeBoth
      else None
  | Parser.InheritedMember _ => None
  end.

(** The alias table of the prompt ([Shell.tsx], lines 61-67). *)
Definition AUTOCOMPLETE_ALIASES : list (string * string) :=
  [ ("?", "help"); ("dir", "ls"); ("goto", "cd");
    ("read", "cat"); ("tldr", "summary") ].

Section Memo.
Variable localeCompare : string -> string -> Z.

Definition autocomplete (fs : option FSNode) (currentCwd : string)
           (helpWizardStep : WizardStep) (input : string) : Completion :=
  if negb (isStepNone helpWizardStep) then noCompletion
  else
    let trimmedStart := JS.trimStart input in
    if String.length trimmedStart =? 0 then noCompletion
    else
      let rawToken := lastToken input in
      let beforeToken :=
        JS.sliceTo (String.length input - String.length rawToken) input in
      let quoteChar :=
        match rawToken with
        | String c _ => if Parser.isQuoteChar c then Some c else None
        | EmptyString => None
        end in
      let tokenPrefix :=
        match quoteChar with
        | Some _ => JS.sliceFrom 1 rawToken
        | None => rawToken
        end in
      let tokenPrefixLower := JS.toLowerCase tokenPrefix in
      if negb (hasSpace trimmedStart) then
        let suggestions :=
          map (fun name => mkSuggestion KindCommand name)
              (filter (fun name => JS.startsWith name tokenPrefixLower)
                      Fuzzy.AUTOCOMPLETE_COMMANDS) in
        mkCompletion suggestions
                     (ghostOf suggestions (String.length tokenPrefix))
                     beforeToken quoteChar tokenPrefix CommandMode
      else
        let rawCmdToken := JS.toLowerCase (firstWord trimmedStart) in
        let commandName :=
          Parser.resolveAlias AUTOCOMPLETE_ALIASES rawCmdToken in
        match pathModeOf commandName, fs with
        | Some pathMode, Some root =>
            let suggestions :=
              buildPathAutocompleteSuggestions localeCompare root currentCwd
                                               tokenPrefix pathMode in
            mkCompletion suggestions
                         (ghostOf suggestions (String.length tokenPrefix))
                         beforeToken quoteChar tokenPrefix PathMode
        | _, _ =>
            mkCompletion [] "" beforeToken quoteChar tokenPrefix NoCompletion
        end.
End Memo.

(** [handleTabComplete]: the new content of the input line. *)
Definition handleTabComplete (a : Completion) (input : string) : string :=
  match suggestions a with
  | [] => input
  | top :: _ =>
      let quote :=
        match quoteChar a with
        | Some q => String q EmptyString
        | None => ""
        end in
      let completedToken := (quote ++ insertText top)%string in
      let shouldAppendSpace :=
        match mode a with
        | CommandMode => true
        | _ => match kind top with
               | KindDir => false
               | _ => negb (endsWithSlash (insertText top))
               end
        end in
      (beforeToken a ++ completedToken
       ++ (if shouldAppendSpace then " " else ""))%string
  end.

Inductive Direction : Type := Up | Down.

(** [handleHistory]: the new pointer and the new input line; the second
    component is [None] where the source would read [history[newIndex]]
    outside the array. When nothing is set the pair is returned as it
    was. *)
Definition handleHistory (history : list string) (direction : Direction)
           (historyPointer : option nat) (input : string)
  : option nat * option string :=
  if length history =? 0 then (historyPointer, Some input)
  else
    let finish (newIndex : option nat) :=
      (newIndex,
       match newIndex with
       | Some i => nth_error history i
       | None => Some ""
       end) in
    match direction with
    | Up =>
        finish (Some match historyPointer with
                     | None => length history - 1
                     | Some i => Nat.max 0 (i - 1)
                     end)
    | Down =>
        match historyPointer with
        | None => (historyPointer, Some input)
        | Some i =>
            let newIndex := i + 1 in
            finish (if length history <=? newIndex then None
                    else Some newIndex)
        end
    end.

(** A pointer that is unset or points into the history. *)
Definition inRange (history : list string) (pointer : option nat) : Prop :=
  match pointer with
  | None => True
  | Some i => i < length history
  end.

End Prompt.

(* ===================================================================== *)
(** ** Shape of a content tree and the walk of [search] *)
(* ===================================================================== *)

Module TreeShape.
Import Fs.

(** A tree as an object graph gives it: in every directory the keys are
    pairwise different, and each key is a non-empty name free of "/". *)
Inductive WellFormed : FSNode -> Prop :=
| WfFile : forall name slug meta content,
    WellFormed (File name slug meta content)
| WfDir : forall name children meta,
    NoDup (map fst children) ->
    Forall (fun e => goodSegment (fst e) /\ WellFormed (snd e)) children ->
    WellFormed (Dir name children meta).

(** Induction over the tree, children included. *)
Section Induction.
Variable P : FSNode -> Prop.
Hypothesis HFile : forall name slug meta content,
    P (File name slug meta content).
Hypothesis HDir : forall name children meta,
    Forall (fun e => P (snd e)) children -> P (Dir name children meta).

Fixpoint FSNode_induction (node : FSNode) : P node :=
  match node with
  | File name slug meta content => HFile name slug meta content
  | Dir name children meta =>
      HDir name children meta
        ((fix each (l : list (string * FSNode))
            : Forall (fun e => P (snd e)) l :=
            match l with
            | [] => Forall_nil _
            | e :: r =>
                Forall_cons e
                  (match e as e0 return P (snd e0) with
                   | (_, child) => FSNode_induction child
                   end)
                  (each r)
            end) children)
  end.
End Induction.

(** [path === '/' ? `/${childName}` : `${path}/${childName}`] *)
Definition childPath (path childName : string) : string :=
  if String.eqb path "/" then ("/" ++ childName)%string
  else (path ++ "/" ++ childName)%string.

(** The loop over the children in the [walk] of [search]. *)
Fixpoint searchChildren (term path : string) (cs : list (string * FSNode))
  : list (string * FSNode) :=
  match cs with
  | [] => []
  | (childName, child) :: r =>
      Shell.searchWalk term child (childPath path childName)
      ++ searchChildren term path r
  end.

End TreeShape.

(* ===================================================================== *)
(** * Properties *)
(* ===================================================================== *)

(** ** The working-directory stack *)

Section StackInvariant.
Import Session.

Lemma removelast_nonempty (A : Type) (l : list A) :
  2 <= length l -> removelast l <> [].
Proof.
  destruct l as [|x [|y r]]; simpl; intros H; try lia.
  discriminate.
Qed.

Lemma initial_state_invariant props : stackInvariant (getInitialState props).
Proof.
  unfold stackInvariant, getInitialState; simpl.
  split; [discriminate | reflexivity].
Qed.

Lemma reducer_preserves_invariant s a :
  isTransition a -> stackInvariant s -> stackInvariant (shellReducer s a).
Proof.
  intros Ha [Hne Hlast].
  destruct a; simpl in *; try (split; assumption).
  - (* SET_CWD *)
    split.
    + intros E. apply app_eq_nil in E. destruct E as [_ E]. discriminate.
    + apply last_last.
  - (* GO_BACK *)
    destruct (length (cwds s) <=? 1) eqn:E.
    + split; assumption.
    + apply Nat.leb_gt in E. simpl. split.
      * apply removelast_nonempty. lia.
      * reflexivity.
  - contradiction.
Qed.

(** C10. Every state reachable from an initial state through ADD_HISTORY,
    CLEAR_HISTORY, ADD_COMMAND, SET_CWD and GO_BACK has a non-empty
    working-directory stack whose last element is the current working
    directory; the initial state satisfies this invariant and each of the
    five transitions preserves it. *)
Theorem stack_invariant_reachable :
  (forall props, stackInvariant (getInitialState props)) /\
  (forall s a, isTransition a -> stackInvariant s ->
               stackInvariant (shellReducer s a)) /\
  (forall s, Reachable s -> stackInvariant s).
Proof.
  split; [exact initial_state_invariant|].
  split; [exact reducer_preserves_invariant|].
  intros s H. induction H.
  - apply initial_state_invariant.
  - apply reducer_preserves_invariant; assumption.
Qed.

Lemma stack_invariant_reachable_witness :
  stackInvariant
    (shellReducer
       (shellReducer (getInitialState (mkProps None None None))
                     (SET_CWD "/books"))
       GO_BACK).
Proof.
  apply (proj2 (proj2 stack_invariant_reachable)).
  apply ReachStep; [apply ReachStep; [apply ReachInit | exact I] | exact I].
Defined.

End StackInvariant.

(** ** The tokenizer *)

Section Tokenizer.
Import Parser.

Lemma scan_tracks_quotes cs : forall st,
  modeOf (insideQuote (fold_left scanStep cs st))
  = quoteScan (modeOf (insideQuote st)) (escaping st) cs.
Proof.
  induction cs as [|c r IH]; intros st; simpl; [reflexivity|].
  rewrite IH. unfold scanStep.
  destruct (escaping st) eqn:Ee; simpl; [reflexivity|].
  destruct (Ascii.eqb c "\"); simpl; [reflexivity|].
  destruct (insideQuote st) as [q|] eqn:Eq; simpl.
  - destruct (Ascii.eqb c q); reflexivity.
  - destruct (isQuoteChar c); simpl; [reflexivity|].
    destruct (JS.isSpace c); simpl; [|reflexivity].
    destruct (JS.truthy (currentToken st)); simpl; [reflexivity|].
    rewrite Eq, Ee. reflexivity.
Qed.

Lemma space_is_plain c :
  JS.isSpace c = true -> Ascii.eqb c "\" = false /\ isQuoteChar c = false.
Proof.
  destruct c as [[] [] [] [] [] [] [] []]; vm_compute; intros H;
    first [discriminate H | split; reflexivity].
Qed.

Lemma blank_stays_outside cs :
  Forall (fun c => JS.isSpace c = true) cs ->
  quoteScan Outside false cs = Outside.
Proof.
  induction 1 as [|c r Hc _ IH]; simpl; [reflexivity|].
  destruct (space_is_plain c Hc) as [-> ->]. exact IH.
Qed.

Lemma trimEnd_keeps_nonspace c r :
  JS.isSpace c = false -> JS.truthy (JS.trimEnd (String c r)) = true.
Proof.
  intros H. simpl. destruct (JS.trimEnd r); [rewrite H|]; reflexivity.
Qed.

Lemma blank_trim s : blank s -> JS.trim s = EmptyString.
Proof.
  unfold blank, JS.trim. induction s as [|c r IH]; simpl; intros H.
  - reflexivity.
  - inversion H as [|? ? Hc Hr]; subst. rewrite Hc. apply IH, Hr.
Qed.

Lemma trim_empty_blank s : JS.truthy (JS.trim s) = false -> blank s.
Proof.
  unfold blank, JS.trim. induction s as [|c r IH]; intros H.
  - constructor.
  - cbn [JS.trimStart] in H. destruct (JS.isSpace c) eqn:Hc.
    + constructor; [exact Hc | apply IH, H].
    + rewrite (trimEnd_keeps_nonspace c r Hc) in H. discriminate.
Qed.

Lemma parse_blank input : blank input -> parseCommand input = None.
Proof.
  intros H. unfold parseCommand. rewrite (blank_trim _ H). simpl.
  rewrite orb_true_r. reflexivity.
Qed.

Lemma parse_nonblank input :
  ~ blank input ->
  parseCommand input =
    let st := scanAll scan0 input in
    match insideQuote st with
    | Some _ => Some (mkParsed input "" [] (Some unclosedQuoteMessage))
    | None =>
        match (if JS.truthy (currentToken st)
               then tokens st ++ [currentToken st] else tokens st) with
        | [] => None
        | t0 :: rest =>
            Some (mkParsed input (resolveAlias ALIASES (JS.toLowerCase t0))
                           rest None)
        end
    end.
Proof.
  intros H. unfold parseCommand.
  destruct (JS.truthy (JS.trim input)) eqn:Et.
  - destruct input; [exfalso; apply H; constructor|]. reflexivity.
  - exfalso. apply H, trim_empty_blank, Et.
Qed.

Lemma toLowerChar_idem c :
  JS.toLowerChar (JS.toLowerChar c) = JS.toLowerChar c.
Proof. destruct c as [[] [] [] [] [] [] [] []]; reflexivity. Qed.

Lemma toLowerCase_idem s : JS.toLowerCase (JS.toLowerCase s) = JS.toLowerCase s.
Proof.
  induction s as [|c r IH]; simpl; [reflexivity|].
  rewrite toLowerChar_idem, IH. reflexivity.
Qed.

(** Two members of [Object.prototype] have a name in lower case only. *)
Lemma inherited_lower k :
  JS.inherited k = true -> JS.toLowerCase k = k ->
  k = "constructor" \/ k = "__proto__".
Proof.
  unfold JS.inherited, JS.objectPrototypeKeys. cbn [existsb].
  intros H Hl.
  repeat (apply orb_true_iff in H; destruct H as [H|H]);
    try discriminate H;
    apply String.eqb_eq in H; subst k;
    first [ left; reflexivity | right; reflexivity
          | vm_compute in Hl; discriminate Hl ].
Qed.

(** No alias is a member name of [Object.prototype], and the alias lookup
    yields such a member exactly for the member names. *)
Lemma resolveAlias_inherited rawCmd k :
  resolveAlias ALIASES rawCmd = InheritedMember k
  <-> k = rawCmd /\ JS.inherited rawCmd = true.
Proof.
  unfold resolveAlias, ALIASES. cbn [lookupAlias].
  repeat match goal with
         | |- context [String.eqb ?a rawCmd] =>
             destruct (String.eqb a rawCmd) eqn:?;
             [ match goal with
               | H : String.eqb _ rawCmd = true |- _ =>
                   apply String.eqb_eq in H; subst rawCmd
               end;
               split; [discriminate | intros [_ H]; discriminate H] |]
         end.
  destruct (JS.inherited rawCmd).
  - split.
    + intros H. injection H as <-. split; reflexivity.
    + intros [-> _]. reflexivity.
  - split; [discriminate | intros [_ H]; discriminate H].
Qed.

Lemma resolveAlias_name rawCmd :
  JS.inherited rawCmd = false ->
  exists s, resolveAlias ALIASES rawCmd = Name s.
Proof.
  intros H. unfold resolveAlias.
  destruct (lookupAlias ALIASES rawCmd) as [a|].
  - destruct (JS.truthy a); eexists; reflexivity.
  - rewrite H. eexists; reflexivity.
Qed.

(** The command name of a parse is a member of [Object.prototype] only for
    the command words "constructor" and "__proto__", in any letter case,
    and such a parse carries no error. *)
Lemma parse_inherited input p k :
  parseCommand input = Some p -> commandName p = InheritedMember k ->
  error p = None /\ (k = "constructor" \/ k = "__proto__").
Proof.
  unfold parseCommand.
  destruct (negb (JS.truthy input) || negb (JS.truthy (JS.trim input)));
    [discriminate|].
  cbv zeta.
  destruct (insideQuote (scanAll scan0 input)).
  { intros H. injection H as <-. discriminate. }
  destruct (if JS.truthy (currentToken (scanAll scan0 input))
            then _ else _) as [|t0 rest]; [discriminate|].
  intros H. injection H as <-. simpl. intros Hk.
  apply resolveAlias_inherited in Hk. destruct Hk as [-> Hi].
  split; [reflexivity|].
  apply inherited_lower; [exact Hi | apply toLowerCase_idem].
Qed.

Lemma blank_dec input : blank input \/ ~ blank input.
Proof.
  destruct (JS.truthy (JS.trim input)) eqn:Et.
  - right. intros H. rewrite (blank_trim _ H) in Et. discriminate.
  - left. apply trim_empty_blank, Et.
Qed.

(** C8. The tokenizer fails only with the unclosed-quote error, and it does
    so exactly when a single or double quote is still open at the end of
    the input; empty or whitespace-only input gives "no command" ([None]),
    which is not an error. *)
Theorem tokenizer_fails_only_on_unclosed_quote (input : string) :
  (blank input -> parseCommand input = None) /\
  (forall p, parseCommand input = Some p ->
             error p = None \/
             p = mkParsed input "" [] (Some unclosedQuoteMessage)) /\
  ((exists p, parseCommand input = Some p /\ error p <> None)
   <-> quoteOpenAtEnd input).
Proof.
  split; [apply parse_blank|].
  pose proof (scan_tracks_quotes (list_ascii_of_string input) scan0) as Hq.
  simpl in Hq. fold (scanAll scan0 input) in Hq.
  destruct (blank_dec input) as [Hb|Hnb].
  - rewrite (parse_blank _ Hb). split.
    + intros p Hp. discriminate.
    + split.
      * intros [p [Hp _]]. discriminate.
      * intros [q Hopen]. unfold blank in Hb.
        rewrite (blank_stays_outside _ Hb) in Hopen. discriminate.
  - rewrite (parse_nonblank _ Hnb). cbv zeta.
    destruct (insideQuote (scanAll scan0 input)) as [q|] eqn:Ei;
      simpl in Hq.
    + split.
      * intros p Hp. injection Hp as <-. right. reflexivity.
      * split.
        -- intros _. exists q. symmetry. exact Hq.
        -- intros _. eexists. split; [reflexivity|]. simpl. discriminate.
    + split.
      * intros p Hp.
        destruct (if JS.truthy (currentToken (scanAll scan0 input))
                  then _ else _); [discriminate|].
        injection Hp as <-. left. reflexivity.
      * split.
        -- intros [p [Hp He]].
           destruct (if JS.truthy (currentToken (scanAll scan0 input))
                     then _ else _); [discriminate|].
           injection Hp as <-. simpl in He. contradiction.
        -- intros [q' Hopen]. unfold quoteOpenAtEnd in *.
           rewrite <- Hq in Hopen. discriminate.
Qed.

Lemma tokenizer_fails_only_on_unclosed_quote_witness :
  parseCommand "   " = None /\
  (exists p, parseCommand "cat 'abc" = Some p /\ error p <> None).
Proof.
  split.
  - apply (proj1 (tokenizer_fails_only_on_unclosed_quote "   ")).
    unfold blank. simpl. repeat constructor.
  - apply (proj2 (proj2 (tokenizer_fails_only_on_unclosed_quote "cat 'abc"))).
    exists "'"%char. reflexivity.
Defined.

End Tokenizer.

(** ** More on the tokenizer *)

Section TokenizerMore.
Import Parser ParserSpec.

Lemma toLowerCase_truthy s : JS.truthy (JS.toLowerCase s) = JS.truthy s.
Proof. destruct s; reflexivity. Qed.

(** The two outcomes of the alias lookup: a string that is no alias and no
    member name of [Object.prototype], or the member found for a name that
    is no alias. *)
Lemma canonicalName_cases rawCmd :
  (exists s,
      canonicalName rawCmd = Name s /\
      lookupAlias ALIASES s = None /\
      JS.inherited s = false /\
      (JS.truthy rawCmd = true -> JS.truthy s = true) /\
      (JS.toLowerCase rawCmd = rawCmd -> JS.toLowerCase s = s)) \/
  (canonicalName rawCmd = InheritedMember rawCmd /\
   JS.inherited rawCmd = true).
Proof.
  unfold canonicalName, resolveAlias, ALIASES. cbn [lookupAlias].
  repeat match goal with
         | |- context [String.eqb ?k rawCmd] =>
             destruct (String.eqb k rawCmd) eqn:?;
             [left; eexists; split; [reflexivity|];
              repeat split; reflexivity |]
         end.
  destruct (JS.inherited rawCmd) eqn:Ei.
  - right. split; reflexivity.
  - left. exists rawCmd. split; [reflexivity|].
    split; [|split; [exact Ei | split; intros H; exact H]].
    cbn [lookupAlias].
    repeat match goal with
           | H : String.eqb ?k rawCmd = false |- _ => rewrite H; clear H
           end.
    reflexivity.
Qed.

Lemma scanStep_tokens_truthy st c :
  Forall (fun t => JS.truthy t = true) (tokens st) ->
  Forall (fun t => JS.truthy t = true) (tokens (scanStep st c)).
Proof.
  intros H. unfold scanStep.
  destruct (escaping st); [exact H|].
  destruct (Ascii.eqb c "\"); [exact H|].
  destruct (insideQuote st) as [q|].
  - destruct (Ascii.eqb c q); exact H.
  - destruct (isQuoteChar c); [exact H|].
    destruct (JS.isSpace c); [|exact H].
    destruct (JS.truthy (currentToken st)) eqn:E; [|exact H].
    simpl. apply Forall_app. split; [exact H|].
    constructor; [exact E | constructor].
Qed.

Lemma scan_tokens_truthy cs : forall st,
  Forall (fun t => JS.truthy t = true) (tokens st) ->
  Forall (fun t => JS.truthy t = true) (tokens (fold_left scanStep cs st)).
Proof.
  induction cs as [|c r IH]; intros st H; simpl; [exact H|].
  apply IH, scanStep_tokens_truthy, H.
Qed.

(** X9. A successful parse is in normal form: the record keeps the input
    as typed and no argument is the empty string (an empty pair of quotes
    yields no argument). The command name is a non-empty lower-case
    string that is neither a key of the alias table nor the name of a
    member of [Object.prototype]; or else, and for the command words
    "constructor" and "__proto__" only, it is no string but the member of
    [Object.prototype] that the alias lookup found. *)
Theorem parsed_command_normal_form input p :
  parseCommand input = Some p -> error p = None ->
  raw p = input /\
  match commandName p with
  | Name s =>
      JS.truthy s = true /\
      JS.toLowerCase s = s /\
      lookupAlias ALIASES s = None /\
      JS.inherited s = false
  | InheritedMember k => k = "constructor" \/ k = "__proto__"
  end /\
  Forall (fun a => JS.truthy a = true) (args p).
Proof.
  intros Hparse Herr.
  pose proof (fun k => parse_inherited input p k Hparse) as Hinh.
  revert Hparse Herr Hinh.
  unfold parseCommand.
  destruct (negb (JS.truthy input) || negb (JS.truthy (JS.trim input)));
    [discriminate|].
  cbv zeta.
  pose proof (scan_tokens_truthy (list_ascii_of_string input) scan0
                (Forall_nil _)) as Ht.
  fold (scanAll scan0 input) in Ht.
  destruct (insideQuote (scanAll scan0 input)).
  { intros H. injection H as <-. discriminate. }
  assert (Hall : Forall (fun t => JS.truthy t = true)
            (if JS.truthy (currentToken (scanAll scan0 input))
             then tokens (scanAll scan0 input)
                  ++ [currentToken (scanAll scan0 input)]
             else tokens (scanAll scan0 input))).
  { destruct (JS.truthy (currentToken (scanAll scan0 input))) eqn:E;
      [|exact Ht].
    apply Forall_app. split; [exact Ht|].
    constructor; [exact E | constructor]. }
  destruct (if JS.truthy (currentToken (scanAll scan0 input))
            then _ else _) as [|t0 rest]; [discriminate|].
  inversion Hall as [|? ? H0 Hrest]; subst.
  intros H _. injection H as <-. cbn [raw commandName args].
  fold (canonicalName (JS.toLowerCase t0)).
  intros Hinh.
  split; [reflexivity|]. split; [|exact Hrest].
  destruct (canonicalName_cases (JS.toLowerCase t0))
    as [[s [E [Hal [Hi [Htr Hlo]]]]]|[E Hi]].
  - rewrite E.
    split; [apply Htr; rewrite toLowerCase_truthy; exact H0|].
    split; [apply Hlo, toLowerCase_idem|]. split; assumption.
  - rewrite E. apply (Hinh (JS.toLowerCase t0) E).
Qed.

Lemma parsed_command_normal_form_witness :
  JS.truthy "cd" = true /\ JS.toLowerCase "cd" = "cd" /\
  lookupAlias ALIASES "cd" = None /\ JS.inherited "cd" = false.
Proof.
  apply (parsed_command_normal_form "  GoTo ''  'my dir' "
           (mkParsed "  GoTo ''  'my dir' " "cd" ["my dir"] None)
           eq_refl eq_refl).
Defined.

(** *** Round trips *)

Lemma list_ascii_app a b :
  list_ascii_of_string (a ++ b)
  = list_ascii_of_string a ++ list_ascii_of_string b.
Proof.
  induction a as [|c a IH]; simpl; [reflexivity|].
  rewrite IH; reflexivity.
Qed.

Lemma append_snoc a c b :
  ((a ++ String c EmptyString) ++ b = a ++ String c b)%string.
Proof.
  induction a as [|x a IH]; simpl; [reflexivity|].
  rewrite IH; reflexivity.
Qed.

Lemma append_empty_r a : (a ++ "" = a)%string.
Proof.
  induction a as [|x a IH]; simpl; [reflexivity|].
  rewrite IH; reflexivity.
Qed.

Lemma plainChar_inv c :
  plainChar c = true ->
  JS.isSpace c = false /\ isQuoteChar c = false /\ Ascii.eqb c "\" = false.
Proof.
  unfold plainChar. intros H.
  apply andb_true_iff in H. destruct H as [H H3].
  apply andb_true_iff in H. destruct H as [H1 H2].
  repeat split; apply negb_true_iff; assumption.
Qed.

(** Outside quotes, plain characters accumulate in the current token. *)
Lemma scan_plain w : forall toks cur,
  forallb plainChar (list_ascii_of_string w) = true ->
  fold_left scanStep (list_ascii_of_string w) (mkScan toks cur None false)
  = mkScan toks (cur ++ w) None false.
Proof.
  induction w as [|c w IH]; intros toks cur H; simpl.
  - rewrite append_empty_r. reflexivity.
  - simpl in H. apply andb_true_iff in H. destruct H as [Hc Hw].
    destruct (plainChar_inv c Hc) as [H1 [H2 H3]].
    unfold scanStep at 2. simpl. rewrite H3, H2, H1.
    rewrite (IH _ _ Hw). unfold pushChar. rewrite append_snoc. reflexivity.
Qed.

(** Within a quote, everything but the closing quote and the backslash
    accumulates in the current token. *)
Lemma scan_quoted q s : forall toks cur,
  quotable q s = true ->
  fold_left scanStep (list_ascii_of_string s) (mkScan toks cur (Some q) false)
  = mkScan toks (cur ++ s) (Some q) false.
Proof.
  unfold quotable.
  induction s as [|c s IH]; intros toks cur H; simpl.
  - rewrite append_empty_r. reflexivity.
  - simpl in H. apply andb_true_iff in H. destruct H as [Hc Hs].
    apply andb_true_iff in Hc. destruct Hc as [H1 H2].
    apply negb_true_iff in H1. apply negb_true_iff in H2.
    unfold scanStep at 2. simpl. rewrite H2, H1.
    rewrite (IH _ _ Hs). unfold pushChar. rewrite append_snoc. reflexivity.
Qed.

Lemma plainWord_inv w :
  plainWord w = true ->
  JS.truthy w = true /\ forallb plainChar (list_ascii_of_string w) = true.
Proof. unfold plainWord. intros H. apply andb_true_iff in H. exact H. Qed.

Lemma scan_space toks w :
  JS.truthy w = true ->
  scanStep (mkScan toks w None false) " " = mkScan (toks ++ [w]) "" None false.
Proof. intros H. unfold scanStep. simpl. rewrite H. reflexivity. Qed.

Lemma scan_words rest : forall w toks,
  forallb plainWord (w :: rest) = true ->
  fold_left scanStep (list_ascii_of_string (JS.join " " (w :: rest)))
            (mkScan toks "" None false)
  = mkScan (toks ++ removelast (w :: rest)) (last (w :: rest) "") None false.
Proof.
  induction rest as [|w' rest IH]; intros w toks H.
  - simpl in H. rewrite andb_true_r in H.
    destruct (plainWord_inv w H) as [_ Hw].
    cbn [JS.join removelast last]. rewrite (scan_plain w _ _ Hw).
    rewrite app_nil_r. reflexivity.
  - change (forallb plainWord (w :: w' :: rest))
      with (plainWord w && forallb plainWord (w' :: rest)) in H.
    apply andb_true_iff in H. destruct H as [Hw Hrest].
    destruct (plainWord_inv w Hw) as [Ht Hp].
    change (JS.join " " (w :: w' :: rest))
      with (w ++ String " " (JS.join " " (w' :: rest)))%string.
    rewrite list_ascii_app, fold_left_app, (scan_plain w _ _ Hp).
    cbn [list_ascii_of_string fold_left append].
    rewrite (scan_space _ _ Ht), (IH w' _ Hrest).
    change (removelast (w :: w' :: rest)) with (w :: removelast (w' :: rest)).
    change (last (w :: w' :: rest) "") with (last (w' :: rest) "").
    rewrite <- app_assoc. reflexivity.
Qed.

Lemma starts_plain_not_blank w tail :
  plainWord w = true -> ~ blank (w ++ tail).
Proof.
  intros H Hb. destruct (plainWord_inv w H) as [Ht Hp].
  destruct w as [|c w]; [discriminate|].
  unfold blank in Hb. simpl in Hb, Hp. inversion Hb as [|? ? Hc _]; subst.
  apply andb_true_iff in Hp. destruct Hp as [Hp _].
  destruct (plainChar_inv c Hp) as [H1 _]. congruence.
Qed.

Lemma join_cons_app w rest :
  exists tail, JS.join " " (w :: rest) = (w ++ tail)%string.
Proof.
  destruct rest as [|w' rest].
  - exists "". simpl. rewrite append_empty_r. reflexivity.
  - eexists. reflexivity.
Qed.

Lemma parse_plain_words w0 rest :
  plainWord w0 = true -> forallb plainWord rest = true ->
  parseCommand (JS.join " " (w0 :: rest))
  = Some (mkParsed (JS.join " " (w0 :: rest))
                   (canonicalName (JS.toLowerCase w0)) rest None).
Proof.
  intros H0 Hrest.
  assert (Hall : forallb plainWord (w0 :: rest) = true)
    by (simpl; rewrite H0, Hrest; reflexivity).
  destruct (join_cons_app w0 rest) as [tail Htail].
  rewrite parse_nonblank
    by (rewrite Htail; apply starts_plain_not_blank, H0).
  cbv zeta. unfold scanAll, scan0.
  rewrite (scan_words rest w0 [] Hall). cbn [insideQuote currentToken tokens].
  assert (Hlast : JS.truthy (last (w0 :: rest) "") = true).
  { assert (Hin : In (last (w0 :: rest) "") (w0 :: rest)).
    { destruct (exists_last (l := w0 :: rest)) as [l' [x E]];
        [discriminate|].
      rewrite E, last_last. apply in_or_app. right. left. reflexivity. }
    rewrite forallb_forall in Hall.
    apply (plainWord_inv _ (Hall _ Hin)). }
  rewrite Hlast. cbn [app].
  rewrite <- (app_removelast_last (l := w0 :: rest) "") by discriminate.
  reflexivity.
Qed.

(** X10. Words of plain characters joined by single spaces are read back
    as they were: the command name is what the alias lookup
    [ALIASES[w] || w] yields for the first word in lower case (the alias,
    the word itself, or for "constructor" and "__proto__" a member of
    [Object.prototype]), and the other words are the arguments, in
    order. *)
Theorem plain_words_round_trip w0 rest :
  plainWord w0 = true -> forallb plainWord rest = true ->
  parseCommand (JS.join " " (w0 :: rest))
  = Some (mkParsed (JS.join " " (w0 :: rest))
                   (canonicalName (JS.toLowerCase w0)) rest None).
Proof. exact (parse_plain_words w0 rest). Qed.

Lemma plain_words_round_trip_witness :
  parseCommand "Goto books/dune .."
  = Some (mkParsed "Goto books/dune .." "cd" ["books/dune"; ".."] None).
Proof.
  apply (plain_words_round_trip "Goto" ["books/dune"; ".."]); reflexivity.
Defined.

Lemma quote_not_backslash q : isQuoteChar q = true -> Ascii.eqb q "\" = false.
Proof.
  unfold isQuoteChar. intros H. apply orb_true_iff in H.
  destruct H as [H|H]; apply Ascii.eqb_eq in H; subst; reflexivity.
Qed.

(** X11. A quoted argument is kept whole: after a plain command word and
    a space, any non-empty text between two single or two double quotes,
    blanks and the other kind of quote included, becomes one argument, as
    long as it holds neither its own quote character nor a backslash. The
    command name is what the alias lookup [ALIASES[w] || w] yields for the
    command word in lower case. *)
Theorem quoted_argument_kept_whole w0 q s :
  plainWord w0 = true -> isQuoteChar q = true ->
  JS.truthy s = true -> quotable q s = true ->
  parseCommand (w0 ++ String " " (quoted q s))
  = Some (mkParsed (w0 ++ String " " (quoted q s))
                   (canonicalName (JS.toLowerCase w0)) [s] None).
Proof.
  intros H0 Hq Hs Hquot.
  destruct (plainWord_inv w0 H0) as [Ht Hp].
  rewrite parse_nonblank by (apply starts_plain_not_blank, H0).
  cbv zeta. unfold scanAll, scan0, quoted.
  rewrite list_ascii_app, fold_left_app, (scan_plain w0 _ _ Hp).
  cbn [list_ascii_of_string fold_left append].
  rewrite (scan_space _ _ Ht).
  assert (Hopen : scanStep (mkScan ([] ++ [w0]) "" None false) q
                  = mkScan [w0] "" (Some q) false).
  { unfold scanStep. simpl. rewrite (quote_not_backslash q Hq), Hq.
    reflexivity. }
  rewrite Hopen, list_ascii_app, fold_left_app, (scan_quoted q s _ _ Hquot).
  cbn [list_ascii_of_string fold_left append].
  assert (Hclose : scanStep (mkScan [w0] s (Some q) false) q
                   = mkScan [w0] s None false).
  { unfold scanStep. simpl.
    rewrite (quote_not_backslash q Hq), Ascii.eqb_refl. reflexivity. }
  rewrite Hclose. cbn [insideQuote currentToken tokens]. rewrite Hs.
  reflexivity.
Qed.

Lemma quoted_argument_kept_whole_witness :
  parseCommand "open 'my dir/it is'"
  = Some (mkParsed "open 'my dir/it is'" "open" ["my dir/it is"] None).
Proof.
  apply (quoted_argument_kept_whole "open" "'" "my dir/it is");
    reflexivity.
Defined.

End TokenizerMore.

(** ** The path resolver and the node lookup *)

Section Resolver.
Import Fs.

Lemma split_nonempty sep s : JS.split sep s <> [].
Proof.
  destruct s as [|c r]; simpl; [discriminate|].
  destruct (Ascii.eqb c sep); [discriminate|].
  destruct (JS.split sep r); discriminate.
Qed.

Lemma atom_cons c x :
  atom (String c x) -> Ascii.eqb c "/" = false /\ atom x.
Proof.
  unfold atom. simpl. destruct (Ascii.eqb c "/") eqn:E.
  - intros H. discriminate.
  - intros H. split; [reflexivity|].
    destruct (JS.split "/" x) as [|h t] eqn:Es.
    + exfalso. exact (split_nonempty _ _ Es).
    + injection H as -> ->. reflexivity.
Qed.

Lemma split_atom_app x r :
  atom x ->
  JS.split "/" (x ++ String "/" r) = x :: JS.split "/" r.
Proof.
  induction x as [|c x IH]; intros Hx.
  - reflexivity.
  - destruct (atom_cons _ _ Hx) as [Hc Hx'].
    simpl. rewrite Hc, (IH Hx'). reflexivity.
Qed.

Lemma split_atoms s : Forall atom (JS.split "/" s).
Proof.
  induction s as [|c r IH]; simpl.
  - repeat constructor.
  - destruct (Ascii.eqb c "/") eqn:E.
    + constructor; [reflexivity | exact IH].
    + destruct (JS.split "/" r) as [|h t] eqn:Es.
      * exfalso. exact (split_nonempty _ _ Es).
      * inversion IH as [|? ? Hh Ht]; subst.
        constructor; [|exact Ht].
        unfold atom in *. simpl. rewrite E, Hh. reflexivity.
Qed.

Lemma segments_good path : Forall goodSegment (segments path).
Proof.
  unfold segments, JS.filterBoolean.
  pose proof (split_atoms path) as H.
  induction H as [|x l Hx _ IH]; simpl; [constructor|].
  destruct (JS.truthy x) eqn:E; [|exact IH].
  constructor; [split; assumption | exact IH].
Qed.

Lemma Forall_removelast (A : Type) (P : A -> Prop) (l : list A) :
  Forall P l -> Forall P (removelast l).
Proof.
  induction 1 as [|x l Hx Hl IH]; simpl; [constructor|].
  destruct l; [constructor|]. constructor; assumption.
Qed.

Lemma foldSegment_good acc p :
  Forall goodSegment acc -> goodSegment p ->
  Forall goodSegment (foldSegment acc p).
Proof.
  intros Ha Hp. unfold foldSegment, pop.
  destruct (String.eqb p "."); [exact Ha|].
  destruct (String.eqb p ".."); [apply Forall_removelast, Ha|].
  apply Forall_app. split; [exact Ha | constructor; [exact Hp | constructor]].
Qed.

Lemma fold_good parts : forall acc,
  Forall goodSegment acc -> Forall goodSegment parts ->
  Forall goodSegment (fold_left foldSegment parts acc).
Proof.
  induction parts as [|p r IH]; intros acc Ha Hp; simpl; [exact Ha|].
  inversion Hp; subst. apply IH; [apply foldSegment_good|]; assumption.
Qed.

Lemma resolveParts_good current target :
  Forall goodSegment (resolveParts current target).
Proof.
  unfold resolveParts. destruct (JS.startsWith target "/").
  - apply segments_good.
  - apply Forall_app. split; apply segments_good.
Qed.

Lemma stack_good current target :
  Forall goodSegment (foldSegments (resolveParts current target)).
Proof.
  apply fold_good; [constructor | apply resolveParts_good].
Qed.

Lemma fold_canonical parts : forall acc,
  Forall canonicalSegment acc -> Forall goodSegment parts ->
  Forall canonicalSegment (fold_left foldSegment parts acc).
Proof.
  induction parts as [|p r IH]; intros acc Ha Hp; simpl; [exact Ha|].
  inversion Hp as [|? ? Hg Hr]; subst. apply IH; [|exact Hr].
  unfold foldSegment, pop.
  destruct (String.eqb p ".") eqn:E1; [exact Ha|].
  destruct (String.eqb p "..") eqn:E2; [apply Forall_removelast, Ha|].
  apply Forall_app. split; [exact Ha|].
  constructor; [|constructor].
  apply String.eqb_neq in E1. apply String.eqb_neq in E2.
  split; [exact Hg | split; assumption].
Qed.

Lemma stack_canonical current target :
  Forall canonicalSegment (foldSegments (resolveParts current target)).
Proof.
  apply fold_canonical; [constructor | apply resolveParts_good].
Qed.

Lemma split_join xs :
  xs <> [] -> Forall goodSegment xs -> JS.split "/" (JS.join "/" xs) = xs.
Proof.
  induction xs as [|x r IH]; intros Hne H; [contradiction|].
  inversion H as [|? ? [Hx _] Hr]; subst.
  destruct r as [|y r'].
  - exact Hx.
  - change (JS.join "/" (x :: y :: r'))
      with (x ++ String "/" (JS.join "/" (y :: r')))%string.
    rewrite (split_atom_app _ _ Hx), IH;
      [reflexivity | discriminate | exact Hr].
Qed.

Lemma filter_good xs :
  Forall goodSegment xs -> JS.filterBoolean xs = xs.
Proof.
  unfold JS.filterBoolean.
  induction 1 as [|x l [_ Hx] _ IH]; simpl; [reflexivity|].
  rewrite Hx, IH. reflexivity.
Qed.

(** Splitting the rendered path gives the stack back. *)
Lemma segments_of_rendered stack :
  Forall goodSegment stack ->
  segments ("/" ++ JS.join "/" stack) = stack.
Proof.
  intros H. unfold segments. simpl.
  destruct stack as [|x r]; [reflexivity|].
  rewrite split_join; [|discriminate|exact H].
  change (JS.filterBoolean (EmptyString :: x :: r))
    with (JS.filterBoolean (x :: r)).
  apply filter_good, H.
Qed.

Lemma checkWalk_lookupWalk stack : forall cursor,
  checkWalk cursor stack = true <-> exists v, lookupWalk cursor stack = Some v.
Proof.
  induction stack as [|p r IH]; intros cursor; simpl.
  - split; [intros _; eexists; reflexivity | reflexivity].
  - destruct cursor as [[n ch m|n sl m ct]|k].
    + destruct (childAt ch p); [apply IH|].
      split; [discriminate | intros [? H]; discriminate].
    + split; [discriminate | intros [? H]; discriminate].
    + split; [discriminate | intros [? H]; discriminate].
Qed.

(** A member of [Object.prototype] is a dead end: nothing is looked up
    below it. *)
Lemma lookupWalk_from_inherited k parts v :
  lookupWalk (Inherited k) parts = Some v -> parts = [] /\ v = Inherited k.
Proof.
  destruct parts; simpl; intros H; [|discriminate].
  injection H as <-. split; reflexivity.
Qed.

Lemma childAt_own children p child :
  lookupChild children p = Some child ->
  childAt children p = Some (Node child).
Proof. intros H. unfold childAt. rewrite H. reflexivity. Qed.

Lemma childAt_inherited children p :
  lookupChild children p = None -> JS.inherited p = true ->
  childAt children p = Some (Inherited p).
Proof. intros H Hi. unfold childAt. rewrite H, Hi. reflexivity. Qed.

Lemma lookupWalk_PathTo stack : forall cursor m,
  lookupWalk (Node cursor) stack = Some (Node m) <-> PathTo cursor stack m.
Proof.
  induction stack as [|p r IH]; intros cursor m; simpl.
  - split.
    + intros H. injection H as <-. constructor.
    + intros H. inversion H. reflexivity.
  - split.
    + destruct cursor as [n ch mt|]; [|discriminate].
      unfold childAt.
      destruct (lookupChild ch p) as [child|] eqn:E.
      * intros H. econstructor; [exact E | apply IH, H].
      * destruct (JS.inherited p); [|discriminate].
        intros H. apply lookupWalk_from_inherited in H.
        destruct H as [_ H]. discriminate.
    + intros H. inversion H as [|? ? ? ? ? child ? E Hp]; subst.
      rewrite (childAt_own _ _ _ E). apply IH, Hp.
Qed.

Lemma lookupWalk_inherited stack : forall cursor k,
  lookupWalk (Node cursor) stack = Some (Inherited k)
  <-> endsInherited cursor stack k.
Proof.
  induction stack as [|p r IH]; intros cursor k; simpl.
  - split; [discriminate|].
    intros [pre [? [? [? [H _]]]]]. destruct pre; discriminate.
  - split.
    + destruct cursor as [n ch mt|]; [|discriminate].
      unfold childAt.
      destruct (lookupChild ch p) as [child|] eqn:E.
      * intros H. apply IH in H.
        destruct H as [pre [dn [dch [dm [Hs [Hp [Hl Hi]]]]]]].
        exists (p :: pre), dn, dch, dm.
        split; [rewrite Hs; reflexivity|].
        split; [econstructor; eassumption|]. split; assumption.
      * destruct (JS.inherited p) eqn:Ei; [|discriminate].
        intros H. apply lookupWalk_from_inherited in H.
        destruct H as [-> H]. injection H as <-.
        exists [], n, ch, mt.
        split; [reflexivity|]. split; [constructor|]. split; assumption.
    + intros [pre [dn [dch [dm [Hs [Hp [Hl Hi]]]]]]].
      destruct pre as [|q pre'].
      * injection Hs as -> ->. inversion Hp; subst.
        rewrite (childAt_inherited _ _ Hl Hi). reflexivity.
      * injection Hs as -> ->.
        inversion Hp as [|? ? ? ? ? child ? E Hp']; subst.
        rewrite (childAt_own _ _ _ E). apply IH.
        exists pre', dn, dch, dm.
        split; [reflexivity|]. split; [exact Hp'|]. split; assumption.
Qed.

(** The lookup loop finds exactly what the segments lead to. *)
Lemma lookupWalk_leadsTo cursor stack v :
  lookupWalk (Node cursor) stack = Some v <-> leadsTo cursor stack v.
Proof.
  destruct v; [apply lookupWalk_PathTo | apply lookupWalk_inherited].
Qed.

Lemma checkWalk_leadsTo cursor stack :
  checkWalk (Node cursor) stack = true <-> exists v, leadsTo cursor stack v.
Proof.
  rewrite checkWalk_lookupWalk.
  split; intros [v H]; exists v; apply lookupWalk_leadsTo, H.
Qed.

Lemma PathTo_checkWalk cursor stack :
  (exists m, PathTo cursor stack m) -> checkWalk (Node cursor) stack = true.
Proof.
  intros [m H]. apply checkWalk_leadsTo. exists (Node m). exact H.
Qed.

(** Where no segment names a member of [Object.prototype], only nodes are
    found. *)
Lemma leadsTo_plain root stack v :
  Forall (fun s => JS.inherited s = false) stack ->
  leadsTo root stack v -> exists m, v = Node m /\ PathTo root stack m.
Proof.
  intros Hp H. destruct v as [m|k]; [exists m; split; [reflexivity|exact H]|].
  destruct H as [pre [dn [dch [dm [Hs [_ [_ Hi]]]]]]].
  rewrite Hs in Hp. apply Forall_app in Hp. destruct Hp as [_ Hk].
  inversion Hk as [|? ? Hk' _]; subst. rewrite Hi in Hk'. discriminate.
Qed.

(** Node Lookup on a rendered stack walks that stack. *)
Lemma getNodeAtPath_rendered root stack :
  Forall goodSegment stack ->
  getNodeAtPath root ("/" ++ JS.join "/" stack)
  = lookupWalk (Node root) stack.
Proof.
  intros H. unfold getNodeAtPath.
  rewrite (segments_of_rendered _ H).
  destruct stack as [|x r]; [reflexivity|].
  destruct (String.eqb ("/" ++ JS.join "/" (x :: r)) "/") eqn:E.
  - apply String.eqb_eq in E.
    pose proof (segments_of_rendered _ H) as Hs. rewrite E in Hs.
    discriminate Hs.
  - reflexivity.
Qed.

Lemma resolvePath_unfold root current target :
  resolvePath root current target =
    if specialTarget target then Some "/"
    else if checkWalk (Node root)
                      (foldSegments (resolveParts current target))
         then Some ("/" ++ JS.join "/"
                      (foldSegments (resolveParts current target)))%string
         else None.
Proof. reflexivity. Qed.

Lemma resolved_node_exists root current target p :
  resolvePath root current target = Some p ->
  exists v, getNodeAtPath root p = Some v.
Proof.
  rewrite resolvePath_unfold.
  destruct (specialTarget target).
  - intros H. injection H as <-. exists (Node root). reflexivity.
  - destruct (checkWalk (Node root) _) eqn:E; [|discriminate].
    intros H. injection H as <-.
    set (stack := foldSegments (resolveParts current target)) in *.
    change (String "/" (JS.join "/" stack))
      with ("/" ++ JS.join "/" stack)%string.
    rewrite getNodeAtPath_rendered by apply stack_good.
    apply checkWalk_lookupWalk, E.
Qed.

(** C2, as stated, fails: the target [nope] has no intermediate segment at
    all, yet the resolver answers NotFound because its final segment names
    no child of the root. *)
Lemma resolver_final_segment_counterexample :
  intermediatesExist sampleRoot (foldSegments (resolveParts "/" "nope")) /\
  resolvePath sampleRoot "/" "nope" = None.
Proof.
  split; [|reflexivity].
  exists sampleRoot. split; [apply PathHere | reflexivity].
Qed.

(** A final segment that names no child but a member of [Object.prototype]
    is found by [children[p]] all the same: the resolver succeeds, and Node
    Lookup returns that member, which is no node. Nothing is found below
    it. *)
Example inherited_segment_resolves :
  resolvePath sampleRoot "/" "constructor" = Some "/constructor" /\
  getNodeAtPath sampleRoot "/constructor" = Some (Inherited "constructor") /\
  resolvePath sampleRoot "/" "books/__proto__" = Some "/books/__proto__" /\
  resolvePath sampleRoot "/" "constructor/name" = None.
Proof. repeat split; reflexivity. Qed.

(** C2, amended. For a target other than "/" and "~", the resolver succeeds
    exactly when the segments left after folding lead somewhere by lookups
    in [children]: every segment, the final one included, names a child of
    a Directory, or all but the final one do and the final one, which
    names no child of the Directory reached, is the name of a member of
    [Object.prototype] (the lookup finds it through the prototype chain).
    The resolver then returns the canonical absolute path (its segments
    are non-empty, free of "/", and none is "." or ".."), and Node Lookup
    on that path returns what the segments lead to: the node, Directory or
    File, or the inherited member. It answers NotFound exactly when the
    segments lead nowhere. Where no segment is the name of a member of
    [Object.prototype], it succeeds exactly when every segment names a
    child of a Directory, and Node Lookup then returns that node. *)
Theorem resolver_checks_every_segment root current target :
  specialTarget target = false ->
  let stack := foldSegments (resolveParts current target) in
  Forall canonicalSegment stack /\
  (forall p, resolvePath root current target = Some p <->
             (exists v, leadsTo root stack v) /\
             p = ("/" ++ JS.join "/" stack)%string) /\
  (resolvePath root current target = None <->
   ~ exists v, leadsTo root stack v) /\
  (forall p, resolvePath root current target = Some p ->
             exists v, leadsTo root stack v /\ getNodeAtPath root p = Some v) /\
  (Forall (fun s => JS.inherited s = false) stack ->
   forall p, resolvePath root current target = Some p <->
             (exists m, PathTo root stack m /\
                        getNodeAtPath root p = Some (Node m)) /\
             p = ("/" ++ JS.join "/" stack)%string).
Proof.
  intros Hs stack. split; [apply stack_canonical|].
  rewrite resolvePath_unfold, Hs. fold stack.
  pose proof (checkWalk_leadsTo root stack) as Hw.
  assert (Hlook : getNodeAtPath root ("/" ++ JS.join "/" stack)
                  = lookupWalk (Node root) stack)
    by (apply getNodeAtPath_rendered, stack_good).
  destruct (checkWalk (Node root) stack) eqn:E.
  - assert (Hex : exists v, leadsTo root stack v) by (apply Hw; reflexivity).
    split; [|split; [|split]].
    + intros p. split.
      * intros H. injection H as <-. split; [exact Hex | reflexivity].
      * intros [_ ->]. reflexivity.
    + split; [discriminate | intros H; contradiction].
    + intros p H. injection H as <-.
      destruct Hex as [v Hv]. exists v. split; [exact Hv|].
      change (String "/" (JS.join "/" stack))
        with ("/" ++ JS.join "/" stack)%string.
      rewrite Hlook. apply lookupWalk_leadsTo, Hv.
    + intros Hplain p. split.
      * intros H. injection H as <-. split; [|reflexivity].
        destruct Hex as [v Hv].
        destruct (leadsTo_plain _ _ _ Hplain Hv) as [m [-> Hm]].
        exists m. split; [exact Hm|].
        change (String "/" (JS.join "/" stack))
          with ("/" ++ JS.join "/" stack)%string.
        rewrite Hlook. apply lookupWalk_PathTo, Hm.
      * intros [_ ->]. reflexivity.
  - split; [|split; [|split]].
    + intros p. split; [discriminate|].
      intros [Hex _]. apply Hw in Hex. discriminate.
    + split; [|reflexivity].
      intros _ Hex. apply Hw in Hex. discriminate.
    + intros p H. discriminate.
    + intros _ p. split; [discriminate|].
      intros [[m [Hm _]] _].
      assert (Hex : exists v, leadsTo root stack v)
        by (exists (Node m); exact Hm).
      apply Hw in Hex. discriminate.
Qed.

Lemma resolver_checks_every_segment_witness :
  exists v, leadsTo treeA ["a"; "note"] v /\
            getNodeAtPath treeA "/a/note" = Some v.
Proof.
  apply (proj1 (proj2 (proj2 (proj2 (resolver_checks_every_segment
                                       treeA "/" "a/note" eq_refl))))
           "/a/note").
  reflexivity.
Defined.

(** *** Sequences of ".." *)

Lemma dotdot_good : goodSegment "..".
Proof. split; reflexivity. Qed.

Lemma segments_dotDots n : segments (dotDots n) = repeat ".." n.
Proof.
  assert (Hg : Forall goodSegment (repeat ".." n)).
  { induction n; simpl; constructor; [exact dotdot_good | assumption]. }
  unfold dotDots, segments. destruct n as [|n]; [reflexivity|].
  rewrite split_join; [apply filter_good, Hg | discriminate | exact Hg].
Qed.

Lemma dotDots_relative n :
  specialTarget (dotDots n) = false /\ JS.startsWith (dotDots n) "/" = false.
Proof.
  destruct n as [|[|n]]; split; reflexivity.
Qed.

Lemma fold_pops n : forall acc,
  fold_left foldSegment (repeat ".." n) acc = firstn (length acc - n) acc.
Proof.
  induction n as [|n IH]; intros acc; simpl.
  - rewrite Nat.sub_0_r. symmetry. apply firstn_all.
  - change (foldSegment acc "..") with (removelast acc).
    rewrite IH, removelast_firstn_len, firstn_firstn.
    rewrite length_firstn. f_equal. lia.
Qed.

Lemma fold_length parts : forall acc,
  length (fold_left foldSegment parts acc) <= length acc + length parts.
Proof.
  induction parts as [|p r IH]; intros acc; simpl; [lia|].
  specialize (IH (foldSegment acc p)).
  assert (length (foldSegment acc p) <= S (length acc)).
  { unfold foldSegment, pop.
    destruct (String.eqb p "."); [lia|].
    destruct (String.eqb p "..").
    - rewrite removelast_firstn_len, length_firstn. lia.
    - rewrite length_app. simpl. lia. }
  lia.
Qed.

Lemma PathTo_prefix root stack m :
  PathTo root stack m -> forall k, exists m', PathTo root (firstn k stack) m'.
Proof.
  induction 1 as [n|name ch meta p rest child m E Hp IH]; intros k.
  - exists n. rewrite firstn_nil. constructor.
  - destruct k as [|k]; simpl.
    + eexists. constructor.
    + destruct (IH k) as [m' Hm']. exists m'. econstructor; eassumption.
Qed.

Lemma stack_of_dotDots current n :
  foldSegments (resolveParts current (dotDots n))
  = firstn (length (foldSegments (segments current)) - n)
           (foldSegments (segments current)).
Proof.
  unfold resolveParts. rewrite (proj2 (dotDots_relative n)).
  rewrite segments_dotDots. unfold foldSegments.
  rewrite fold_left_app. apply fold_pops.
Qed.

(** C3. For every current directory and every target made of [n] segments
    "..", each ".." pops the accumulator and popping the empty accumulator
    does nothing; when [n] reaches the depth of the current directory the
    result is "/", and when the current directory exists in the tree the
    resolution succeeds with the ancestor [n] levels up. In particular
    "../../.." resolved against directory "a" gives "/". *)
Theorem dotdot_clamps_at_root root current n :
  let base := foldSegments (segments current) in
  pop [] = [] /\
  (forall acc, fold_left foldSegment (repeat ".." n) acc
               = firstn (length acc - n) acc) /\
  (length base <= n -> resolvePath root current (dotDots n) = Some "/") /\
  ((exists m, PathTo root base m) ->
   resolvePath root current (dotDots n)
   = Some ("/" ++ JS.join "/" (firstn (length base - n) base))%string) /\
  resolvePath root "a" "../../.." = Some "/".
Proof.
  intros base.
  assert (Hgen : forall cur k,
             (exists m, PathTo root (foldSegments (segments cur)) m) ->
             resolvePath root cur (dotDots k)
             = Some ("/" ++ JS.join "/"
                       (firstn (length (foldSegments (segments cur)) - k)
                               (foldSegments (segments cur))))%string).
  { intros cur k [m Hm]. rewrite resolvePath_unfold.
    rewrite (proj1 (dotDots_relative k)), stack_of_dotDots.
    destruct (PathTo_prefix _ _ _ Hm
                (length (foldSegments (segments cur)) - k)) as [m' Hm'].
    assert (Hc : checkWalk (Node root)
                   (firstn (length (foldSegments (segments cur)) - k)
                           (foldSegments (segments cur))) = true)
      by (apply PathTo_checkWalk; exists m'; exact Hm').
    rewrite Hc. reflexivity. }
  assert (Hclamp : forall cur k,
             length (foldSegments (segments cur)) <= k ->
             resolvePath root cur (dotDots k) = Some "/").
  { intros cur k Hk. rewrite resolvePath_unfold.
    rewrite (proj1 (dotDots_relative k)), stack_of_dotDots.
    replace (length (foldSegments (segments cur)) - k) with 0 by lia.
    reflexivity. }
  split; [reflexivity|].
  split; [apply fold_pops|].
  split; [apply Hclamp|].
  split; [apply Hgen|].
  apply (Hclamp "a" 3). simpl. lia.
Qed.

Lemma dotdot_clamps_at_root_witness :
  resolvePath treeA "/a/note" (dotDots 5) = Some "/" /\
  resolvePath treeA "/a/note" (dotDots 1) = Some "/a".
Proof.
  split.
  - apply (proj1 (proj2 (proj2 (dotdot_clamps_at_root treeA "/a/note" 5)))).
    simpl. lia.
  - apply (proj1 (proj2 (proj2 (proj2
             (dotdot_clamps_at_root treeA "/a/note" 1))))).
    eexists. apply lookupWalk_PathTo. reflexivity.
Defined.

End Resolver.

(** ** The fuzzy ranking engine *)

Section RankingFacts.
Import Fuzzy.

Variable localeCompare : string -> string -> Z.

Lemma insertSorted_In (A : Type) (cmp : A -> A -> Z) x y (l : list A) :
  In y (insertSorted cmp x l) <-> y = x \/ In y l.
Proof.
  induction l as [|z r IH]; simpl.
  - intuition congruence.
  - destruct (cmp x z <=? 0)%Z; simpl; [intuition congruence|].
    rewrite IH. intuition congruence.
Qed.

Lemma sortBy_In (A : Type) (cmp : A -> A -> Z) y (l : list A) :
  In y (sortBy cmp l) <-> In y l.
Proof.
  induction l as [|x r IH]; simpl; [reflexivity|].
  rewrite insertSorted_In, IH. intuition congruence.
Qed.

Lemma insertSorted_length (A : Type) (cmp : A -> A -> Z) x (l : list A) :
  length (insertSorted cmp x l) = S (length l).
Proof.
  induction l as [|z r IH]; simpl; [reflexivity|].
  destruct (cmp x z <=? 0)%Z; simpl; [reflexivity | rewrite IH; reflexivity].
Qed.

Lemma sortBy_length (A : Type) (cmp : A -> A -> Z) (l : list A) :
  length (sortBy cmp l) = length l.
Proof.
  induction l as [|x r IH]; simpl; [reflexivity|].
  rewrite insertSorted_length, IH. reflexivity.
Qed.

Lemma sortBy_Forall (A : Type) (cmp : A -> A -> Z) (P : A -> Prop) l :
  Forall P l -> Forall P (sortBy cmp l).
Proof.
  rewrite !Forall_forall. intros H y Hy. apply H, (sortBy_In _ cmp), Hy.
Qed.

(** The comparator orders two rows of different score by score. *)
Lemma compareRows_score a b :
  ((compareRows localeCompare a b <=? 0)%Z = true -> score a <= score b) /\
  ((compareRows localeCompare a b <=? 0)%Z = false -> score b <= score a).
Proof.
  unfold compareRows.
  destruct (Z.of_nat (score a) - Z.of_nat (score b) =? 0)%Z eqn:E.
  - apply Z.eqb_eq in E. split; intros _; lia.
  - apply Z.eqb_neq in E. split; intros H.
    + apply Z.leb_le in H. lia.
    + apply Z.leb_gt in H. lia.
Qed.

Lemma insertSorted_byScore x l :
  StronglySorted byScore l ->
  StronglySorted byScore (insertSorted (compareRows localeCompare) x l).
Proof.
  induction 1 as [|y r Hr IH Hy]; simpl.
  - constructor; constructor.
  - destruct (compareRows localeCompare x y <=? 0)%Z eqn:E.
    + apply (proj1 (compareRows_score x y)) in E.
      constructor; [constructor; assumption|].
      constructor; [exact E|].
      rewrite Forall_forall in *. intros z Hz.
      unfold byScore in *. specialize (Hy z Hz). lia.
    + apply (proj2 (compareRows_score x y)) in E.
      constructor; [exact IH|].
      rewrite Forall_forall in *. intros z Hz.
      apply insertSorted_In in Hz. destruct Hz as [->|Hz];
        [exact E | apply Hy, Hz].
Qed.

(** Whatever the host's [localeCompare], the ranked rows come out in
    non-decreasing order of [score]. *)
Lemma rankRows_sorted_by_score query candidates :
  StronglySorted byScore (rankRows localeCompare query candidates).
Proof.
  unfold rankRows.
  induction (filter _ _) as [|x r IH]; simpl;
    [constructor | apply insertSorted_byScore, IH].
Qed.

Lemma firstn_incl (A : Type) n (l : list A) y : In y (firstn n l) -> In y l.
Proof.
  revert n. induction l as [|x r IH]; intros [|n]; simpl; try tauto.
  intros [->|H]; [left; reflexivity | right; apply (IH n H)].
Qed.

Lemma firstn_StronglySorted (A : Type) (R : A -> A -> Prop) n (l : list A) :
  StronglySorted R l -> StronglySorted R (firstn n l).
Proof.
  intros H. revert n.
  induction H as [|x l Hl IH Hx]; intros [|n]; simpl; try constructor.
  - apply IH.
  - rewrite Forall_forall in *. intros y Hy.
    apply Hx. apply (firstn_incl _ n l y Hy).
Qed.

Lemma rankRows_are_rows query candidates :
  Forall (fun r => exists c, In c candidates /\ r = mkRowFor query c)
         (rankRows localeCompare query candidates).
Proof.
  unfold rankRows. apply sortBy_Forall.
  rewrite Forall_forall. intros r Hr.
  apply filter_In in Hr. destruct Hr as [Hr _].
  apply in_map_iff in Hr. destruct Hr as [c [<- Hc]].
  exists c. split; [exact Hc | reflexivity].
Qed.

(** As long as every distance stays below the weight 100 of the group, the
    order by [score] is the lexicographic order of (group, distance): no
    row with a strictly smaller key comes after one with a larger key. *)
Lemma rankRows_sorted_by_key_below_100 query candidates limit :
  (forall c, In c candidates -> snd (keyOf query c) < 100) ->
  StronglySorted
    (fun a b => ~ keyLt (keyOf query (candidate b)) (keyOf query (candidate a)))
    (firstn limit (rankRows localeCompare query candidates)).
Proof.
  intros Hb. apply firstn_StronglySorted.
  pose proof (rankRows_sorted_by_score query candidates) as Hs.
  pose proof (rankRows_are_rows query candidates) as Hr.
  induction Hs as [|x l Hl IH Hx]; [constructor|].
  inversion Hr as [|? ? [cx [Hcx ->]] Hr']; subst.
  constructor; [apply IH, Hr'|].
  rewrite Forall_forall in *. intros y Hy.
  destruct (Hr' y Hy) as [cy [Hcy ->]].
  specialize (Hx _ Hy). unfold byScore in Hx.
  pose proof (Hb cx Hcx) as Bx. pose proof (Hb cy Hcy) as By.
  unfold keyLt, keyOf in *. simpl in *. lia.
Qed.

(** C6. The sort key is the single number [group * 100 + distance]; it
    agrees with the lexicographic order of (group, distance) only while
    distances stay below 100. For the query "a", the 103-character name
    [longName] is a prefix match with key (0, 102) and "ba" is a substring
    match with key (1, 1): the prefix match has the strictly smaller key,
    yet the ranking puts it after "ba". *)
Theorem score_weight_mixes_groups :
  keyOf "a" longName = (0, 102) /\
  keyOf "a" "ba" = (1, 1) /\
  keyLt (keyOf "a" longName) (keyOf "a" "ba") /\
  rankCandidates localeCompare "a" [longName; "ba"] 2 = ["ba"; longName].
Proof.
  assert (K1 : keyOf "a" longName = (0, 102)) by (vm_compute; reflexivity).
  assert (K2 : keyOf "a" "ba" = (1, 1)) by (vm_compute; reflexivity).
  split; [exact K1|]. split; [exact K2|]. split.
  - rewrite K1, K2. left. simpl. lia.
  - vm_compute. reflexivity.
Qed.

(** *** The query "hlep" *)

(** C5, as stated, fails twice: the distance between "hlep" and "help" is
    2, not 1, and a vocabulary can hold a better match than "help". *)
Lemma hlep_help_counterexample :
  levenshteinDistance "hlep" "help" <> 1 /\
  In "help" ["help"; "hlep"] /\
  hd_error (rankCandidates codeUnitCompare "hlep" ["help"; "hlep"] 4)
  <> Some "help".
Proof.
  split; [vm_compute; discriminate|].
  split; [left; reflexivity|].
  vm_compute. discriminate.
Qed.

(** C5, amended. The query "hlep" has length 4, so its threshold is 2, and
    its edit distance to "help" is 2 (a transposition costs two unit
    edits), which the threshold admits: "help" is eligible in every
    vocabulary that contains it, it is ranked first whenever no other
    member of the vocabulary is eligible, and against the command
    vocabulary of the shell the ranking is exactly ["help"]. *)
Theorem hlep_ranks_help :
  getMaxEditDistance (String.length "hlep") = 2 /\
  levenshteinDistance "hlep" "help" = 2 /\
  rankCandidates localeCompare "hlep" AUTOCOMPLETE_COMMANDS 4 = ["help"] /\
  (forall candidates,
      In "help" candidates ->
      In "help" (rankCandidates localeCompare "hlep" candidates
                                (length candidates))) /\
  (forall candidates limit,
      In "help" candidates -> 1 <= limit ->
      (forall c, In c candidates -> c <> "help" ->
                 eligible 2 (mkRowFor "hlep" c) = false) ->
      hd_error (rankCandidates localeCompare "hlep" candidates limit)
      = Some "help").
Proof.
  split; [reflexivity|].
  split; [reflexivity|].
  split; [vm_compute; reflexivity|].
  assert (Hrow : forall candidates, In "help" candidates ->
            In (mkRowFor "hlep" "help")
               (rankRows localeCompare "hlep" candidates)).
  { intros candidates Hin. unfold rankRows. apply sortBy_In.
    apply filter_In. split; [|reflexivity].
    apply in_map_iff. exists "help". split; [reflexivity | exact Hin]. }
  split.
  - intros candidates Hin.
    change (rankCandidates localeCompare "hlep" candidates (length candidates))
      with (map candidate
              (firstn (length candidates)
                      (rankRows localeCompare "hlep" candidates))).
    rewrite firstn_all2.
    + change "help" with (candidate (mkRowFor "hlep" "help")) at 1.
      apply in_map, Hrow, Hin.
    + unfold rankRows. rewrite sortBy_length.
      etransitivity; [apply filter_length_le|].
      rewrite length_map. constructor.
  - intros candidates limit Hin Hlim Hothers.
    change (rankCandidates localeCompare "hlep" candidates limit)
      with (map candidate
              (firstn limit (rankRows localeCompare "hlep" candidates))).
    assert (Hall : Forall (fun r => candidate r = "help")
                          (rankRows localeCompare "hlep" candidates)).
    { unfold rankRows. apply sortBy_Forall.
      rewrite Forall_forall. intros r Hr.
      apply filter_In in Hr. destruct Hr as [Hr He].
      apply in_map_iff in Hr. destruct Hr as [c [<- Hc]].
      destruct (string_dec c "help") as [->|Hne]; [reflexivity|].
      change (getMaxEditDistance (String.length "hlep")) with 2 in He.
      rewrite (Hothers c Hc Hne) in He. discriminate. }
    specialize (Hrow candidates Hin).
    destruct (rankRows localeCompare "hlep" candidates) as [|r rs];
      [contradiction|].
    destruct limit as [|limit]; [lia|].
    simpl. inversion Hall as [|? ? Hr _]; subst. rewrite Hr. reflexivity.
Qed.

End RankingFacts.

Lemma hlep_ranks_help_witness :
  hd_error (Fuzzy.rankCandidates Fuzzy.codeUnitCompare "hlep"
                                 ["cd"; "help"; "open"] 1)
  = Some "help".
Proof.
  apply (proj2 (proj2 (proj2 (proj2
           (hlep_ranks_help Fuzzy.codeUnitCompare))))).
  - right. left. reflexivity.
  - lia.
  - intros c [<-|[<-|[<-|[]]]] Hne;
      [reflexivity | contradiction | reflexivity].
Defined.

(** ** The command dispatcher *)

Section Dispatcher.
Import Fs Session Shell.

Variable localeCompare : string -> string -> Z.
Variable finiteFloor : string -> option Z.
Variable numberToString : Z -> string.

Local Abbreviation executeOps :=
  (Shell.executeOps localeCompare finiteFloor numberToString).
Local Abbreviation bodyOps :=
  (Shell.bodyOps localeCompare finiteFloor numberToString).
Local Abbreviation execute :=
  (Shell.execute localeCompare finiteFloor numberToString).
Local Abbreviation executeAll :=
  (Shell.executeAll localeCompare finiteFloor numberToString).
Local Abbreviation dispatchCommand :=
  (Shell.dispatchCommand localeCompare finiteFloor numberToString).
Local Abbreviation dispatchNamed :=
  (Shell.dispatchNamed localeCompare finiteFloor numberToString).

Ltac break_match :=
  match goal with
  | |- context [match ?x with _ => _ end] => destruct x eqn:?
  end.












Lemma parse_some_nonblank raw parsed :
  Parser.parseCommand raw = Some parsed -> JS.truthy (JS.trim raw) = true.
Proof.
  unfold Parser.parseCommand.
  destruct (JS.truthy (JS.trim raw)); [reflexivity|].
  rewrite orb_true_r. discriminate.
Qed.

Lemma executeOps_nonblank props c raw :
  JS.truthy (JS.trim raw) = true ->
  executeOps props c raw
  = Dispatch (ADD_HISTORY (commandEcho c raw))
    :: Dispatch (ADD_COMMAND raw)
    :: SetHistoryPointer None
    :: bodyOps props c raw.
Proof. intros H. unfold Shell.executeOps. rewrite H. reflexivity. Qed.

Lemma body_of_command props c raw parsed root :
  helpWizardStep c = StepNone ->
  fs props = Some root ->
  Parser.parseCommand raw = Some parsed ->
  Parser.error parsed = None ->
  bodyOps props c raw
  = dispatchCommand root c raw (Parser.commandName parsed)
                    (Parser.args parsed).
Proof.
  intros Hs Hf Hp He. unfold Shell.bodyOps.
  rewrite Hp, He, Hs, Hf. reflexivity.
Qed.

(** *** Errors *)

(** One execution for each kind of error: unclosed quote, unknown command,
    path not found, not a directory, is a directory, missing argument,
    filesystem unavailable. *)
Example error_kinds :
  let c := initialComponent sampleProps in
  let shown props line :=
    last (map content (history (state (run props c [line])))) CBanner in
  shown sampleProps "cat 'x" = CText "Unclosed quote found." /\
  shown sampleProps "lls -a" = CError "Command 'lls' not found." ["ls -a"] /\
  shown sampleProps "cd nope"
  = CError "cd: no such file or directory: nope" ["ls"; "pwd"] /\
  shown sampleProps "cd about"
  = CError "cd: not a directory: about" ["open about"; "cat about"] /\
  shown sampleProps "cat books"
  = CError "cat: books: Is a directory" ["ls books"; "open books"] /\
  shown sampleProps "cat"
  = CError "Usage: cat <filename>" ["cat "; "ls"; "open "] /\
  shown (mkProps None None None) "ls" = CError "FileSystem not loaded." [].
Proof. repeat split; vm_compute; reflexivity. Qed.

(** An [open] that fails has raised the flag that suppresses the hint
    chips before it resolved its argument. *)
Example failed_open_raises_flag :
  let c := initialComponent sampleProps in
  hasUsedOpen c = false /\ hasUsedOpen (run sampleProps c ["open nope"]) = true.
Proof. split; reflexivity. Qed.


(** The command word [constructor] is no alias, yet the alias table finds
    a member of [Object.prototype] for it: the command name is no string,
    the default case of the switch raises a TypeError, and nothing is
    appended after the echo. Used as a path, such a name is found too:
    [cd] reports a non-directory and [cat] prints an empty file. *)
Example inherited_names :
  let c := initialComponent sampleProps in
  let shown line :=
    last (map content (history (state (run sampleProps c [line])))) CBanner in
  option_map Parser.commandName (Parser.parseCommand "Constructor -a")
  = Some (Parser.InheritedMember "constructor") /\
  executeRaises sampleProps c "Constructor -a" = true /\
  shown "Constructor -a" = CText "Constructor -a" /\
  shown "cd constructor"
  = CError "cd: not a directory: constructor"
           ["open constructor"; "cat constructor"] /\
  shown "cat constructor" = CText "(Empty file)".
Proof. repeat split; vm_compute; reflexivity. Qed.





End Dispatcher.


Section Commands.
Import Fs Session Shell.

Variable localeCompare : string -> string -> Z.
Variable finiteFloor : string -> option Z.
Variable numberToString : Z -> string.

Local Abbreviation executeOps :=
  (Shell.executeOps localeCompare finiteFloor numberToString).
Local Abbreviation bodyOps :=
  (Shell.bodyOps localeCompare finiteFloor numberToString).
Local Abbreviation execute :=
  (Shell.execute localeCompare finiteFloor numberToString).
Local Abbreviation executeAll :=
  (Shell.executeAll localeCompare finiteFloor numberToString).
Local Abbreviation dispatchCommand :=
  (Shell.dispatchCommand localeCompare finiteFloor numberToString).
Local Abbreviation dispatchNamed :=
  (Shell.dispatchNamed localeCompare finiteFloor numberToString).

Lemma execute_command props c raw parsed root :
  helpWizardStep c = StepNone ->
  fs props = Some root ->
  Parser.parseCommand raw = Some parsed ->
  Parser.error parsed = None ->
  execute props c raw
  = fold_left applyOp
      (Dispatch (ADD_HISTORY (commandEcho c raw))
       :: Dispatch (ADD_COMMAND raw)
       :: SetHistoryPointer None
       :: dispatchCommand root c raw (Parser.commandName parsed)
                          (Parser.args parsed))
      c.
Proof.
  intros Hs Hf Hp He. unfold Shell.execute.
  rewrite (executeOps_nonblank _ _ _ _ _ _ (parse_some_nonblank _ _ Hp)).
  rewrite (body_of_command _ _ _ _ _ _ _ _ Hs Hf Hp He). reflexivity.
Qed.

(** *** back *)

(** C1, as stated, fails: at the floor, the entry that [back] appends after
    the command echo is tagged error. *)
Lemma back_at_floor_counterexample :
  let c := initialComponent sampleProps in
  length (cwds (state c)) = 1 /\
  exists e,
    appendedItems
      (Shell.executeOps Fuzzy.codeUnitCompare decimalFloor
                        decimalToString sampleProps c "back")
    = [commandEcho c "back"; e] /\
    itemType e = TError.
Proof.
  split; [reflexivity|].
  eexists. split; reflexivity.
Qed.

(** C1, amended. Executing [back] when the working-directory stack holds
    only its floor entry leaves the stack and the current working
    directory unchanged ([GO_BACK] itself returns the state as it is), and
    the session goes on; the report "Already at root of session." is
    appended after the command echo as an entry tagged error, the log
    having no notice tag. *)
Theorem back_at_floor_is_noop props c raw parsed root :
  helpWizardStep c = StepNone ->
  fs props = Some root ->
  Parser.parseCommand raw = Some parsed ->
  Parser.error parsed = None ->
  Parser.commandName parsed = "back" ->
  length (cwds (state c)) <= 1 ->
  shellReducer (state c) GO_BACK = state c /\
  state (execute props c raw)
  = mkState (history (state c)
             ++ [commandEcho c raw; mkItem TError atFloorMessage None])
            (commandHistory (state c) ++ [raw])
            (cwds (state c)) (currentCwd (state c)).
Proof.
  intros Hs Hf Hp He Hn Hlen.
  apply Nat.leb_le in Hlen. split.
  - simpl. rewrite Hlen. reflexivity.
  - rewrite (execute_command _ _ _ _ _ Hs Hf Hp He), Hn.
    unfold Shell.dispatchCommand, Shell.dispatchNamed.
    simpl String.eqb. cbv iota.
    unfold runBack. rewrite Hlen. simpl. rewrite <- app_assoc. reflexivity.
Qed.

(** *** clear *)

(** C7, as stated, fails: executing [clear] records the line in the
    command-string history. *)
Lemma clear_changes_command_history_counterexample :
  let c := initialComponent sampleProps in
  commandHistory (state (run sampleProps c ["clear"]))
  <> commandHistory (state c).
Proof. vm_compute. discriminate. Qed.

(** C7, amended. Executing [clear], with the onboarding detour idle and
    the filesystem loaded, resets the display log to exactly the
    banner-tagged entries it held, in their order, or to the single
    default banner when it held none; the working-directory stack and the
    current working directory are unchanged, and the command-string
    history gains the submitted line, as for every executed line. The
    [CLEAR_HISTORY] transition on its own changes the log only. *)
Theorem clear_keeps_banners props c raw parsed root :
  helpWizardStep c = StepNone ->
  fs props = Some root ->
  Parser.parseCommand raw = Some parsed ->
  Parser.error parsed = None ->
  Parser.commandName parsed = "clear" ->
  state (execute props c raw)
  = mkState (match bannersOf (history (state c)) with
             | [] => [defaultBanner]
             | banners => banners
             end)
            (commandHistory (state c) ++ [raw])
            (cwds (state c)) (currentCwd (state c)) /\
  (forall s,
      shellReducer s CLEAR_HISTORY
      = mkState (match bannersOf (history s) with
                 | [] => [defaultBanner]
                 | banners => banners
                 end)
                (commandHistory s) (cwds s) (currentCwd s)).
Proof.
  intros Hs Hf Hp He Hn.
  assert (Hred : forall h,
             clearedHistory h
             = match bannersOf h with
               | [] => [defaultBanner]
               | banners => banners
               end).
  { intros h. unfold clearedHistory, bannersOf.
    destruct (filter _ h); reflexivity. }
  split.
  - rewrite (execute_command _ _ _ _ _ Hs Hf Hp He), Hn.
    unfold Shell.dispatchCommand, Shell.dispatchNamed.
    simpl String.eqb. cbv iota.
    simpl. rewrite Hred. unfold bannersOf. rewrite filter_app. simpl.
    rewrite app_nil_r. reflexivity.
  - intros s. simpl. rewrite Hred. reflexivity.
Qed.

End Commands.

Lemma back_at_floor_is_noop_witness :
  Session.cwds
    (Shell.state (Shell.run Shell.sampleProps
                            (Shell.initialComponent Shell.sampleProps)
                            ["back"]))
  = ["/"].
Proof.
  unfold Shell.run, Shell.executeAll. simpl fold_left.
  rewrite (proj2 (back_at_floor_is_noop Fuzzy.codeUnitCompare
                    Shell.decimalFloor Shell.decimalToString
                    Shell.sampleProps
                    (Shell.initialComponent Shell.sampleProps) "back"
                    (Parser.mkParsed "back" "back" [] None) Fs.sampleRoot
                    eq_refl eq_refl eq_refl eq_refl eq_refl
                    (le_n 1))).
  reflexivity.
Defined.

Lemma clear_keeps_banners_witness :
  Session.history
    (Shell.state (Shell.run Shell.sampleProps
                            (Shell.initialComponent Shell.sampleProps)
                            ["clear"]))
  = [Session.defaultBanner].
Proof.
  unfold Shell.run, Shell.executeAll. simpl fold_left.
  rewrite (proj1 (clear_keeps_banners Fuzzy.codeUnitCompare
                    Shell.decimalFloor Shell.decimalToString
                    Shell.sampleProps
                    (Shell.initialComponent Shell.sampleProps) "clear"
                    (Parser.mkParsed "clear" "clear" [] None) Fs.sampleRoot
                    eq_refl eq_refl eq_refl eq_refl eq_refl)).
  reflexivity.
Defined.

(** ** The onboarding detour *)

Section Onboarding.
Import Fs Session Shell.

Variable localeCompare : string -> string -> Z.
Variable finiteFloor : string -> option Z.
Variable numberToString : Z -> string.

Local Abbreviation executeOps :=
  (Shell.executeOps localeCompare finiteFloor numberToString).
Local Abbreviation bodyOps :=
  (Shell.bodyOps localeCompare finiteFloor numberToString).
Local Abbreviation execute :=
  (Shell.execute localeCompare finiteFloor numberToString).
Local Abbreviation executeAll :=
  (Shell.executeAll localeCompare finiteFloor numberToString).
Local Abbreviation dispatchCommand :=
  (Shell.dispatchCommand localeCompare finiteFloor numberToString).
Local Abbreviation dispatchNamed :=
  (Shell.dispatchNamed localeCompare finiteFloor numberToString).

Ltac break_match :=
  match goal with
  | |- context [match ?x with _ => _ end] => destruct x eqn:?
  end.

Lemma runTree_idle root st args :
  onlyToIdle (runTree localeCompare finiteFloor numberToString root st args)
  = true.
Proof. unfold runTree. repeat break_match; reflexivity. Qed.

Lemma runOpen_idle root c args :
  onlyToIdle (runOpen localeCompare root c args) = true.
Proof. unfold runOpen. repeat break_match; reflexivity. Qed.

Lemma runCd_idle root st args :
  onlyToIdle (runCd localeCompare root st args) = true.
Proof. unfold runCd. repeat break_match; reflexivity. Qed.

Lemma runLs_idle root st : onlyToIdle (runLs localeCompare root st) = true.
Proof. unfold runLs. repeat break_match; reflexivity. Qed.

Lemma runCat_idle root st args :
  onlyToIdle (runCat localeCompare root st args) = true.
Proof. unfold runCat. repeat break_match; reflexivity. Qed.

Lemma dispatch_idle root c raw name args :
  helpWizardSeen c = true ->
  onlyToIdle (dispatchCommand root c raw name args) = true.
Proof.
  intros Hseen. destruct name as [name|k]; [|reflexivity].
  unfold Shell.dispatchCommand, Shell.dispatchNamed.
  destruct (String.eqb name "help").
  { unfold runHelp. rewrite Hseen. reflexivity. }
  destruct (String.eqb name "clear"); [reflexivity|].
  destruct (String.eqb name "home"); [reflexivity|].
  destruct (String.eqb name "cd"); [apply runCd_idle|].
  destruct (String.eqb name "ls"); [apply runLs_idle|].
  destruct (String.eqb name "pwd"); [reflexivity|].
  destruct (String.eqb name "back").
  { unfold runBack. break_match; reflexivity. }
  destruct (String.eqb name "tree"); [apply runTree_idle|].
  destruct (String.eqb name "open"); [apply runOpen_idle|].
  destruct (String.eqb name "cat"); [apply runCat_idle|].
  destruct (String.eqb name "search").
  { unfold runSearch. break_match; reflexivity. }
  destruct (String.eqb name "summary"); reflexivity.
Qed.

Lemma executeOps_idle props c raw :
  helpWizardSeen c = true -> helpWizardStep c <> StepStart ->
  onlyToIdle (executeOps props c raw) = true.
Proof.
  intros Hseen Hstep. unfold Shell.executeOps.
  destruct (negb (JS.truthy (JS.trim raw))); [reflexivity|].
  cbn [onlyToIdle forallb andb]. fold (onlyToIdle (bodyOps props c raw)).
  unfold Shell.bodyOps.
  destruct (Parser.parseCommand raw) as [parsed|]; [|reflexivity].
  destruct (Parser.error parsed); [reflexivity|].
  destruct (helpWizardStep c) eqn:Es; simpl.
  - destruct (fs props); [apply dispatch_idle, Hseen | reflexivity].
  - contradiction.
  - unfold wizardOps. destruct (yesAnswer _), (noAnswer _); reflexivity.
Qed.

Lemma fold_applyOp_wizard ops : forall c,
  onlyToIdle ops = true ->
  (helpWizardSeen c = true ->
   helpWizardSeen (fold_left applyOp ops c) = true) /\
  (helpWizardStep (fold_left applyOp ops c) = helpWizardStep c \/
   helpWizardStep (fold_left applyOp ops c) = StepNone).
Proof.
  induction ops as [|op r IH]; intros c H; simpl.
  - split; [tauto | left; reflexivity].
  - simpl in H. apply andb_true_iff in H. destruct H as [Hop Hr].
    destruct (IH (applyOp c op) Hr) as [IHseen IHstep].
    split.
    + intros Hs. apply IHseen. destruct op; simpl; auto.
    + destruct op as [a|?|?|w| |?|?|? ?]; simpl in *; try exact IHstep.
      destruct w; try discriminate. right.
      destruct IHstep as [E|E]; exact E.
Qed.

Lemma execute_keeps_idle props c raw :
  helpWizardSeen c = true -> helpWizardStep c <> StepStart ->
  helpWizardSeen (execute props c raw) = true /\
  helpWizardStep (execute props c raw) <> StepStart /\
  (helpWizardStep c = StepNone ->
   helpWizardStep (execute props c raw) = StepNone).
Proof.
  intros Hseen Hstep. unfold Shell.execute.
  destruct (fold_applyOp_wizard _ c (executeOps_idle props c raw Hseen Hstep))
    as [H1 H2].
  split; [apply H1, Hseen|]. split.
  - destruct H2 as [E|E]; rewrite E; [exact Hstep | discriminate].
  - intros Hn. destruct H2 as [E|E]; rewrite E; [exact Hn | reflexivity].
Qed.

Lemma yes_is_not_no answer : yesAnswer answer = true -> noAnswer answer = false.
Proof.
  unfold yesAnswer, noAnswer. intros H.
  apply orb_true_iff in H.
  destruct H as [H|H]; apply String.eqb_eq in H; subst; reflexivity.
Qed.

(** C4, as stated, fails: after the detour has been declined at its first
    question, the next [help] enters it again. *)
Lemma help_after_decline_counterexample :
  let c := initialComponent sampleProps in
  helpWizardStep (run sampleProps c ["help"; "no"]) = StepNone /\
  helpWizardStep (run sampleProps c ["help"; "no"; "help"]) = StepStart.
Proof. split; vm_compute; reflexivity. Qed.

(** C4, amended. The detour stops being offered once its first question
    has been answered yes: that answer marks the detour as seen and moves
    to the second question, and from a seen state no sequence of lines
    ever enters the first question again; once the detour is idle it
    stays idle, and [help] then prints the command overview. Answering no
    at the first question ends the detour without marking it seen, so a
    later [help] enters it anew. *)
Theorem help_detour_once_accepted props :
  (forall c raw parsed,
      helpWizardStep c = StepStart ->
      Parser.parseCommand raw = Some parsed -> Parser.error parsed = None ->
      yesAnswer (JS.toLowerCase (JS.trim raw)) = true ->
      helpWizardSeen (execute props c raw) = true /\
      helpWizardStep (execute props c raw) = StepExperience) /\
  (forall c lines,
      helpWizardSeen c = true -> helpWizardStep c <> StepStart ->
      helpWizardSeen (executeAll props c lines) = true /\
      helpWizardStep (executeAll props c lines) <> StepStart /\
      (helpWizardStep c = StepNone ->
       helpWizardStep (executeAll props c lines) = StepNone)) /\
  (forall c raw parsed root,
      helpWizardSeen c = true -> helpWizardStep c = StepNone ->
      fs props = Some root ->
      Parser.parseCommand raw = Some parsed -> Parser.error parsed = None ->
      Parser.commandName parsed = "help" ->
      appendedItems (executeOps props c raw)
      = [commandEcho c raw; mkItem TOutput CHelp None]) /\
  (forall c raw parsed,
      helpWizardStep c = StepStart ->
      Parser.parseCommand raw = Some parsed -> Parser.error parsed = None ->
      noAnswer (JS.toLowerCase (JS.trim raw)) = true ->
      helpWizardSeen (execute props c raw) = helpWizardSeen c /\
      helpWizardStep (execute props c raw) = StepNone) /\
  (forall c raw parsed root,
      helpWizardSeen c = false -> helpWizardStep c = StepNone ->
      fs props = Some root ->
      Parser.parseCommand raw = Some parsed -> Parser.error parsed = None ->
      Parser.commandName parsed = "help" ->
      helpWizardStep (execute props c raw) = StepStart).
Proof.
  assert (Hwiz : forall c raw parsed,
             helpWizardStep c = StepStart ->
             Parser.parseCommand raw = Some parsed ->
             Parser.error parsed = None ->
             execute props c raw
             = fold_left applyOp
                 (Dispatch (ADD_HISTORY (commandEcho c raw))
                  :: Dispatch (ADD_COMMAND raw)
                  :: SetHistoryPointer None
                  :: wizardOps StepStart raw) c).
  { intros c raw parsed Hs Hp He. unfold Shell.execute.
    rewrite (executeOps_nonblank _ _ _ _ _ _ (parse_some_nonblank _ _ Hp)).
    unfold Shell.bodyOps. rewrite Hp, He, Hs. reflexivity. }
  split; [|split; [|split; [|split]]].
  - intros c raw parsed Hs Hp He Hyes.
    rewrite (Hwiz c raw parsed Hs Hp He). unfold wizardOps.
    rewrite Hyes, (yes_is_not_no _ Hyes). split; reflexivity.
  - intros c lines. revert c.
    induction lines as [|l r IH]; intros c Hseen Hstep.
    + split; [exact Hseen | split; [exact Hstep | tauto]].
    + destruct (execute_keeps_idle props c l Hseen Hstep) as [H1 [H2 H3]].
      destruct (IH _ H1 H2) as [I1 [I2 I3]].
      change (executeAll props c (l :: r))
        with (executeAll props (execute props c l) r).
      split; [exact I1 | split; [exact I2|]].
      intros Hn. apply I3, H3, Hn.
  - intros c raw parsed root Hseen Hs Hf Hp He Hn.
    rewrite (executeOps_nonblank _ _ _ _ _ _ (parse_some_nonblank _ _ Hp)).
    rewrite (body_of_command _ _ _ _ _ _ _ _ Hs Hf Hp He), Hn.
    unfold Shell.dispatchCommand, Shell.dispatchNamed.
    simpl String.eqb. cbv iota.
    unfold runHelp. rewrite Hseen. reflexivity.
  - intros c raw parsed Hs Hp He Hno.
    rewrite (Hwiz c raw parsed Hs Hp He). unfold wizardOps.
    rewrite Hno. rewrite andb_false_r. split; reflexivity.
  - intros c raw parsed root Hseen Hs Hf Hp He Hn.
    rewrite (execute_command _ _ _ _ _ _ _ _ Hs Hf Hp He), Hn.
    unfold Shell.dispatchCommand, Shell.dispatchNamed.
    simpl String.eqb. cbv iota.
    unfold runHelp. rewrite Hseen, Hs. reflexivity.
Qed.

End Onboarding.

Lemma help_detour_once_accepted_witness :
  let c := Shell.run Shell.sampleProps
                     (Shell.initialComponent Shell.sampleProps)
                     ["help"; "yes"; "no"] in
  Shell.helpWizardStep
    (Shell.run Shell.sampleProps c ["help"; "cd books"; "help"])
  = Shell.StepNone.
Proof.
  apply (proj1 (proj2 (help_detour_once_accepted Fuzzy.codeUnitCompare
                         Shell.decimalFloor Shell.decimalToString
                         Shell.sampleProps))).
  - reflexivity.
  - discriminate.
  - reflexivity.
Defined.

(** ** The edit distance *)

Section Levenshtein.
Import Fuzzy Recurrence.

Lemma levAt_S a b i j :
  levAt a b (S i) (S j)
  = min3 (levAt a b i (S j) + 1) (levAt a b (S i) j + 1)
         (levAt a b i j + substCost (nth i a zero) (nth j b zero)).
Proof. reflexivity. Qed.

Lemma levAt_0_r a b i : levAt a b i 0 = i.
Proof. destruct i; reflexivity. Qed.

Lemma skipn_cons_nth (A : Type) (l : list A) : forall j x r d,
  skipn j l = x :: r -> nth j l d = x /\ skipn (S j) l = r.
Proof.
  induction l as [|y l IH]; intros [|j] x r d H; simpl in *;
    try discriminate.
  - injection H as -> ->. split; reflexivity.
  - apply IH, H.
Qed.

Lemma skipn_length_cons (A : Type) (l : list A) j x r :
  skipn j l = x :: r -> length l = j + S (length r).
Proof.
  intros H. pose proof (length_skipn j l) as E. rewrite H in E.
  simpl in E.
  assert (j < length l).
  { destruct (Nat.lt_ge_cases j (length l)) as [L|L]; [exact L|].
    rewrite (skipn_all2 l L) in H. discriminate. }
  lia.
Qed.

(** The inner loop fills the rest of row [S i] from column [j] on. *)
Lemma fillRow_correct a b i : forall bs j,
  skipn j b = bs ->
  fillRow (nth i a zero) bs (levAt a b i j)
          (map (levAt a b i) (seq (S j) (length bs)))
          (levAt a b (S i) j)
  = map (levAt a b (S i)) (seq (S j) (length bs)).
Proof.
  induction bs as [|c bs IH]; intros j H; [reflexivity|].
  destruct (skipn_cons_nth _ _ _ _ _ zero H) as [Hc Hs].
  cbn [length seq map fillRow]. subst c.
  fold (substCost (nth i a zero) (nth j b zero)).
  rewrite <- levAt_S. f_equal. apply (IH (S j) Hs).
Qed.

Lemma nextRow_correct a b i :
  nextRow (S i) (nth i a zero) b (tableRow a b i) = tableRow a b (S i).
Proof.
  unfold tableRow. rewrite Nat.add_1_r. cbn [seq map nextRow].
  change (levAt a b i 0) with (levAt a b i 0).
  rewrite levAt_0_r.
  pose proof (fillRow_correct a b i b 0 eq_refl) as H.
  rewrite levAt_0_r in H. rewrite levAt_0_r in H. rewrite H. reflexivity.
Qed.

Lemma levRows_correct a b : forall rest i,
  i <= length a -> skipn i a = rest ->
  levRows (S i) rest b (tableRow a b i) = tableRow a b (length a).
Proof.
  induction rest as [|c rest IH]; intros i Hi H; simpl.
  - pose proof (length_skipn i a) as E. rewrite H in E. simpl in E.
    replace (length a) with i by lia. reflexivity.
  - destruct (skipn_cons_nth _ _ _ _ _ zero H) as [Hc Hs].
    pose proof (skipn_length_cons _ _ _ _ _ H) as Hl.
    rewrite <- Hc, nextRow_correct. apply IH; [lia | exact Hs].
Qed.

Lemma levAt_diag a : forall i, levAt a a i i = 0.
Proof.
  induction i as [|i IH]; [reflexivity|].
  rewrite levAt_S, IH. unfold substCost. rewrite Ascii.eqb_refl.
  unfold min3. apply Nat.min_0_r.
Qed.

Lemma length_list_ascii s : length (list_ascii_of_string s) = String.length s.
Proof. induction s; simpl; congruence. Qed.

Lemma levenshtein_is_editDistance (a b : string) :
  levenshteinDistance a b = editDistance a b.
Proof.
  unfold levenshteinDistance, editDistance.
  destruct (String.eqb a b) eqn:E.
  { apply String.eqb_eq in E. subst b. symmetry.
    rewrite <- length_list_ascii. apply levAt_diag. }
  destruct (String.length a =? 0) eqn:Ea.
  { apply Nat.eqb_eq in Ea. rewrite Ea. reflexivity. }
  destruct (String.length b =? 0) eqn:Eb.
  { apply Nat.eqb_eq in Eb. rewrite Eb. symmetry. apply levAt_0_r. }
  set (la := list_ascii_of_string a). set (lb := list_ascii_of_string b).
  rewrite <- (length_list_ascii a), <- (length_list_ascii b).
  fold la lb.
  change (seq 0 (length lb + 1)) with (seq 0 (length lb + 1)).
  assert (H0 : seq 0 (length lb + 1) = tableRow la lb 0).
  { unfold tableRow. symmetry. apply map_id. }
  rewrite H0, (levRows_correct la lb la 0 (Nat.le_0_l _) eq_refl).
  unfold tableRow.
  rewrite (nth_indep _ 0 (levAt la lb (length la) 0))
    by (rewrite length_map, length_seq; lia).
  rewrite map_nth, seq_nth by lia. reflexivity.
Qed.

(** X1. The two-row dynamic program computes the textbook edit distance:
    for all strings, [levenshteinDistance a b] is the value of the
    recurrence at the full lengths, shortcuts for equal and for empty
    operands included. *)
Theorem levenshtein_matches_recurrence (a b : string) :
  levenshteinDistance a b = editDistance a b.
Proof. exact (levenshtein_is_editDistance a b). Qed.

(** Induction along the recurrence. *)
Lemma table_ind (P : nat -> nat -> Prop) :
  (forall j, P 0 j) ->
  (forall i, P (S i) 0) ->
  (forall i j, P i (S j) -> P (S i) j -> P i j -> P (S i) (S j)) ->
  forall i j, P i j.
Proof.
  intros H0 H1 HS. induction i as [|i IHi]; [exact H0|].
  induction j as [|j IHj]; [apply H1|].
  apply HS; [apply IHi | exact IHj | apply IHi].
Qed.

Lemma substCost_sym x y : substCost x y = substCost y x.
Proof. unfold substCost. rewrite Ascii.eqb_sym. reflexivity. Qed.

Lemma levAt_sym a b : forall i j, levAt a b i j = levAt b a j i.
Proof.
  apply (table_ind (fun i j => levAt a b i j = levAt b a j i)).
  - intros j. symmetry. apply levAt_0_r.
  - intros i. reflexivity.
  - intros i j H1 H2 H3. rewrite !levAt_S, H1, H2, H3, substCost_sym.
    unfold min3. lia.
Qed.

Lemma levAt_bounds a b : forall i j,
  i <= j + levAt a b i j /\ j <= i + levAt a b i j /\
  levAt a b i j <= Nat.max i j.
Proof.
  apply (table_ind (fun i j =>
           i <= j + levAt a b i j /\ j <= i + levAt a b i j /\
           levAt a b i j <= Nat.max i j)).
  - intros j. simpl. lia.
  - intros i. rewrite levAt_0_r. lia.
  - intros i j H1 H2 H3. rewrite levAt_S. unfold min3, substCost.
    destruct (Ascii.eqb _ _); lia.
Qed.

Lemma firstn_snoc_nth (A : Type) (l : list A) : forall i d,
  i < length l -> firstn (S i) l = firstn i l ++ [nth i l d].
Proof.
  induction l as [|x l IH]; intros [|i] d H; simpl in *; try lia.
  - reflexivity.
  - f_equal. apply IH. lia.
Qed.

Lemma levAt_zero_prefix a b : forall i j,
  levAt a b i j = 0 -> i <= length a -> j <= length b ->
  firstn i a = firstn j b.
Proof.
  apply (table_ind (fun i j =>
           levAt a b i j = 0 -> i <= length a -> j <= length b ->
           firstn i a = firstn j b)).
  - intros j H _ _. simpl in H. subst j. reflexivity.
  - intros i H. rewrite levAt_0_r in H. discriminate.
  - intros i j _ _ IH H Hi Hj. rewrite levAt_S in H.
    unfold min3, substCost in H.
    destruct (Ascii.eqb (nth i a zero) (nth j b zero)) eqn:E; [|lia].
    apply Ascii.eqb_eq in E.
    rewrite (firstn_snoc_nth _ a i zero), (firstn_snoc_nth _ b j zero)
      by lia.
    rewrite E, IH by lia. reflexivity.
Qed.

Lemma list_ascii_inj a b :
  list_ascii_of_string a = list_ascii_of_string b -> a = b.
Proof.
  intros H. rewrite <- (string_of_list_ascii_of_string a),
              <- (string_of_list_ascii_of_string b), H. reflexivity.
Qed.

Lemma levenshtein_zero_equal (a b : string) :
  levenshteinDistance a b = 0 <-> a = b.
Proof.
  split.
  - rewrite levenshtein_is_editDistance. unfold editDistance.
    rewrite <- (length_list_ascii a), <- (length_list_ascii b).
    intros H. apply levAt_zero_prefix in H; [|lia|lia].
    rewrite !firstn_all in H. apply list_ascii_inj, H.
  - intros ->. unfold levenshteinDistance. rewrite String.eqb_refl.
    reflexivity.
Qed.

(** X2. The distance is zero exactly for equal strings. *)
Theorem levenshtein_zero_iff_equal (a b : string) :
  levenshteinDistance a b = 0 <-> a = b.
Proof. exact (levenshtein_zero_equal a b). Qed.

(** X3. The distance is symmetric in its two arguments. *)
Theorem levenshtein_symmetric (a b : string) :
  levenshteinDistance a b = levenshteinDistance b a.
Proof.
  rewrite !levenshtein_is_editDistance. apply levAt_sym.
Qed.

(** X4. The distance is at least the difference of the two lengths and at
    most the greater length. *)
Theorem levenshtein_bounds (a b : string) :
  String.length a - String.length b <= levenshteinDistance a b /\
  String.length b - String.length a <= levenshteinDistance a b /\
  levenshteinDistance a b <= Nat.max (String.length a) (String.length b).
Proof.
  rewrite levenshtein_is_editDistance. unfold editDistance.
  pose proof (levAt_bounds (list_ascii_of_string a) (list_ascii_of_string b)
                (String.length a) (String.length b)).
  lia.
Qed.

End Levenshtein.

(** ** More on the ranking *)

Section RankingMore.
Import Fuzzy RankingSpec.

Variable localeCompare : string -> string -> Z.

Lemma rankCandidates_nonblank query candidates limit :
  JS.toLowerCase (JS.trim query) <> "" ->
  rankCandidates localeCompare query candidates limit
  = map candidate
        (firstn limit
           (rankRows localeCompare (JS.toLowerCase (JS.trim query))
                     candidates)).
Proof.
  intros H. unfold rankCandidates.
  destruct (JS.toLowerCase (JS.trim query)); [contradiction|reflexivity].
Qed.

Lemma rankRows_row query candidates r :
  In r (rankRows localeCompare query candidates) ->
  exists c, In c candidates /\ r = mkRowFor query c /\
            eligibleName query c = true.
Proof.
  unfold rankRows. intros H. apply sortBy_In in H.
  apply filter_In in H. destruct H as [H He].
  apply in_map_iff in H. destruct H as [c [<- Hc]].
  exists c. split; [exact Hc | split; [reflexivity | exact He]].
Qed.

Lemma rankCandidates_eligible query candidates limit :
  let q := JS.toLowerCase (JS.trim query) in
  length (rankCandidates localeCompare query candidates limit) <= limit /\
  (q = "" ->
   rankCandidates localeCompare query candidates limit
   = firstn limit candidates) /\
  (q <> "" ->
   forall c, In c (rankCandidates localeCompare query candidates limit) ->
     In c candidates /\
     (JS.startsWith (JS.toLowerCase c) q = true \/
      JS.includes (JS.toLowerCase c) q = true \/
      levenshteinDistance q (JS.toLowerCase c)
      <= getMaxEditDistance (String.length q))).
Proof.
  intros q. split; [|split].
  - unfold rankCandidates. fold q.
    destruct (String.length q =? 0);
      [|rewrite length_map]; apply firstn_le_length.
  - intros H. unfold rankCandidates. fold q. rewrite H. reflexivity.
  - intros H c Hc. rewrite (rankCandidates_nonblank _ _ _ H) in Hc.
    fold q in Hc. apply in_map_iff in Hc. destruct Hc as [r [<- Hr]].
    apply firstn_incl, rankRows_row in Hr.
    destruct Hr as [c' [Hin [-> He]]]. split; [exact Hin|].
    unfold eligibleName, eligible in He. simpl in He.
    apply orb_true_iff in He. destruct He as [He|He].
    + apply orb_true_iff in He. destruct He as [He|He]; auto.
    + right. right. apply Nat.leb_le, He.
Qed.

(** X5. The ranking never returns more names than the limit, and for a
    query that is not blank every returned name is one of the candidates
    and passes the filter: its lower-cased form starts with the normalised
    query, or contains it, or lies within the length-adaptive distance. A
    blank query returns the first [limit] candidates as they are. *)
Theorem rank_returns_eligible query candidates limit :
  let q := JS.toLowerCase (JS.trim query) in
  length (rankCandidates localeCompare query candidates limit) <= limit /\
  (q = "" ->
   rankCandidates localeCompare query candidates limit
   = firstn limit candidates) /\
  (q <> "" ->
   forall c, In c (rankCandidates localeCompare query candidates limit) ->
     In c candidates /\
     (JS.startsWith (JS.toLowerCase c) q = true \/
      JS.includes (JS.toLowerCase c) q = true \/
      levenshteinDistance q (JS.toLowerCase c)
      <= getMaxEditDistance (String.length q))).
Proof. exact (rankCandidates_eligible query candidates limit). Qed.

Lemma insertSorted_perm (A : Type) (cmp : A -> A -> Z) x (l : list A) :
  Permutation (insertSorted cmp x l) (x :: l).
Proof.
  induction l as [|y r IH]; simpl; [reflexivity|].
  destruct (cmp x y <=? 0)%Z; [reflexivity|].
  rewrite IH. apply perm_swap.
Qed.

Lemma sortBy_perm (A : Type) (cmp : A -> A -> Z) (l : list A) :
  Permutation (sortBy cmp l) l.
Proof.
  induction l as [|x r IH]; simpl; [reflexivity|].
  rewrite insertSorted_perm, IH. reflexivity.
Qed.

(** X6. When the limit does not truncate, the ranking is a rearrangement
    of the eligible candidates: none is lost and none is duplicated. *)
Theorem rank_permutes_eligible query candidates limit :
  JS.toLowerCase (JS.trim query) <> "" ->
  length candidates <= limit ->
  Permutation
    (rankCandidates localeCompare query candidates limit)
    (filter (eligibleName (JS.toLowerCase (JS.trim query))) candidates).
Proof.
  intros Hq Hl. rewrite (rankCandidates_nonblank _ _ _ Hq).
  set (q := JS.toLowerCase (JS.trim query)).
  rewrite firstn_all2.
  - unfold rankRows. rewrite sortBy_perm.
    induction candidates as [|c r IH]; simpl; [reflexivity|].
    unfold eligibleName at 1.
    destruct (eligible _ (mkRowFor q c)); simpl;
      [apply perm_skip|]; apply IH; simpl in Hl; lia.
  - unfold rankRows. rewrite sortBy_length.
    etransitivity; [apply filter_length_le|].
    rewrite length_map. exact Hl.
Qed.

Lemma prefix_refl s : String.prefix s s = true.
Proof.
  induction s as [|c r IH]; simpl; [reflexivity|].
  destruct (ascii_dec c c); [exact IH | contradiction].
Qed.

(** X7. A candidate that equals the query up to case and surrounding
    blanks is never outranked by a different name: the first result is
    then itself equal to the query up to case. *)
Theorem exact_match_ranks_first query candidates limit c :
  JS.toLowerCase (JS.trim query) <> "" ->
  In c candidates ->
  JS.toLowerCase c = JS.toLowerCase (JS.trim query) ->
  1 <= limit ->
  exists r, hd_error (rankCandidates localeCompare query candidates limit)
            = Some r /\
            JS.toLowerCase r = JS.toLowerCase (JS.trim query).
Proof.
  intros Hq Hin Heq Hl. rewrite (rankCandidates_nonblank _ _ _ Hq).
  set (q := JS.toLowerCase (JS.trim query)) in *.
  assert (Hrow : In (mkRowFor q c) (rankRows localeCompare q candidates)).
  { unfold rankRows. apply sortBy_In, filter_In. split.
    - apply in_map, Hin.
    - unfold eligible, mkRowFor. simpl. unfold JS.startsWith.
      rewrite Heq, prefix_refl. reflexivity. }
  assert (Hscore : score (mkRowFor q c) = 0).
  { unfold mkRowFor. simpl. unfold JS.startsWith.
    rewrite Heq, prefix_refl. simpl.
    apply levenshtein_zero_equal. reflexivity. }
  pose proof (rankRows_sorted_by_score localeCompare q candidates) as Hs.
  destruct (rankRows localeCompare q candidates) as [|h t] eqn:E;
    [contradiction|].
  destruct limit as [|limit]; [lia|]. simpl.
  exists (candidate h). split; [reflexivity|].
  assert (Hh : score h = 0).
  { destruct Hrow as [Hrow|Hrow]; [rewrite Hrow; exact Hscore|].
    inversion Hs as [|? ? _ Hall]; subst.
    rewrite Forall_forall in Hall. specialize (Hall _ Hrow).
    unfold byScore in Hall. lia. }
  assert (Hin' : In h (rankRows localeCompare q candidates))
    by (rewrite E; left; reflexivity).
  apply rankRows_row in Hin'. destruct Hin' as [c' [_ [-> _]]].
  unfold mkRowFor in Hh. simpl in Hh. simpl.
  assert (Hd : levenshteinDistance q (JS.toLowerCase c') = 0) by lia.
  apply levenshtein_zero_equal in Hd. symmetry. exact Hd.
Qed.

(** *** Ties *)

Lemma compareRows_inOrder a b :
  (compareRows localeCompare a b <= 0)%Z <-> inOrder localeCompare a b.
Proof.
  unfold compareRows, inOrder.
  destruct (Z.of_nat (score a) - Z.of_nat (score b) =? 0)%Z eqn:E.
  - apply Z.eqb_eq in E. split; [intros H; right; split; [lia|exact H]|].
    intros [H|[_ H]]; [lia | exact H].
  - apply Z.eqb_neq in E. split; [intros H; left; lia|].
    intros [H|[H _]]; lia.
Qed.

Lemma inOrder_total a b :
  consistent localeCompare ->
  inOrder localeCompare a b \/ inOrder localeCompare b a.
Proof.
  intros [Ht _]. unfold inOrder.
  destruct (Nat.lt_trichotomy (score a) (score b)) as [H|[H|H]]; auto.
  destruct (Ht (candidate a) (candidate b)); auto.
Qed.

Lemma inOrder_trans a b c :
  consistent localeCompare ->
  inOrder localeCompare a b -> inOrder localeCompare b c ->
  inOrder localeCompare a c.
Proof.
  intros [_ Ht]. unfold inOrder.
  intros [H1|[H1 L1]] [H2|[H2 L2]]; try (left; lia).
  right. split; [lia | eapply Ht; eassumption].
Qed.

Lemma insertSorted_inOrder x l :
  consistent localeCompare ->
  StronglySorted (inOrder localeCompare) l ->
  StronglySorted (inOrder localeCompare)
                 (insertSorted (compareRows localeCompare) x l).
Proof.
  intros Hc. induction 1 as [|y r Hr IH Hy]; simpl.
  - constructor; constructor.
  - destruct (compareRows localeCompare x y <=? 0)%Z eqn:E.
    + apply Z.leb_le, compareRows_inOrder in E.
      constructor; [constructor; assumption|].
      constructor; [exact E|].
      rewrite Forall_forall in *. intros z Hz.
      eapply inOrder_trans; [exact Hc | exact E | apply Hy, Hz].
    + apply Z.leb_gt in E.
      assert (Hyx : inOrder localeCompare y x).
      { destruct (inOrder_total x y Hc) as [H|H]; [|exact H].
        apply compareRows_inOrder in H. lia. }
      constructor; [exact IH|].
      rewrite Forall_forall in *. intros z Hz.
      apply insertSorted_In in Hz. destruct Hz as [->|Hz];
        [exact Hyx | apply Hy, Hz].
Qed.

(** X8. For a total and transitive [localeCompare], the rows behind the
    result are fully ordered: of two results, the earlier one has the
    smaller score, or the same score and a name that [localeCompare] does
    not place after the later one. *)
Theorem rank_orders_ties query candidates limit :
  consistent localeCompare ->
  StronglySorted (inOrder localeCompare)
    (firstn limit (rankRows localeCompare query candidates)).
Proof.
  intros Hc. apply firstn_StronglySorted. unfold rankRows.
  induction (filter _ _) as [|x r IH]; simpl;
    [constructor | apply insertSorted_inOrder; assumption].
Qed.

End RankingMore.

Lemma rank_returns_eligible_witness :
  In "cat" Fuzzy.AUTOCOMPLETE_COMMANDS /\
  (JS.startsWith "cat" "c" = true \/
   JS.includes "cat" "c" = true \/
   Fuzzy.levenshteinDistance "c" "cat" <= 2).
Proof.
  apply (proj2 (proj2 (rank_returns_eligible Fuzzy.codeUnitCompare "c"
                         Fuzzy.AUTOCOMPLETE_COMMANDS 4))).
  - discriminate.
  - right. left. reflexivity.
Defined.

Lemma rank_permutes_eligible_witness :
  Permutation
    (Fuzzy.rankCandidates Fuzzy.codeUnitCompare "c"
                          Fuzzy.AUTOCOMPLETE_COMMANDS 12)
    (filter (RankingSpec.eligibleName "c") Fuzzy.AUTOCOMPLETE_COMMANDS).
Proof.
  apply (rank_permutes_eligible Fuzzy.codeUnitCompare "c"
                                Fuzzy.AUTOCOMPLETE_COMMANDS 12).
  - discriminate.
  - simpl. lia.
Defined.

Lemma exact_match_ranks_first_witness :
  exists r, hd_error (Fuzzy.rankCandidates Fuzzy.codeUnitCompare " LS "
                                           Fuzzy.AUTOCOMPLETE_COMMANDS 4)
            = Some r /\ JS.toLowerCase r = "ls".
Proof.
  apply (exact_match_ranks_first Fuzzy.codeUnitCompare " LS "
                                 Fuzzy.AUTOCOMPLETE_COMMANDS 4 "ls").
  - discriminate.
  - right. right. left. reflexivity.
  - reflexivity.
  - lia.
Defined.

Lemma compare_agrees a : forall b,
  String.compare a b = OrdersEx.String_as_OT.compare a b.
Proof.
  induction a as [|x a IH]; intros [|y b]; simpl; try reflexivity.
  all: change (OrdersEx.Ascii_as_OT.compare x y) with (Ascii.compare x y).
  all: destruct (Ascii.compare x y); [apply IH | reflexivity | reflexivity].
Qed.

Lemma codeUnitCompare_le a b :
  (Fuzzy.codeUnitCompare a b <= 0)%Z <-> String.compare a b <> Gt.
Proof.
  unfold Fuzzy.codeUnitCompare.
  destruct (String.compare a b); split; intros H; try lia;
    try discriminate; contradiction.
Qed.

Lemma codeUnitCompare_consistent :
  RankingSpec.consistent Fuzzy.codeUnitCompare.
Proof.
  split.
  - intros a b. rewrite !codeUnitCompare_le.
    rewrite (String.compare_antisym b a).
    destruct (String.compare a b); simpl;
      [left | left | right]; discriminate.
  - intros a b c. rewrite !codeUnitCompare_le. intros H1 H2.
    destruct (String.compare a b) eqn:E1; [| |contradiction].
    + apply String.compare_eq_iff in E1. subst b. exact H2.
    + destruct (String.compare b c) eqn:E2; [| |contradiction].
      * apply String.compare_eq_iff in E2. subst c. rewrite E1.
        discriminate.
      * rewrite compare_agrees in E1, E2 |- *.
        pose proof (@StrictOrder_Transitive _ _
                      OrdersEx.String_as_OT.lt_strorder a b c E1 E2) as T.
        unfold OrdersEx.String_as_OT.lt in T. rewrite T. discriminate.
Qed.

Lemma rank_orders_ties_witness :
  StronglySorted (RankingSpec.inOrder Fuzzy.codeUnitCompare)
    (firstn 4 (Fuzzy.rankRows Fuzzy.codeUnitCompare "c"
                              Fuzzy.AUTOCOMPLETE_COMMANDS)).
Proof.
  apply (rank_orders_ties Fuzzy.codeUnitCompare "c"
                          Fuzzy.AUTOCOMPLETE_COMMANDS 4).
  exact codeUnitCompare_consistent.
Defined.

(** ** More on the resolver and the listing *)

Section ResolverMore.
Import Fs.

Lemma getNodeAtPath_segments root path :
  getNodeAtPath root path = lookupWalk (Node root) (segments path).
Proof.
  unfold getNodeAtPath.
  destruct (String.eqb path "/" || String.eqb path "") eqn:E;
    [|reflexivity].
  apply orb_true_iff in E.
  destruct E as [E|E]; apply String.eqb_eq in E; subst; reflexivity.
Qed.

(** X12. Node Lookup depends on the non-empty segments of the path only:
    doubled, leading and trailing slashes do not matter, and "/" and the
    empty path are the root. It returns a node exactly when the segments
    lead to it, each step entering a child of a Directory. It returns a
    value that is no node, a member of [Object.prototype], exactly when
    the segments before the last lead to a Directory that has no child
    named by the last segment and that segment is the name of such a
    member. *)
Theorem lookup_follows_segments root path :
  getNodeAtPath root ("/" ++ JS.join "/" (segments path))
  = getNodeAtPath root path /\
  (forall m, getNodeAtPath root path = Some (Node m)
             <-> PathTo root (segments path) m) /\
  (forall k, getNodeAtPath root path = Some (Inherited k)
             <-> exists pre name children meta,
                   segments path = pre ++ [k] /\
                   PathTo root pre (Dir name children meta) /\
                   lookupChild children k = None /\
                   JS.inherited k = true).
Proof.
  rewrite (getNodeAtPath_rendered _ _ (segments_good path)).
  rewrite getNodeAtPath_segments.
  split; [reflexivity|]. split.
  - intros m. apply lookupWalk_PathTo.
  - intros k. apply lookupWalk_inherited.
Qed.

Lemma fold_canonical_id l : forall acc,
  Forall canonicalSegment l -> fold_left foldSegment l acc = acc ++ l.
Proof.
  induction l as [|p r IH]; intros acc H; simpl.
  - rewrite app_nil_r. reflexivity.
  - inversion H as [|? ? [_ [H1 H2]] Hr]; subst.
    unfold foldSegment at 2.
    apply String.eqb_neq in H1. apply String.eqb_neq in H2.
    rewrite H1, H2, (IH _ Hr), <- app_assoc. reflexivity.
Qed.

Lemma canonical_good l : Forall canonicalSegment l -> Forall goodSegment l.
Proof. apply Forall_impl. intros s [H _]. exact H. Qed.

Lemma startsWith_slash s : JS.startsWith ("/" ++ s) "/" = true.
Proof. unfold JS.startsWith. simpl. destruct s; reflexivity. Qed.

(** Resolving a rendered canonical path against any directory walks its
    own segments. *)
Lemma resolve_rendered root cur stack :
  Forall canonicalSegment stack ->
  resolvePath root cur ("/" ++ JS.join "/" stack)
  = if checkWalk (Node root) stack
    then Some ("/" ++ JS.join "/" stack)%string
    else None.
Proof.
  intros H. pose proof (canonical_good _ H) as Hg.
  destruct stack as [|x r]; [reflexivity|].
  rewrite resolvePath_unfold.
  assert (Hsp : specialTarget ("/" ++ JS.join "/" (x :: r)) = false).
  { unfold specialTarget.
    destruct (String.eqb ("/" ++ JS.join "/" (x :: r)) "/") eqn:E;
      [|reflexivity].
    apply String.eqb_eq in E.
    pose proof (segments_of_rendered _ Hg) as Hs. rewrite E in Hs.
    discriminate Hs. }
  rewrite Hsp. unfold resolveParts.
  rewrite startsWith_slash. rewrite (segments_of_rendered _ Hg).
  unfold foldSegments. rewrite (fold_canonical_id _ [] H). reflexivity.
Qed.

Lemma resolved_shape root cur target p :
  resolvePath root cur target = Some p ->
  exists stack, Forall canonicalSegment stack /\
                checkWalk (Node root) stack = true /\
                p = ("/" ++ JS.join "/" stack)%string.
Proof.
  rewrite resolvePath_unfold. destruct (specialTarget target).
  - intros H. injection H as <-. exists []. repeat split. constructor.
  - destruct (checkWalk (Node root) _) eqn:E; [|discriminate].
    intros H. injection H as <-. eexists. split; [apply stack_canonical|].
    split; [exact E | reflexivity].
Qed.

Lemma resolve_resolved root cur target p :
  resolvePath root cur target = Some p ->
  forall cur', resolvePath root cur' p = Some p.
Proof.
  intros H cur'. destruct (resolved_shape _ _ _ _ H) as [stack [Hc [Hw ->]]].
  rewrite (resolve_rendered _ _ _ Hc), Hw. reflexivity.
Qed.

(** X13. A path returned by the resolver is a fixed point: resolved again,
    against any current directory, it comes back unchanged. *)
Theorem resolved_path_is_fixed_point root cur target p :
  resolvePath root cur target = Some p ->
  forall cur', resolvePath root cur' p = Some p.
Proof. exact (resolve_resolved root cur target p). Qed.

Lemma resolved_path_is_fixed_point_witness :
  resolvePath treeA "/zzz" "/a/note" = Some "/a/note".
Proof.
  apply (resolved_path_is_fixed_point treeA "/a" "./note/../note" "/a/note").
  reflexivity.
Defined.

Lemma checkWalk_removelast root stack :
  checkWalk (Node root) stack = true ->
  checkWalk (Node root) (removelast stack) = true.
Proof.
  intros H. apply checkWalk_leadsTo in H. destruct H as [[m|k] H].
  - rewrite removelast_firstn_len. apply PathTo_checkWalk.
    apply (PathTo_prefix _ _ _ H).
  - destruct H as [pre [dn [dch [dm [-> [Hp _]]]]]].
    rewrite removelast_last. apply PathTo_checkWalk.
    eexists. exact Hp.
Qed.

Lemma resolve_dotdot_from_rendered root stack :
  Forall canonicalSegment stack -> checkWalk (Node root) stack = true ->
  resolvePath root ("/" ++ JS.join "/" stack) ".."
  = Some ("/" ++ JS.join "/" (removelast stack))%string.
Proof.
  intros Hc Hw. rewrite resolvePath_unfold.
  change (specialTarget "..") with false. cbv iota.
  unfold resolveParts. change (JS.startsWith ".." "/") with false. cbv iota.
  rewrite (segments_of_rendered _ (canonical_good _ Hc)).
  change (segments "..") with [".."].
  unfold foldSegments. rewrite fold_left_app, (fold_canonical_id _ [] Hc).
  cbn [fold_left app]. change (foldSegment stack "..") with (removelast stack).
  rewrite (checkWalk_removelast _ _ Hw). reflexivity.
Qed.

Lemma atom_not_slash name :
  goodSegment name ->
  JS.startsWith name "/" = false /\ String.eqb name "/" = false.
Proof.
  intros [Ha Ht]. destruct name as [|c r]; [discriminate|].
  destruct (atom_cons _ _ Ha) as [Hc _].
  unfold JS.startsWith. cbn [String.prefix].
  destruct (ascii_dec "/" c) as [E|E].
  - subst c. discriminate.
  - split; [reflexivity|].
    apply String.eqb_neq. intros E'. injection E' as E' _. congruence.
Qed.

Lemma resolve_child_dotdot root stack name p :
  Forall canonicalSegment stack -> canonicalSegment name -> name <> "~" ->
  resolvePath root ("/" ++ JS.join "/" stack) name = Some p ->
  resolvePath root p ".." = Some ("/" ++ JS.join "/" stack)%string.
Proof.
  intros Hc Hn Htilde. pose proof Hn as [Hg _].
  destruct (atom_not_slash name Hg) as [Hs He].
  rewrite resolvePath_unfold. unfold specialTarget. rewrite He.
  apply String.eqb_neq in Htilde. rewrite Htilde. cbn [orb].
  unfold resolveParts. rewrite Hs.
  rewrite (segments_of_rendered _ (canonical_good _ Hc)).
  assert (Hseg : segments name = [name]).
  { unfold segments. destruct Hg as [Ha Ht]. unfold atom in Ha.
    rewrite Ha. unfold JS.filterBoolean. simpl. rewrite Ht. reflexivity. }
  rewrite Hseg.
  assert (Hall : Forall canonicalSegment (stack ++ [name])).
  { apply Forall_app. split; [exact Hc | constructor; [exact Hn|constructor]]. }
  unfold foldSegments. rewrite (fold_canonical_id _ [] Hall). cbn [app].
  destruct (checkWalk (Node root) (stack ++ [name])) eqn:Hw;
    [|discriminate].
  intros H. injection H as <-.
  change (String "/" (JS.join "/" (stack ++ [name])))
    with ("/" ++ JS.join "/" (stack ++ [name]))%string.
  rewrite (resolve_dotdot_from_rendered _ _ Hall Hw), removelast_last.
  reflexivity.
Qed.

(** X14. Entering a child and then resolving ".." leads back: from a
    canonical current directory, if a segment [name] (not "~", which
    always means the root) resolves, then ".." resolved from the result is
    the directory one started from. *)
Theorem child_then_dotdot_returns root stack name p :
  Forall canonicalSegment stack -> canonicalSegment name -> name <> "~" ->
  resolvePath root ("/" ++ JS.join "/" stack) name = Some p ->
  resolvePath root p ".." = Some ("/" ++ JS.join "/" stack)%string.
Proof. exact (resolve_child_dotdot root stack name p). Qed.

Lemma child_then_dotdot_returns_witness :
  resolvePath treeA "/a/note" ".." = Some "/a".
Proof.
  apply (child_then_dotdot_returns treeA ["a"] "note" "/a/note").
  - repeat constructor; discriminate.
  - repeat constructor; discriminate.
  - discriminate.
  - reflexivity.
Defined.

Lemma getParentDirPath_rendered stack :
  Forall canonicalSegment stack ->
  Shell.getParentDirPath ("/" ++ JS.join "/" stack)
  = ("/" ++ JS.join "/" (removelast stack))%string.
Proof.
  intros Hc. pose proof (canonical_good _ Hc) as Hg.
  unfold Shell.getParentDirPath.
  destruct (String.eqb ("/" ++ JS.join "/" stack) "/") eqn:E.
  - apply String.eqb_eq in E.
    pose proof (segments_of_rendered _ Hg) as Hs. rewrite E in Hs.
    change (segments "/") with (@nil string) in Hs. subst stack. reflexivity.
  - rewrite (segments_of_rendered _ Hg).
    destruct (removelast stack); reflexivity.
Qed.

(** X15. The parent that [getParentDirPath] computes for a resolved path
    is the directory that ".." resolves to from it; for the root both are
    the root. *)
Theorem parent_dir_is_dotdot root cur target p :
  resolvePath root cur target = Some p ->
  resolvePath root p ".." = Some (Shell.getParentDirPath p).
Proof.
  intros H. destruct (resolved_shape _ _ _ _ H) as [stack [Hc [Hw ->]]].
  rewrite (getParentDirPath_rendered _ Hc).
  apply resolve_dotdot_from_rendered; assumption.
Qed.

Lemma parent_dir_is_dotdot_witness :
  resolvePath treeA "/a/note" ".." = Some (Shell.getParentDirPath "/a/note").
Proof.
  apply (parent_dir_is_dotdot treeA "/" "a/note" "/a/note"). reflexivity.
Defined.

End ResolverMore.

Section ListingFacts.
Import Fs PathCompletion.

Variable localeCompare : string -> string -> Z.

Lemma compareEntries_dirsFirst a b :
  ((compareEntries localeCompare a b <=? 0)%Z = true -> dirsFirst a b) /\
  ((compareEntries localeCompare a b <=? 0)%Z = false -> dirsFirst b a).
Proof.
  unfold compareEntries, dirsFirst.
  destruct (isDir (snd a)), (isDir (snd b)); simpl; split; intros H;
    try discriminate; auto.
Qed.

Lemma insertSorted_dirsFirst x l :
  StronglySorted dirsFirst l ->
  StronglySorted dirsFirst
    (Fuzzy.insertSorted (compareEntries localeCompare) x l).
Proof.
  induction 1 as [|y r Hr IH Hy]; simpl.
  - constructor; constructor.
  - destruct (compareEntries localeCompare x y <=? 0)%Z eqn:E.
    + apply (proj1 (compareEntries_dirsFirst x y)) in E.
      constructor; [constructor; assumption|].
      constructor; [exact E|].
      rewrite Forall_forall in *. intros z Hz. specialize (Hy z Hz).
      unfold dirsFirst in *. auto.
    + apply (proj2 (compareEntries_dirsFirst x y)) in E.
      constructor; [exact IH|].
      rewrite Forall_forall in *. intros z Hz.
      apply insertSorted_In in Hz. destruct Hz as [->|Hz];
        [exact E | apply Hy, Hz].
Qed.

Lemma getSortedChildren_dirsFirst name children meta :
  Permutation (getSortedChildren localeCompare (Dir name children meta))
              children /\
  StronglySorted dirsFirst
    (getSortedChildren localeCompare (Dir name children meta)).
Proof.
  split; [apply sortBy_perm|].
  simpl. induction children as [|x r IH]; simpl;
    [constructor | apply insertSorted_dirsFirst, IH].
Qed.

(** X16. Whatever [localeCompare] answers, the sorted children of a
    directory are a rearrangement of its children in which no file stands
    before a directory. *)
Theorem sorted_children_dirs_first name children meta :
  Permutation (getSortedChildren localeCompare (Dir name children meta))
              children /\
  StronglySorted dirsFirst
    (getSortedChildren localeCompare (Dir name children meta)).
Proof. exact (getSortedChildren_dirsFirst name children meta). Qed.

End ListingFacts.

(** ** Suggestions *)

Section Suggestions.
Import Fs PathCompletion CompletionOrder.

Variable localeCompare : string -> string -> Z.

Lemma lookupChild_In children name child :
  lookupChild children name = Some child -> In (name, child) children.
Proof.
  induction children as [|[k v] r IH]; simpl; [discriminate|].
  destruct (String.eqb k name) eqn:E.
  - apply String.eqb_eq in E. intros H. injection H as <-. subst k.
    left. reflexivity.
  - intros H. right. apply IH, H.
Qed.

Lemma In_lookupChild_NoDup children name child :
  NoDup (map fst children) -> In (name, child) children ->
  lookupChild children name = Some child.
Proof.
  induction children as [|[k v] r IH]; simpl; intros Hnd Hin; [contradiction|].
  inversion Hnd as [|? ? Hk Hr]; subst.
  destruct Hin as [E|Hin].
  - injection E as -> ->. rewrite String.eqb_refl. reflexivity.
  - destruct (String.eqb k name) eqn:E.
    + apply String.eqb_eq in E. subst k. exfalso. apply Hk.
      change name with (fst (name, child)). apply in_map, Hin.
    + apply IH; assumption.
Qed.

Lemma In_lookupChild children name v :
  In (name, v) children -> exists child, lookupChild children name = Some child.
Proof.
  induction children as [|[k w] r IH]; simpl; intros Hin; [contradiction|].
  destruct (String.eqb k name) eqn:Ek; [eexists; reflexivity|].
  destruct Hin as [E|Hin]; [|apply IH, Hin].
  injection E as -> ->. rewrite String.eqb_refl in Ek. discriminate.
Qed.

Lemma rank_subset query candidates limit c :
  In c (Fuzzy.rankCandidates localeCompare query candidates limit) ->
  In c candidates.
Proof.
  intros H.
  destruct (string_dec (JS.toLowerCase (JS.trim query)) "") as [E|E].
  - rewrite (proj1 (proj2 (rankCandidates_eligible localeCompare query
                             candidates limit)) E) in H.
    apply (firstn_incl _ _ _ _ H).
  - apply (proj2 (proj2 (rankCandidates_eligible localeCompare query
                           candidates limit)) E c H).
Qed.

Lemma flat_map_length_le (A B : Type) (f : A -> list B) (l : list A) :
  (forall x, length (f x) <= 1) -> length (flat_map f l) <= length l.
Proof.
  intros H. induction l as [|x r IH]; simpl; [lia|].
  rewrite length_app. specialize (H x). lia.
Qed.

(** X17. The "did you mean" suggestions for a path token are at most six,
    and each one names an existing child of the directory that the part
    of the token before its last "/" resolves to: its insert text is that
    part, the child's name, and a closing "/" for a directory; its kind
    tells directory from file; and the child passes the completion mode
    of the command. *)
Theorem fuzzy_suggestions_sound root cwd token mode :
  length (buildPathFuzzySuggestions localeCompare root cwd token mode) <= 6 /\
  forall s,
    In s (buildPathFuzzySuggestions localeCompare root cwd token mode) ->
    exists dirPath dname children dmeta name child,
      resolvePath root cwd (tokenDir token) = Some dirPath /\
      getNodeAtPath root dirPath = Some (Node (Dir dname children dmeta)) /\
      lookupChild children name = Some child /\
      s = suggestionOf (tokenPrefix token) name child /\
      (NoDup (map fst children) -> modeAccepts mode child = true).
Proof.
  unfold buildPathFuzzySuggestions. cbv zeta.
  fold (tokenDir token). fold (tokenPrefix token). fold (tokenBase token).
  destruct (resolvePath root cwd (tokenDir token)) as [dirPath|] eqn:Er;
    [|split; [simpl; lia | intros s []]].
  destruct (getNodeAtPath root dirPath)
    as [[[dname children dmeta|]|]|] eqn:Eg;
    try (split; [simpl; lia | intros s []]).
  set (candidates :=
         map fst (filter (fun e => modeAccepts mode (snd e))
                         (getSortedChildren localeCompare
                                            (Dir dname children dmeta)))).
  set (rankedNames :=
         if String.length (JS.trim (tokenBase token)) =? 0
         then firstn 6 candidates
         else Fuzzy.rankCandidates localeCompare (tokenBase token)
                                   candidates 6).
  assert (Hlen : length rankedNames <= 6).
  { unfold rankedNames. destruct (_ =? 0).
    - apply firstn_le_length.
    - apply (proj1 (rankCandidates_eligible localeCompare _ _ 6)). }
  assert (Hsub : forall c, In c rankedNames -> In c candidates).
  { unfold rankedNames. intros c. destruct (_ =? 0).
    - apply firstn_incl.
    - apply rank_subset. }
  split.
  - etransitivity; [apply flat_map_length_le | exact Hlen].
    intros x. unfold suggestionFor.
    destruct (childAt children x); simpl; lia.
  - intros s Hs. apply in_flat_map in Hs. destruct Hs as [name [Hn Hs]].
    apply Hsub in Hn. unfold candidates in Hn.
    apply in_map_iff in Hn. destruct Hn as [[k v] [Hk Hin]].
    simpl in Hk. subst k. apply filter_In in Hin. destruct Hin as [Hin Hm].
    simpl in Hm.
    assert (Hc : In (name, v) children).
    { apply (Permutation_in _ (sortBy_perm _ (compareEntries localeCompare)
                                          children)), Hin. }
    destruct (In_lookupChild _ _ _ Hc) as [child El].
    unfold suggestionFor, childAt in Hs. rewrite El in Hs.
    destruct Hs as [<-|[]].
    exists dirPath, dname, children, dmeta, name, child.
    split; [reflexivity|]. split; [exact Eg|].
    split; [exact El|]. split; [reflexivity|].
    intros Hnd.
    rewrite (In_lookupChild_NoDup _ _ _ Hnd Hc) in El.
    injection El as <-. exact Hm.
Qed.

Lemma completionFor_sound prefixForRebuild base mode name child s :
  In s (completionFor prefixForRebuild base mode (name, child)) ->
  s = suggestionOf prefixForRebuild name child /\
  modeAccepts mode child = true /\
  JS.startsWith (JS.toLowerCase name) base = true.
Proof.
  unfold completionFor, modeAccepts.
  assert (Hp : JS.truthy base
               && negb (JS.startsWith (JS.toLowerCase name) base) = false ->
               JS.startsWith (JS.toLowerCase name) base = true).
  { destruct base; simpl.
    - intros _. unfold JS.startsWith. destruct (JS.toLowerCase name);
        reflexivity.
    - intros H. apply negb_false_iff, H. }
  destruct (JS.truthy base
            && negb (JS.startsWith (JS.toLowerCase name) base));
    [intros []|].
  specialize (Hp eq_refl).
  destruct mode, (isDir child); simpl; intros H;
    try contradiction; destruct H as [<-|[]];
    (split; [reflexivity | split; [reflexivity | exact Hp]]).
Qed.

Lemma flat_map_sorted entries prefixForRebuild base mode :
  StronglySorted dirsFirst entries ->
  StronglySorted kindOrder
    (flat_map (completionFor prefixForRebuild base mode) entries).
Proof.
  induction 1 as [|[n c] r Hr IH Hy]; cbn [flat_map]; [constructor|].
  destruct (completionFor prefixForRebuild base mode (n, c))
    as [|s [|? ?]] eqn:E.
  - exact IH.
  - cbn [app]. constructor; [exact IH|].
    assert (Hs : In s (completionFor prefixForRebuild base mode (n, c)))
      by (rewrite E; left; reflexivity).
    apply completionFor_sound in Hs. destruct Hs as [-> _].
    rewrite Forall_forall in *. intros z Hz.
    apply in_flat_map in Hz. destruct Hz as [[n' c'] [Hin Hz]].
    apply completionFor_sound in Hz. destruct Hz as [-> _].
    specialize (Hy _ Hin). unfold dirsFirst, kindOrder, suggestionOf in *.
    simpl in *. intros Hk.
    destruct (isDir c'); [rewrite (Hy eq_refl); reflexivity | discriminate Hk].
  - exfalso. unfold completionFor in E.
    destruct (_ && _); [discriminate|].
    destruct mode, (isDir c); discriminate.
Qed.

(** X18. Each completion offered for a path token names a child of the
    directory that the part of the token before its last "/" resolves to,
    passes the completion mode, and has a name that starts, ignoring case,
    with the part after the last "/"; its insert text is the directory
    part, the child's name and a closing "/" for a directory. Directory
    completions come before file completions. *)
Theorem completions_sound root cwd token mode :
  (forall s,
    In s (buildPathAutocompleteSuggestions localeCompare root cwd token mode)
    ->
    exists dirPath dname children dmeta name child,
      resolvePath root cwd (tokenDir token) = Some dirPath /\
      getNodeAtPath root dirPath = Some (Node (Dir dname children dmeta)) /\
      In (name, child) children /\
      s = suggestionOf (tokenPrefix token) name child /\
      modeAccepts mode child = true /\
      JS.startsWith (JS.toLowerCase name) (JS.toLowerCase (tokenBase token))
      = true) /\
  StronglySorted kindOrder
    (buildPathAutocompleteSuggestions localeCompare root cwd token mode).
Proof.
  unfold buildPathAutocompleteSuggestions. cbv zeta.
  fold (tokenDir token). fold (tokenPrefix token). fold (tokenBase token).
  destruct (resolvePath root cwd (tokenDir token)) as [dirPath|] eqn:Er;
    [|split; [intros s [] | constructor]].
  destruct (getNodeAtPath root dirPath)
    as [[[dname children dmeta|]|]|] eqn:Eg;
    try (split; [intros s [] | constructor]).
  split.
  - intros s Hs. apply in_flat_map in Hs.
    destruct Hs as [[name child] [Hin Hs]].
    apply completionFor_sound in Hs. destruct Hs as [-> [Hm Hp]].
    exists dirPath, dname, children, dmeta, name, child.
    split; [reflexivity|]. split; [exact Eg|].
    split; [apply (Permutation_in _ (sortBy_perm _ (compareEntries
                                                   localeCompare)
                                               children)), Hin|].
    split; [reflexivity|]. split; assumption.
  - apply flat_map_sorted.
    apply (proj2 (getSortedChildren_dirsFirst localeCompare dname children
                                              dmeta)).
Qed.

End Suggestions.

(** ** Effects of a command *)

Section EffectsOfExecute.
Import Fs Session Shell Effects.

Variable localeCompare : string -> string -> Z.
Variable finiteFloor : string -> option Z.
Variable numberToString : Z -> string.

Local Abbreviation executeOps :=
  (Shell.executeOps localeCompare finiteFloor numberToString).
Local Abbreviation bodyOps :=
  (Shell.bodyOps localeCompare finiteFloor numberToString).
Local Abbreviation execute :=
  (Shell.execute localeCompare finiteFloor numberToString).
Local Abbreviation executeAll :=
  (Shell.executeAll localeCompare finiteFloor numberToString).
Local Abbreviation dispatchCommand :=
  (Shell.dispatchCommand localeCompare finiteFloor numberToString).

Ltac break_match :=
  match goal with
  | |- context [match ?x with _ => _ end] => destruct x eqn:?
  end.

Ltac allowed_leaf :=
  repeat first
    [ apply Forall_nil
    | apply Forall_cons
    | apply AllowLog; first [left; reflexivity | right; reflexivity]
    | apply AllowCd; first [left; reflexivity
                           | right; do 3 eexists; eassumption]
    | constructor ].

Lemma runTree_allowed root st args :
  Forall (Allowed root)
         (runTree localeCompare finiteFloor numberToString root st args).
Proof. unfold runTree. repeat break_match; allowed_leaf. Qed.

Lemma runOpen_allowed root c args :
  Forall (Allowed root) (runOpen localeCompare root c args).
Proof. unfold runOpen. repeat break_match; allowed_leaf. Qed.

Lemma runCd_allowed root st args :
  Forall (Allowed root) (runCd localeCompare root st args).
Proof. unfold runCd. repeat break_match; allowed_leaf. Qed.

Lemma runLs_allowed root st :
  Forall (Allowed root) (runLs localeCompare root st).
Proof. unfold runLs. repeat break_match; allowed_leaf. Qed.

Lemma runCat_allowed root st args :
  Forall (Allowed root) (runCat localeCompare root st args).
Proof. unfold runCat. repeat break_match; allowed_leaf. Qed.

Lemma dispatch_allowed root c raw name args :
  Forall (Allowed root) (dispatchCommand root c raw name args).
Proof.
  destruct name as [name|k]; [|constructor].
  unfold Shell.dispatchCommand, Shell.dispatchNamed.
  destruct (String.eqb name "help").
  { unfold runHelp. break_match; allowed_leaf. }
  destruct (String.eqb name "clear"); [allowed_leaf|].
  destruct (String.eqb name "home"); [allowed_leaf|].
  destruct (String.eqb name "cd"); [apply runCd_allowed|].
  destruct (String.eqb name "ls"); [apply runLs_allowed|].
  destruct (String.eqb name "pwd"); [allowed_leaf|].
  destruct (String.eqb name "back").
  { unfold runBack. break_match; allowed_leaf. }
  destruct (String.eqb name "tree"); [apply runTree_allowed|].
  destruct (String.eqb name "open").
  { constructor; [constructor | apply runOpen_allowed]. }
  destruct (String.eqb name "cat"); [apply runCat_allowed|].
  destruct (String.eqb name "search").
  { unfold runSearch. break_match; allowed_leaf. }
  destruct (String.eqb name "summary"); [allowed_leaf|].
  unfold runUnknown. allowed_leaf.
Qed.

Lemma bodyOps_allowed props c raw root :
  (forall r, fs props = Some r -> r = root) ->
  Forall (Allowed root) (bodyOps props c raw).
Proof.
  intros Hroot. unfold Shell.bodyOps.
  destruct (Parser.parseCommand raw) as [parsed|]; [|constructor].
  destruct (Parser.error parsed); [allowed_leaf|].
  destruct (negb (isStepNone (helpWizardStep c))).
  { unfold wizardOps.
    destruct (yesAnswer _), (noAnswer _), (helpWizardStep c); allowed_leaf. }
  destruct (fs props) as [r|] eqn:Ef; [|allowed_leaf].
  rewrite <- (Hroot r eq_refl). apply dispatch_allowed.
Qed.

(** X19. After the echo of the line, [execute] only ever appends output
    and error entries, clears the log, pushes a working directory that is
    "/" or leads to a directory of the tree, pops the stack, sets its own
    flags, or notifies the address bar and the sidebar: it never replaces
    the state, never writes to the command-string history again, and never
    appends a banner or a second echo. *)
Theorem execute_body_is_confined props c raw root :
  (forall r, fs props = Some r -> r = root) ->
  Forall (Allowed root) (bodyOps props c raw).
Proof. exact (bodyOps_allowed props c raw root). Qed.


Lemma execute_body_is_confined_any props c raw :
  exists root, Forall (Allowed root) (bodyOps props c raw).
Proof.
  destruct (fs props) as [r|] eqn:E.
  - exists r. apply bodyOps_allowed. congruence.
  - exists (Dir "" [] None). apply bodyOps_allowed. congruence.
Qed.

Lemma execute_blank props c raw :
  submitted raw = false -> execute props c raw = c.
Proof.
  unfold submitted. intros H. unfold Shell.execute, Shell.executeOps.
  rewrite H. reflexivity.
Qed.

Lemma execute_submitted props c raw :
  submitted raw = true ->
  execute props c raw
  = fold_left applyOp (bodyOps props c raw)
      (mkComponent
         (mkState (history (state c) ++ [commandEcho c raw])
                  (commandHistory (state c) ++ [raw])
                  (cwds (state c)) (currentCwd (state c)))
         None (hasUsedOpen c) (helpWizardStep c) (helpWizardSeen c)
         (lastOpenedFilePath c)).
Proof.
  unfold submitted. intros H. unfold Shell.execute.
  rewrite (executeOps_nonblank _ _ _ _ _ _ H). reflexivity.
Qed.

(** *** The command-string history *)

Lemma allowed_keeps_commands root op c :
  Allowed root op ->
  commandHistory (state (applyOp c op)) = commandHistory (state c).
Proof.
  intros H. destruct H; simpl; try reflexivity.
  destruct (length (cwds (state c)) <=? 1); reflexivity.
Qed.

Lemma fold_keeps_commands root ops : forall c,
  Forall (Allowed root) ops ->
  commandHistory (state (fold_left applyOp ops c)) = commandHistory (state c).
Proof.
  induction ops as [|op r IH]; intros c H; simpl; [reflexivity|].
  inversion H; subst. rewrite IH by assumption.
  eapply allowed_keeps_commands; eassumption.
Qed.

(** X20. The command-string history records exactly the submitted lines:
    after any sequence of inputs it is the previous history followed by
    the lines that are not blank, as typed and in order; commands, errors
    and answers to the onboarding questions alike. *)
Theorem command_history_records_lines props lines : forall c,
  commandHistory (state (executeAll props c lines))
  = commandHistory (state c) ++ filter submitted lines.
Proof.
  induction lines as [|l r IH]; intros c.
  - simpl. rewrite app_nil_r. reflexivity.
  - change (executeAll props c (l :: r))
      with (executeAll props (execute props c l) r).
    rewrite IH. cbn [filter]. destruct (submitted l) eqn:E.
    + rewrite (execute_submitted _ _ _ E).
      destruct (execute_body_is_confined_any props c l) as [root Hr].
      rewrite (fold_keeps_commands root _ _ Hr). simpl.
      rewrite <- app_assoc. reflexivity.
    + rewrite (execute_blank _ _ _ E). reflexivity.
Qed.

(** *** The working directory *)

Lemma reducer_keeps_valid root s a :
  isTransition a ->
  (forall p, a = SET_CWD p -> p = "/" \/ dirAt root p) ->
  validStack root s -> validStack root (shellReducer s a).
Proof.
  intros Ht Hp [Hinv Hall]. split.
  - apply reducer_preserves_invariant; assumption.
  - destruct a; simpl; try exact Hall.
    + apply Forall_app. split; [exact Hall|].
      constructor; [apply Hp; reflexivity | constructor].
    + destruct (length (cwds s) <=? 1); [exact Hall|].
      simpl. apply Forall_removelast, Hall.
    + contradiction.
Qed.

Lemma allowed_keeps_valid root op c :
  Allowed root op ->
  validStack root (state c) -> validStack root (state (applyOp c op)).
Proof.
  intros H Hv. destruct H; cbn [applyOp state]; try exact Hv;
    apply reducer_keeps_valid; try exact Hv; try exact I;
    intros q Hq; try discriminate.
  injection Hq as <-. assumption.
Qed.

Lemma fold_keeps_valid root ops : forall c,
  Forall (Allowed root) ops ->
  validStack root (state c) ->
  validStack root (state (fold_left applyOp ops c)).
Proof.
  induction ops as [|op r IH]; intros c H Hv; simpl; [exact Hv|].
  inversion H; subst. apply IH; [assumption|].
  apply allowed_keeps_valid; assumption.
Qed.

Lemma execute_keeps_valid props root c raw :
  (forall r, fs props = Some r -> r = root) ->
  validStack root (state c) ->
  validStack root (state (execute props c raw)).
Proof.
  intros Hroot Hv. destruct (submitted raw) eqn:E.
  - rewrite (execute_submitted _ _ _ E).
    apply fold_keeps_valid;
      [apply bodyOps_allowed, Hroot|].
    simpl. destruct Hv as [[Hne Hl] Hall]. repeat split; assumption.
  - rewrite (execute_blank _ _ _ E). exact Hv.
Qed.

(** X21. The working directory always exists: if every entry of the
    working-directory stack is "/" or leads to a directory of the tree,
    this is still so after any sequence of inputs, whatever they are, and
    the current working directory is then such a path; with a Directory
    as root it always leads to a directory. *)
Theorem working_directory_stays_valid props root lines : forall c,
  (forall r, fs props = Some r -> r = root) ->
  validStack root (state c) ->
  validStack root (state (executeAll props c lines)) /\
  (isDir root = true ->
   dirAt root (currentCwd (state (executeAll props c lines)))).
Proof.
  assert (Hcur : forall s, validStack root s -> isDir root = true ->
                           dirAt root (currentCwd s)).
  { intros s [[Hne Hl] Hall] Hd. rewrite <- Hl.
    assert (Hin : In (last (cwds s) "") (cwds s)).
    { destruct (exists_last Hne) as [l' [x E]]. rewrite E, last_last.
      apply in_or_app. right. left. reflexivity. }
    rewrite Forall_forall in Hall. destruct (Hall _ Hin) as [E|H];
      [|exact H].
    rewrite E. destruct root as [n ch m|]; [|discriminate].
    exists n, ch, m. reflexivity. }
  induction lines as [|l r IH]; intros c Hroot Hv.
  - split; [exact Hv | apply Hcur, Hv].
  - change (executeAll props c (l :: r))
      with (executeAll props (execute props c l) r).
    apply IH; [exact Hroot|]. apply execute_keeps_valid; assumption.
Qed.

(** *** The banner *)

Lemma bannersOf_app h1 h2 : bannersOf (h1 ++ h2) = bannersOf h1 ++ bannersOf h2.
Proof. apply filter_app. Qed.

Lemma bannersOf_idem h : bannersOf (bannersOf h) = bannersOf h.
Proof.
  unfold bannersOf. induction h as [|x r IH]; simpl; [reflexivity|].
  destruct (isBanner (itemType x)) eqn:E; simpl; [rewrite E, IH|];
    auto.
Qed.

Lemma bannersOf_cleared h :
  bannersOf h <> [] -> bannersOf (clearedHistory h) = bannersOf h.
Proof.
  intros Hne. unfold clearedHistory. fold (bannersOf h).
  destruct (0 <? length (bannersOf h)) eqn:E; [apply bannersOf_idem|].
  apply Nat.ltb_ge in E. exfalso. apply Hne, length_zero_iff_nil. lia.
Qed.

Lemma allowed_keeps_banners root op c :
  Allowed root op ->
  bannersOf (history (state c)) <> [] ->
  bannersOf (history (state (applyOp c op))) = bannersOf (history (state c)).
Proof.
  intros H Hne. destruct H; simpl; try reflexivity.
  - rewrite bannersOf_app. unfold bannersOf at 2. simpl.
    destruct H as [-> | ->]; simpl; apply app_nil_r.
  - apply bannersOf_cleared, Hne.
  - destruct (length (cwds (state c)) <=? 1); reflexivity.
Qed.

Lemma fold_keeps_banners root ops : forall c,
  Forall (Allowed root) ops ->
  bannersOf (history (state c)) <> [] ->
  bannersOf (history (state (fold_left applyOp ops c)))
  = bannersOf (history (state c)).
Proof.
  induction ops as [|op r IH]; intros c H Hne; simpl; [reflexivity|].
  inversion H; subst.
  rewrite IH; [apply (allowed_keeps_banners root); assumption | assumption|].
  rewrite (allowed_keeps_banners root); assumption.
Qed.

(** X22. A banner is never lost: once the display log holds a banner
    entry, its banner entries stay the same, in number and order, after
    any sequence of inputs, [clear] included. *)
Theorem banners_survive props lines : forall c,
  bannersOf (history (state c)) <> [] ->
  bannersOf (history (state (executeAll props c lines)))
  = bannersOf (history (state c)).
Proof.
  induction lines as [|l r IH]; intros c Hne; [reflexivity|].
  change (executeAll props c (l :: r))
    with (executeAll props (execute props c l) r).
  assert (Hstep : bannersOf (history (state (execute props c l)))
                  = bannersOf (history (state c))).
  { destruct (submitted l) eqn:E.
    - rewrite (execute_submitted _ _ _ E).
      destruct (execute_body_is_confined_any props c l) as [root Hr].
      rewrite (fold_keeps_banners root _ _ Hr); simpl;
        rewrite bannersOf_app; simpl; rewrite app_nil_r;
        [reflexivity | exact Hne].
    - rewrite (execute_blank _ _ _ E). reflexivity. }
  rewrite IH; rewrite Hstep; [reflexivity | exact Hne].
Qed.

(** *** The onboarding detour as a gate *)

(** X23. While a question of the detour is open, every submitted line is
    taken as an answer and no command runs: the working-directory stack,
    the current working directory, the hint flag and the last opened file
    stay as they are; and a well-formed line that is neither yes nor no
    leaves the question open and appends the reminder after its echo. *)
Theorem detour_gates_dispatch props c raw :
  helpWizardStep c <> StepNone ->
  cwds (state (execute props c raw)) = cwds (state c) /\
  currentCwd (state (execute props c raw)) = currentCwd (state c) /\
  hasUsedOpen (execute props c raw) = hasUsedOpen c /\
  lastOpenedFilePath (execute props c raw) = lastOpenedFilePath c /\
  (forall parsed,
      Parser.parseCommand raw = Some parsed ->
      Parser.error parsed = None ->
      yesAnswer (JS.toLowerCase (JS.trim raw)) = false ->
      noAnswer (JS.toLowerCase (JS.trim raw)) = false ->
      helpWizardStep (execute props c raw) = helpWizardStep c /\
      history (state (execute props c raw))
      = history (state c)
        ++ [commandEcho c raw; mkItem TOutput (CWizard PleaseAnswer) None]).
Proof.
  intros Hstep. destruct (submitted raw) eqn:E.
  2:{ rewrite (execute_blank _ _ _ E).
      split; [reflexivity|]. split; [reflexivity|].
      split; [reflexivity|]. split; [reflexivity|].
      intros p Hp. apply parse_some_nonblank in Hp.
      unfold submitted in E. congruence. }
  rewrite (execute_submitted _ _ _ E). unfold Shell.bodyOps.
  destruct (Parser.parseCommand raw) as [parsed|].
  2:{ split; [reflexivity|]. split; [reflexivity|].
      split; [reflexivity|]. split; [reflexivity|].
      intros p H. discriminate H. }
  destruct (Parser.error parsed) as [msg|] eqn:Ee.
  { split; [reflexivity|]. split; [reflexivity|].
    split; [reflexivity|]. split; [reflexivity|].
    intros p Hp He. injection Hp as <-. congruence. }
  assert (Hn : negb (isStepNone (helpWizardStep c)) = true)
    by (destruct (helpWizardStep c); [contradiction| |]; reflexivity).
  rewrite Hn. unfold wizardOps.
  destruct (yesAnswer _) eqn:Ey, (noAnswer _) eqn:En,
           (helpWizardStep c) eqn:Es;
    try contradiction; simpl;
    (split; [reflexivity|]; split; [reflexivity|];
     split; [reflexivity|]; split; [reflexivity|];
     intros p _ _ Hy Hno;
     first [ discriminate
           | split; [reflexivity | rewrite <- app_assoc; reflexivity] ]).
Qed.

End EffectsOfExecute.

Lemma execute_body_is_confined_witness :
  Forall (Effects.Allowed Fs.sampleRoot)
    (Shell.bodyOps Fuzzy.codeUnitCompare Shell.decimalFloor
                   Shell.decimalToString Shell.sampleProps
                   (Shell.initialComponent Shell.sampleProps) "cd books").
Proof.
  apply (execute_body_is_confined Fuzzy.codeUnitCompare Shell.decimalFloor
           Shell.decimalToString Shell.sampleProps
           (Shell.initialComponent Shell.sampleProps) "cd books"
           Fs.sampleRoot).
  intros r H. injection H as <-. reflexivity.
Defined.

Lemma working_directory_stays_valid_witness :
  Effects.dirAt Fs.sampleRoot
    (Session.currentCwd
       (Shell.state
          (Shell.run Shell.sampleProps
                     (Shell.initialComponent Shell.sampleProps)
                     ["cd books"; "cd about"; "back"; "open books"]))).
Proof.
  apply (working_directory_stays_valid Fuzzy.codeUnitCompare
           Shell.decimalFloor Shell.decimalToString Shell.sampleProps
           Fs.sampleRoot
           ["cd books"; "cd about"; "back"; "open books"]
           (Shell.initialComponent Shell.sampleProps)).
  - intros r H. injection H as <-. reflexivity.
  - split; [split; [discriminate | reflexivity]|].
    constructor; [left; reflexivity | constructor].
  - reflexivity.
Defined.

Lemma banners_survive_witness :
  Shell.bannersOf
    (Session.history
       (Shell.state
          (Shell.run Shell.sampleProps
                     (Shell.initialComponent Shell.sampleProps)
                     ["ls"; "clear"; "nope"])))
  = [Session.defaultBanner].
Proof.
  apply (banners_survive Fuzzy.codeUnitCompare Shell.decimalFloor
           Shell.decimalToString Shell.sampleProps
           ["ls"; "clear"; "nope"]
           (Shell.initialComponent Shell.sampleProps)).
  discriminate.
Defined.

Lemma detour_gates_dispatch_witness :
  let c := Shell.run Shell.sampleProps
                     (Shell.initialComponent Shell.sampleProps) ["help"] in
  Session.currentCwd
    (Shell.state (Shell.execute Fuzzy.codeUnitCompare Shell.decimalFloor
                                Shell.decimalToString Shell.sampleProps c
                                "cd books"))
  = "/".
Proof.
  apply (proj1 (proj2 (detour_gates_dispatch Fuzzy.codeUnitCompare
                         Shell.decimalFloor Shell.decimalToString
                         Shell.sampleProps
                         (Shell.run Shell.sampleProps
                            (Shell.initialComponent Shell.sampleProps)
                            ["help"])
                         "cd books" ltac:(discriminate)))).
Defined.

Section ReducerMore.
Import Session.

(** X24. Pushing a working directory and going back undoes the push: from
    a state that satisfies the stack invariant, [SET_CWD] followed by
    [GO_BACK] gives the state back, whatever the path was. *)
Theorem push_then_back_restores s path :
  stackInvariant s ->
  shellReducer (shellReducer s (SET_CWD path)) GO_BACK = s.
Proof.
  intros [Hne Hl]. destruct s as [h ch cw cur]. simpl in *.
  rewrite length_app. simpl.
  destruct cw as [|x r]; [contradiction|]. simpl length.
  replace (S (length r) + 1 <=? 1) with false
    by (symmetry; apply Nat.leb_gt; lia).
  rewrite removelast_last, Hl. reflexivity.
Qed.

Lemma push_then_back_restores_witness :
  shellReducer
    (shellReducer (getInitialState (mkProps None None None))
                  (SET_CWD "/books"))
    GO_BACK
  = getInitialState (mkProps None None None).
Proof.
  apply push_then_back_restores. split; [discriminate | reflexivity].
Defined.

Lemma filter_all (A : Type) (f : A -> bool) (l : list A) :
  Forall (fun x => f x = true) (filter f l).
Proof.
  rewrite Forall_forall. intros x Hx. apply filter_In in Hx. apply Hx.
Qed.

Lemma filter_id (A : Type) (f : A -> bool) (l : list A) :
  Forall (fun x => f x = true) l -> filter f l = l.
Proof.
  induction 1 as [|x r Hx _ IH]; simpl;
    [reflexivity | rewrite Hx, IH; reflexivity].
Qed.

(** X25. Clearing is idempotent and never leaves an empty log: after
    [CLEAR_HISTORY] the log is non-empty and holds banner entries only,
    and a second [CLEAR_HISTORY] changes nothing. *)
Theorem clear_is_idempotent s :
  let cleared := shellReducer s CLEAR_HISTORY in
  shellReducer cleared CLEAR_HISTORY = cleared /\
  history cleared <> [] /\
  Forall (fun item => isBanner (itemType item) = true) (history cleared).
Proof.
  simpl. 
  assert (H : history (shellReducer s CLEAR_HISTORY) <> [] /\
              Forall (fun item => isBanner (itemType item) = true)
                     (history (shellReducer s CLEAR_HISTORY))).
  { simpl. unfold clearedHistory.
    destruct (0 <? length (filter _ (history s))) eqn:E.
    - split; [|apply (filter_all _ (fun item => isBanner (itemType item)))].
      apply Nat.ltb_lt in E. intros E0. rewrite E0 in E. simpl in E. lia.
    - split; [discriminate | repeat constructor]. }
  destruct H as [Hne Hall]. simpl in Hne, Hall.
  split; [|split; assumption].
  f_equal. unfold clearedHistory at 1.
  set (h := clearedHistory (history s)) in *.
  rewrite (filter_id _ _ _ Hall). destruct h; [contradiction | reflexivity].
Qed.

End ReducerMore.

(** ** The tree renderer *)

Section TreeRenderer.
Import Fs Tree.

Variable localeCompare : string -> string -> Z.
Variables elbow tee pipe dash : string.

Local Abbreviation walk := (Tree.walk localeCompare elbow tee pipe dash).
Local Abbreviation buildTreeLines :=
  (Tree.buildTreeLines localeCompare elbow tee pipe dash).

Lemma nodesWithin_dir levels name children meta :
  nodesWithin (S levels) (Dir name children meta)
  = S (sumWithin levels children).
Proof.
  simpl. f_equal. unfold sumWithin.
  induction children as [|[k v] r IH]; simpl; [reflexivity|].
  rewrite IH. reflexivity.
Qed.

Lemma sumWithin_perm levels l1 l2 :
  Permutation l1 l2 -> sumWithin levels l1 = sumWithin levels l2.
Proof.
  intros H. unfold sumWithin.
  induction H; simpl; try lia.
Qed.

Lemma walkEntries_length walkChild levels total : forall rest i,
  (forall e last, In e rest ->
     length (walkChild (snd e) (fst e) last) = nodesWithin levels (snd e)) ->
  length (walkEntries walkChild total i rest) = sumWithin levels rest.
Proof.
  induction rest as [|[k v] r IH]; intros i H; [reflexivity|].
  cbn [walkEntries]. rewrite length_app. unfold sumWithin. cbn [map list_sum].
  rewrite (H (k, v) _ (or_introl eq_refl)).
  fold (sumWithin levels r). rewrite IH; [reflexivity|].
  intros e last He. apply H. right. exact He.
Qed.

Lemma walk_length maxDepth :
  forall remaining (current : FSNode) name prefix isLast depth,
  depth + remaining = maxDepth ->
  length (walk maxDepth remaining current name prefix isLast depth)
  = nodesWithin remaining current.
Proof.
  induction remaining as [|remaining IH];
    intros current name prefix isLast depth Hd.
  - destruct current as [n ch m|]; simpl; [|reflexivity].
    destruct (maxDepth <=? depth); reflexivity.
  - destruct current as [n ch m|]; [|reflexivity].
    rewrite nodesWithin_dir. cbn [Tree.walk typeIsDir isDir negb length].
    assert (Hlt : (maxDepth <=? depth) = false) by (apply Nat.leb_gt; lia).
    rewrite Hlt. f_equal.
    rewrite (walkEntries_length _ remaining).
    + apply sumWithin_perm. apply sortBy_perm.
    + intros e last _. apply IH. lia.
Qed.

(** X26. The tree renderer prints every node that lies at most [maxDepth]
    levels below the node it is given, each exactly once, and no other:
    the number of lines is the number of those nodes. In particular a
    depth of 0 and a File both give exactly one line; so does a value
    that is no node, a member of [Object.prototype] returned by Node
    Lookup. *)
Theorem tree_prints_nodes_within_depth (node : FSNode) displayName maxDepth :
  length (buildTreeLines node displayName maxDepth)
  = nodesWithin maxDepth node /\
  length (buildTreeLines node displayName 0) = 1 /\
  (isDir node = false ->
   length (buildTreeLines node displayName maxDepth) = 1) /\
  (forall k, length (buildTreeLines (Inherited k) displayName maxDepth) = 1).
Proof.
  assert (H : forall d, length (buildTreeLines node displayName d)
                        = nodesWithin d node).
  { intros d. unfold Tree.buildTreeLines. apply walk_length. reflexivity. }
  split; [apply H|]. split; [|split].
  - rewrite H. destruct node; reflexivity.
  - intros Hf. rewrite H. destruct node; [discriminate|].
    destruct maxDepth; reflexivity.
  - intros k. destruct maxDepth; reflexivity.
Qed.

End TreeRenderer.

Example tree_of_sample_root :
  Tree.buildTreeLines Fuzzy.codeUnitCompare "`-- " "|-- " "|   " " - "
                      Fs.sampleRoot "/" 4
  = ["/"; "|-- books/ - Book Collection"; "`-- about - About Me"].
Proof. vm_compute. reflexivity. Qed.

Lemma tree_prints_nodes_within_depth_witness :
  length (Tree.buildTreeLines Fuzzy.codeUnitCompare "`-- " "|-- " "|   "
                              " - "
                              (Fs.File "about" "about"
                                       (Fs.mkMeta "About Me" None) None)
                              "about" 4)
  = 1.
Proof.
  apply (proj1 (proj2 (proj2 (tree_prints_nodes_within_depth
                                Fuzzy.codeUnitCompare "`-- " "|-- " "|   "
                                " - "
                                (Fs.File "about" "about"
                                         (Fs.mkMeta "About Me" None) None)
                                "about" 4)))).
  reflexivity.
Defined.

(** ** The prompt *)

Section PromptFacts.
Import Fs Session Shell PathCompletion Prompt.

(** X27. Walking the command history never leaves it: from a pointer that
    is unset or in range, a step up or down gives a pointer that is unset
    or in range, and the input line becomes the command at that pointer,
    or the empty line when the pointer is unset by the step. The first
    step up selects the latest command, a step up at the oldest stays
    there, and a step down at the latest unsets the pointer. *)
Theorem history_walk_stays_in_range history direction pointer input :
  history <> [] -> inRange history pointer ->
  let result := handleHistory history direction pointer input in
  inRange history (fst result) /\
  (direction = Down -> pointer = None -> result = (None, Some input)) /\
  (direction = Up \/ pointer <> None ->
   snd result = match fst result with
                | Some i => Some (nth i history "")
                | None => Some ""
                end) /\
  (direction = Up -> pointer = None ->
   fst result = Some (length history - 1)) /\
  (direction = Up -> pointer = Some 0 -> fst result = Some 0) /\
  (direction = Down -> pointer = Some (length history - 1) ->
   result = (None, Some "")).
Proof.
  intros Hne Hin. unfold handleHistory.
  assert (Hlen : 0 < length history)
    by (destruct history; [contradiction | simpl; lia]).
  assert (Hz : (length history =? 0) = false) by (apply Nat.eqb_neq; lia).
  rewrite Hz.
  assert (Hnth : forall i, i < length history ->
                   nth_error history i = Some (nth i history "")).
  { intros i Hi. apply nth_error_nth'. exact Hi. }
  destruct direction.
  - set (i := match pointer with
              | None => length history - 1
              | Some i => Nat.max 0 (i - 1)
              end).
    assert (Hi : i < length history).
    { unfold i. destruct pointer as [j|]; simpl in Hin; lia. }
    cbn [fst snd]. split; [exact Hi|].
    split; [discriminate|].
    split; [intros _; apply Hnth, Hi|].
    split; [intros _ ->; reflexivity|].
    split; [intros _ ->; reflexivity | discriminate].
  - destruct pointer as [j|].
    + simpl in Hin. destruct (length history <=? j + 1) eqn:E.
      * cbn [fst snd]. split; [exact I|].
        split; [discriminate|]. split; [reflexivity|].
        split; [discriminate|]. split; [discriminate|]. reflexivity.
      * apply Nat.leb_gt in E. cbn [fst snd]. split; [exact E|].
        split; [discriminate|].
        split; [intros _; apply Hnth, E|].
        split; [discriminate|]. split; [discriminate|].
        intros _ Hj. injection Hj as Hj. lia.
    + cbn [fst snd]. split; [exact I|].
      split; [reflexivity|].
      split; [intros [H|H]; [discriminate | contradiction]|].
      split; [discriminate|]. split; discriminate.
Qed.

Lemma history_walk_stays_in_range_witness :
  fst (handleHistory ["ls"; "cd books"; "pwd"] Up None "") = Some 2.
Proof.
  apply (proj1 (proj2 (proj2 (proj2 (history_walk_stays_in_range
                                ["ls"; "cd books"; "pwd"] Up None ""
                                ltac:(discriminate) I))))); reflexivity.
Defined.

(** *** Tab on a command prefix *)

Lemma trimStart_length s : String.length (JS.trimStart s) <= String.length s.
Proof.
  induction s as [|c r IH]; simpl; [lia|].
  destruct (JS.isSpace c); simpl; lia.
Qed.

(** In command position the line is blanks followed by one token. *)
Lemma command_position_split input :
  hasSpace (JS.trimStart input) = false ->
  lastToken input = JS.trimStart input /\
  Parser.blank (JS.sliceTo (String.length input
                            - String.length (JS.trimStart input)) input) /\
  input = (JS.sliceTo (String.length input
                       - String.length (JS.trimStart input)) input
           ++ JS.trimStart input)%string.
Proof.
  unfold Parser.blank.
  induction input as [|c r IH]; intros H.
  - repeat split. constructor.
  - cbn [JS.trimStart lastToken] in *. destruct (JS.isSpace c) eqn:Ec.
    + destruct (IH H) as [H1 [H2 H3]]. cbn [orb].
      pose proof (trimStart_length r) as Hl.
      replace (String.length (String c r) - String.length (JS.trimStart r))
        with (S (String.length r - String.length (JS.trimStart r)))
        by (cbn [String.length]; lia).
      cbn [JS.sliceTo]. split; [exact H1|]. split.
      * simpl. constructor; [exact Ec | exact H2].
      * simpl. rewrite <- H3. reflexivity.
    + unfold hasSpace in H. simpl in H. rewrite Ec in H. simpl in H.
      unfold hasSpace. rewrite H. cbn [orb].
      rewrite Nat.sub_diag. repeat split. constructor.
Qed.

Lemma scan_spaces ws : forall toks,
  Parser.blank ws ->
  fold_left Parser.scanStep (list_ascii_of_string ws)
            (Parser.mkScan toks "" None false)
  = Parser.mkScan toks "" None false.
Proof.
  unfold Parser.blank. induction ws as [|c r IH]; intros toks H;
    [reflexivity|].
  simpl in H. inversion H as [|? ? Hc Hr]; subst.
  destruct (space_is_plain c Hc) as [H1 H2].
  simpl. unfold Parser.scanStep at 2. simpl. rewrite H1, H2, Hc.
  apply IH, Hr.
Qed.

Lemma blank_app_inv a b : Parser.blank (a ++ b) -> Parser.blank b.
Proof.
  unfold Parser.blank. rewrite list_ascii_app. intros H.
  apply Forall_app in H. apply H.
Qed.

Lemma parse_padded_word ws w :
  Parser.blank ws -> ParserSpec.plainWord w = true ->
  Parser.parseCommand (ws ++ w ++ " ")
  = Some (Parser.mkParsed (ws ++ w ++ " ")
            (ParserSpec.canonicalName (JS.toLowerCase w)) [] None).
Proof.
  intros Hws Hw. destruct (plainWord_inv w Hw) as [Ht Hp].
  rewrite parse_nonblank.
  2:{ intros Hb. apply blank_app_inv in Hb.
      exact (starts_plain_not_blank w " " Hw Hb). }
  cbv zeta. unfold Parser.scanAll, Parser.scan0.
  rewrite list_ascii_app, fold_left_app, (scan_spaces ws [] Hws).
  rewrite list_ascii_app, fold_left_app, (scan_plain w _ _ Hp).
  cbn [list_ascii_of_string fold_left append].
  rewrite (scan_space _ _ Ht). reflexivity.
Qed.

Lemma commands_are_plain name :
  In name Fuzzy.AUTOCOMPLETE_COMMANDS ->
  ParserSpec.plainWord name = true /\
  ParserSpec.canonicalName (JS.toLowerCase name) = name.
Proof.
  unfold Fuzzy.AUTOCOMPLETE_COMMANDS. simpl.
  intros H. repeat (destruct H as [<-|H]; [split; reflexivity|]).
  contradiction.
Qed.

(** X28. Tab on a command prefix gives a line that runs: when the line
    holds a single unquoted token and the command vocabulary offers a
    completion, the completed line parses, without error, to exactly the
    first offered command, with no argument; that command is in the
    vocabulary and starts with the lower-cased token. *)
Theorem tab_completes_to_command localeCompare fs cwd input top rest :
  let a := autocomplete localeCompare fs cwd StepNone input in
  mode a = CommandMode -> quoteChar a = None ->
  suggestions a = top :: rest ->
  In (insertText top) Fuzzy.AUTOCOMPLETE_COMMANDS /\
  JS.startsWith (insertText top) (JS.toLowerCase (tokenPrefix a)) = true /\
  Parser.parseCommand (handleTabComplete a input)
  = Some (Parser.mkParsed (handleTabComplete a input) (insertText top)
                          [] None).
Proof.
  cbv zeta. unfold autocomplete. cbn [isStepNone negb].
  destruct (String.length (JS.trimStart input) =? 0); [discriminate|].
  destruct (hasSpace (JS.trimStart input)) eqn:Hs; cbn [negb].
  { destruct (pathModeOf _), fs; discriminate. }
  destruct (command_position_split input Hs) as [Hlast [Hblank Hsplit]].
  rewrite Hlast.
  set (ws := JS.sliceTo (String.length input
                         - String.length (JS.trimStart input)) input) in *.
  set (tok := JS.trimStart input) in *.
  intros _ Hq Hsug. cbn [quoteChar] in Hq. cbn [suggestions] in Hsug.
  cbn [tokenPrefix].
  assert (Htok : match (match tok with
                        | String c _ =>
                            if Parser.isQuoteChar c then Some c else None
                        | EmptyString => None
                        end) with
                 | Some _ => JS.sliceFrom 1 tok
                 | None => tok
                 end = tok) by (rewrite Hq; reflexivity).
  rewrite Htok in *.
  unfold handleTabComplete. cbn [suggestions quoteChar mode beforeToken].
  rewrite Hsug, Hq.
  assert (Hin : In top (map (fun name => mkSuggestion KindCommand name)
                   (filter (fun name => JS.startsWith name (JS.toLowerCase tok))
                           Fuzzy.AUTOCOMPLETE_COMMANDS)))
    by (rewrite Hsug; left; reflexivity).
  apply in_map_iff in Hin. destruct Hin as [name [<- Hname]].
  apply filter_In in Hname. destruct Hname as [Hname Hstart].
  cbn [insertText append].
  split; [exact Hname|]. split; [exact Hstart|].
  destruct (commands_are_plain name Hname) as [Hplain Hcanon].
  rewrite (parse_padded_word ws name Hblank Hplain), Hcanon. reflexivity.
Qed.

Lemma tab_completes_to_command_witness :
  Parser.parseCommand
    (handleTabComplete
       (autocomplete Fuzzy.codeUnitCompare None "/" StepNone "  SE") "  SE")
  = Some (Parser.mkParsed "  search " "search" [] None).
Proof.
  apply (proj2 (proj2 (tab_completes_to_command Fuzzy.codeUnitCompare None
                         "/" "  SE" (mkSuggestion KindCommand "search") []
                         eq_refl eq_refl eq_refl))).
Defined.

End PromptFacts.

(** ** Scenarios *)

Section Scenarios.
Import Fs Session Shell Effects.

Variable localeCompare : string -> string -> Z.
Variable finiteFloor : string -> option Z.
Variable numberToString : Z -> string.

Local Abbreviation execute :=
  (Shell.execute localeCompare finiteFloor numberToString).
Local Abbreviation executeAll :=
  (Shell.executeAll localeCompare finiteFloor numberToString).

Lemma lookupWalk_snoc (root : FSNode) stack k v :
  lookupWalk root (stack ++ [k]) = Some v ->
  exists name children meta,
    lookupWalk root stack = Some (Node (Dir name children meta)).
Proof.
  revert root. induction stack as [|p r IH]; intros root H; simpl in *.
  - destruct root as [n ch mt|]; [|discriminate]. eauto.
  - destruct root as [n ch mt|]; [|discriminate].
    destruct (childAt ch p) as [[child|i]|]; [apply IH, H | |discriminate].
    apply lookupWalk_from_inherited in H. destruct H as [H _].
    destruct r; discriminate.
Qed.

(** A successful [cd] to a directory: what the component becomes. *)
Lemma execute_cd props c root target p name children meta :
  helpWizardStep c = StepNone ->
  fs props = Some root ->
  ParserSpec.plainWord target = true ->
  resolvePath root (currentCwd (state c)) target = Some p ->
  getNodeAtPath root p = Some (Node (Dir name children meta)) ->
  execute props c ("cd " ++ target)
  = mkComponent
      (mkState (history (state c) ++ [commandEcho c ("cd " ++ target)])
               (commandHistory (state c) ++ ["cd " ++ target]%string)
               (cwds (state c) ++ [p]) p)
      None (hasUsedOpen c) StepNone (helpWizardSeen c)
      (lastOpenedFilePath c).
Proof.
  intros Hs Hf Hplain Hr Hg.
  pose proof (parse_plain_words "cd" [target] eq_refl) as Hp.
  cbn [forallb] in Hp. rewrite Hplain in Hp. specialize (Hp eq_refl).
  change (JS.join " " ["cd"; target]) with ("cd " ++ target)%string in Hp.
  rewrite (execute_command _ _ _ _ _ _ _ _ Hs Hf Hp eq_refl).
  cbn [Parser.commandName Parser.args].
  change (ParserSpec.canonicalName (JS.toLowerCase "cd"))
    with (Parser.Name "cd").
  unfold Shell.dispatchCommand, Shell.dispatchNamed.
  simpl String.eqb. cbv iota.
  unfold runCd. cbn [nth_error].
  assert (Ht : orElse (Some target) "/" = target).
  { unfold orElse. destruct (plainWord_inv _ Hplain) as [-> _]. reflexivity. }
  rewrite Ht, Hr, Hg. simpl. rewrite Hs. reflexivity.
Qed.

(** X29. [cd] into a directory and [cd ..] lead back: from a canonical
    working directory, after [cd name] has entered the child directory
    [name], executing [cd ..] makes the working directory the one from
    before; both moves are on the stack. *)
Theorem cd_then_cd_dotdot_returns props c root stack name p dname children
        meta :
  helpWizardStep c = StepNone ->
  fs props = Some root ->
  currentCwd (state c) = ("/" ++ JS.join "/" stack)%string ->
  Forall canonicalSegment stack ->
  canonicalSegment name -> ParserSpec.plainWord name = true ->
  name <> "~" ->
  resolvePath root (currentCwd (state c)) name = Some p ->
  getNodeAtPath root p = Some (Node (Dir dname children meta)) ->
  let c' := executeAll props c [("cd " ++ name)%string; "cd .."] in
  currentCwd (state c') = currentCwd (state c) /\
  cwds (state c') = cwds (state c) ++ [p; currentCwd (state c)].
Proof.
  intros Hs Hf Hcur Hc Hn Hplain Htilde Hr Hg. cbv zeta.
  unfold Shell.executeAll. cbn [fold_left].
  rewrite (execute_cd _ _ _ _ _ _ _ _ Hs Hf Hplain Hr Hg).
  (* the way back *)
  assert (Hback : resolvePath root p ".." = Some (currentCwd (state c))).
  { rewrite Hcur in Hr |- *.
    apply (resolve_child_dotdot _ _ _ _ Hc Hn Htilde Hr). }
  assert (Hdir : exists n ch m,
             getNodeAtPath root (currentCwd (state c))
             = Some (Node (Dir n ch m))).
  { rewrite Hcur in Hr |- *.
    assert (Hp : p = ("/" ++ JS.join "/" (stack ++ [name]))%string /\
                 checkWalk root (stack ++ [name]) = true).
    { revert Hr. rewrite resolvePath_unfold.
      destruct (atom_not_slash name (proj1 Hn)) as [Hsl He].
      unfold specialTarget. rewrite He.
      apply String.eqb_neq in Htilde. rewrite Htilde. cbn [orb].
      unfold resolveParts. rewrite Hsl.
      rewrite (segments_of_rendered _ (canonical_good _ Hc)).
      assert (Hseg : segments name = [name]).
      { unfold segments. destruct (proj1 Hn) as [Ha Ht]. unfold atom in Ha.
        rewrite Ha. unfold JS.filterBoolean. simpl. rewrite Ht.
        reflexivity. }
      rewrite Hseg.
      assert (Hall : Forall canonicalSegment (stack ++ [name])).
      { apply Forall_app. split; [exact Hc|].
        constructor; [exact Hn | constructor]. }
      unfold foldSegments. rewrite (fold_canonical_id _ [] Hall). cbn [app].
      destruct (checkWalk (Node root) (stack ++ [name])) eqn:Hw;
        [|discriminate].
      intros H. injection H as <-. split; reflexivity. }
    destruct Hp as [_ Hw].
    apply checkWalk_lookupWalk in Hw. destruct Hw as [m Hm].
    apply lookupWalk_snoc in Hm.
    rewrite (getNodeAtPath_rendered _ _ (canonical_good _ Hc)). exact Hm. }
  destruct Hdir as [n [ch [m Hd]]].
  rewrite (execute_cd props _ root ".." (currentCwd (state c)) n ch m);
    try reflexivity; try assumption.
  cbn [state cwds currentCwd]. split; [reflexivity|].
  rewrite <- app_assoc. reflexivity.
Qed.

End Scenarios.

Lemma cd_then_cd_dotdot_returns_witness :
  Session.currentCwd
    (Shell.state (Shell.run Shell.sampleProps
                            (Shell.initialComponent Shell.sampleProps)
                            ["cd books"; "cd .."]))
  = "/".
Proof.
  apply (proj1 (cd_then_cd_dotdot_returns Fuzzy.codeUnitCompare
                  Shell.decimalFloor Shell.decimalToString
                  Shell.sampleProps
                  (Shell.initialComponent Shell.sampleProps)
                  Fs.sampleRoot [] "books" "/books" "books" []
                  (Some (Fs.mkMeta "Book Collection" None))
                  eq_refl eq_refl eq_refl (Forall_nil _)
                  ltac:(repeat split; discriminate) eq_refl
                  ltac:(discriminate) eq_refl eq_refl)).
Defined.

(** ** Search *)

Section SearchFacts.
Import Fs Shell TreeShape.

Lemma searchWalk_dir term name children meta path :
  searchWalk term (Dir name children meta) path
  = (if JS.includes (JS.toLowerCase name) term
     then [(path, Dir name children meta)] else [])
    ++ searchChildren term path children.
Proof.
  cbn [searchWalk]. f_equal.
  induction children as [|[k v] r IH]; [reflexivity|].
  cbn [searchChildren]. rewrite <- IH. reflexivity.
Qed.

Lemma append_assoc a b c : ((a ++ b) ++ c = a ++ (b ++ c))%string.
Proof.
  induction a as [|x a IH]; simpl; [reflexivity | rewrite IH; reflexivity].
Qed.

Lemma join_snoc stack k :
  stack <> [] ->
  JS.join "/" (stack ++ [k]) = (JS.join "/" stack ++ "/" ++ k)%string.
Proof.
  induction stack as [|x r IH]; intros H; [contradiction|].
  destruct r as [|y r'].
  - reflexivity.
  - change (JS.join "/" ((x :: y :: r') ++ [k]))
      with (x ++ "/" ++ JS.join "/" ((y :: r') ++ [k]))%string.
    rewrite IH by discriminate.
    change (JS.join "/" (x :: y :: r'))
      with (x ++ "/" ++ JS.join "/" (y :: r'))%string.
    rewrite !append_assoc. reflexivity.
Qed.

Lemma childPath_rendered stack k :
  Forall goodSegment stack ->
  childPath ("/" ++ JS.join "/" stack) k
  = ("/" ++ JS.join "/" (stack ++ [k]))%string.
Proof.
  intros Hg. unfold childPath.
  destruct stack as [|x r]; [reflexivity|].
  destruct (String.eqb ("/" ++ JS.join "/" (x :: r)) "/") eqn:E.
  - apply String.eqb_eq in E.
    pose proof (segments_of_rendered _ Hg) as Hs. rewrite E in Hs.
    discriminate Hs.
  - rewrite join_snoc by discriminate. reflexivity.
Qed.

Lemma lookupWalk_step (root : Found) stack name children meta k child :
  lookupWalk root stack = Some (Node (Dir name children meta)) ->
  lookupChild children k = Some child ->
  lookupWalk root (stack ++ [k]) = Some (Node child).
Proof.
  revert root. induction stack as [|p r IH]; intros root H Hk; simpl in *.
  - injection H as ->. rewrite (childAt_own _ _ _ Hk). reflexivity.
  - destruct root as [[n ch m|]|]; try discriminate.
    destruct (childAt ch p); [|discriminate]. apply IH; assumption.
Qed.

Lemma search_paths_from term root : forall node stack,
  WellFormed node ->
  Forall goodSegment stack ->
  lookupWalk (Node root) stack = Some (Node node) ->
  forall path hit,
    In (path, hit) (searchWalk term node ("/" ++ JS.join "/" stack)) ->
    getNodeAtPath root path = Some (Node hit).
Proof.
  intros node.
  induction node as [name slug meta content | name children meta IH]
    using FSNode_induction;
    intros stack Hwf Hg Hl path hit Hin.
  - cbn [searchWalk] in Hin.
    destruct (_ || _); [|contradiction].
    destruct Hin as [E|[]]. injection E as <- <-.
    exact (eq_trans (getNodeAtPath_rendered root stack Hg) Hl).
  - rewrite searchWalk_dir in Hin. apply in_app_or in Hin.
    destruct Hin as [Hin|Hin].
    + destruct (JS.includes _ _); [|contradiction].
      destruct Hin as [E|[]]. injection E as <- <-.
      exact (eq_trans (getNodeAtPath_rendered root stack Hg) Hl).
    + inversion Hwf as [|? ? ? Hnd Hall]; subst.
      assert (Hgen : forall cs,
                 (forall e, In e cs -> In e children) ->
                 In (path, hit)
                    (searchChildren term ("/" ++ JS.join "/" stack) cs) ->
                 getNodeAtPath root path = Some (Node hit)).
      { induction cs as [|[k v] r IHr]; intros Hsub Hin'; [contradiction|].
        cbn [searchChildren] in Hin'. apply in_app_or in Hin'.
        destruct Hin' as [Hin'|Hin'].
        - assert (Hkv : In (k, v) children)
            by (apply Hsub; left; reflexivity).
          rewrite Forall_forall in IH, Hall.
          destruct (Hall _ Hkv) as [Hgk Hwv]. simpl in Hgk, Hwv.
          rewrite (childPath_rendered _ _ Hg) in Hin'.
          apply (IH _ Hkv (stack ++ [k])); try assumption.
          + apply Forall_app. split; [exact Hg|].
            constructor; [exact Hgk | constructor].
          + eapply lookupWalk_step; [exact Hl|].
            apply (In_lookupChild_NoDup _ _ _ Hnd Hkv).
        - apply IHr; [|exact Hin'].
          intros e He. apply Hsub. right. exact He. }
      apply (Hgen children (fun e H => H) Hin).
Qed.

(** X30. The path shown with a search hit opens that very node: in a tree
    whose directories have pairwise different keys, each a non-empty name
    without "/", Node Lookup on the path of every result of [search]
    returns the node of that result. *)
Theorem search_paths_resolve term root path hit :
  WellFormed root ->
  In (path, hit) (searchWalk term root "/") ->
  getNodeAtPath root path = Some (Node hit).
Proof.
  intros Hwf Hin.
  apply (search_paths_from term root root [] Hwf (Forall_nil _) eq_refl
                           path hit Hin).
Qed.

End SearchFacts.

Lemma sampleRoot_well_formed : TreeShape.WellFormed Fs.sampleRoot.
Proof.
  apply TreeShape.WfDir.
  - repeat constructor; simpl; intuition discriminate.
  - repeat constructor.
Qed.

Lemma search_paths_resolve_witness :
  Fs.getNodeAtPath Fs.sampleRoot "/about"
  = Some (Fs.Node (Fs.File "about" "about" (Fs.mkMeta "About Me" None)
                           (Some "I am Uday."))).
Proof.
  apply (search_paths_resolve "about" Fs.sampleRoot "/about" _
           sampleRoot_well_formed).
  vm_compute. left. reflexivity.
Defined.
